(** * ioslib [index.js]: the detection orchestrator, its result merger and
      the device / certificate / provisioning-profile resolver.

    The development follows [src/index.js]:
    - [JS]: the fragment of JavaScript data the functions touch, as a store
      of objects addressed by reference, so that sharing between the source
      and the destination of [mix] is visible;
    - [Mix]: the local function [mix(src, dest)] of [detect];
    - [Detect]: [detect(options, callback)], the cache variable and the
      [async.parallel] fan-out over the six detectors;
    - [Combos]: [findValidDeviceCertProfileCombos(options, callback)];
    - [MixSpec], [DetectSpec], [CombosSpec]: what whole calls of these
      functions are told by;
    - [Android]: the exported [detect(opts)] of lines 34 to 54, over
      [Promise.all] and the five Android detectors.

    The two functions are embedded as lines 88 to 243 of the file give
    them. Whether they run in strict mode depends on how the file is
    loaded, so the embedding takes it as a parameter. [async.parallel]
    and [Promise.all] are embedded by what they do with the callbacks
    and promises they are handed; the detectors, [provisioning.find],
    [util.expandPath] and the environment are what the functions are
    run against. *)

From Stdlib Require Import Ascii String ZArith Lia.
From stdpp Require Import base option list strings pretty sorting.

Local Open Scope string_scope.
Local Open Scope list_scope.
Local Open Scope nat_scope.

(** ** JavaScript values and the object store *)

Module JS.

Abbreviation loc := nat.

(** Data as the detectors return it: [undefined], [null], booleans, numbers
    (integer valued), strings, and references to arrays and plain objects.
    Objects are read through their own properties; what they inherit from
    [Object.prototype] and [Array.prototype] is not part of the model. *)
Inductive value : Type :=
  | VUndef
  | VNull
  | VBool (b : bool)
  | VNum (n : Z)
  | VStr (s : string)
  | VRef (l : loc).

#[global] Instance value_eq_dec : EqDecision value.
Proof. solve_decision. Defined.

Abbreviation props := (list (string * value)).

(** An object of the store: a plain object with its own properties in
    insertion order, or an array with its elements ([None] is a hole) and
    the named properties that were assigned to it. *)
Inductive cell : Type :=
  | CObj (ps : props)
  | CArr (es : list (option value)) (ps : props).

#[global] Instance cell_eq_dec : EqDecision cell.
Proof. solve_decision. Defined.

Abbreviation heap := (list cell).

Inductive error : Type := TypeError | RangeError.

#[global] Instance error_eq_dec : EqDecision error.
Proof. solve_decision. Defined.

(** *** Own properties *)

Fixpoint props_get (k : string) (ps : props) : option value :=
  match ps with
  | [] => None
  | (k', v) :: r => if decide (k = k') then Some v else props_get k r
  end.

Fixpoint props_set (k : string) (v : value) (ps : props) : props :=
  match ps with
  | [] => [(k, v)]
  | (k', v') :: r =>
      if decide (k = k') then (k, v) :: r else (k', v') :: props_set k v r
  end.

(** A property name is an array index when it is the canonical decimal
    spelling of an integer below 2^32 - 1. *)
Definition digit_of (a : ascii) : option N :=
  let n := N_of_ascii a in
  if decide (48 ≤ n ∧ n ≤ 57)%N then Some (n - 48)%N else None.

Fixpoint parse_digits (s : string) (acc : N) : option N :=
  match s with
  | EmptyString => Some acc
  | String a r =>
      match digit_of a with
      | Some d => parse_digits r (10 * acc + d)%N
      | None => None
      end
  end.

Definition index_name (i : nat) : string := pretty (N.of_nat i).

Definition array_index (k : string) : option nat :=
  match k with
  | EmptyString => None
  | _ =>
      match parse_digits k 0 with
      | Some n =>
          if decide (pretty n = k ∧ (n < 4294967295)%N)
          then Some (N.to_nat n) else None
      | None => None
      end
  end.

(** [Object.keys]: integer-like names in ascending order first, then the
    other names in insertion order. *)
Definition index_keys (ks : list string) : list nat :=
  merge_sort le (omap array_index ks).

Definition named_keys (ks : list string) : list string :=
  filter (λ k, array_index k = None) ks.

Definition props_keys (ps : props) : list string :=
  (index_name <$> index_keys ps.*1) ++ named_keys ps.*1.

Fixpoint elems_keys (i : nat) (es : list (option value)) : list string :=
  match es with
  | [] => []
  | None :: r => elems_keys (S i) r
  | Some _ :: r => index_name i :: elems_keys (S i) r
  end.

Definition own_keys (c : cell) : list string :=
  match c with
  | CObj ps => props_keys ps
  | CArr es ps => elems_keys 0 es ++ named_keys ps.*1
  end.

(** *** Reading and writing one property of an object *)

Definition cell_get (c : cell) (k : string) : value :=
  match c with
  | CObj ps => default VUndef (props_get k ps)
  | CArr es ps =>
      match array_index k with
      | Some i => default VUndef (mjoin (es !! i))
      | None =>
          if decide (k = "length") then VNum (Z.of_nat (length es))
          else default VUndef (props_get k ps)
      end
  end.

(** Writing an element at or past the end of an array extends it with
    holes. *)
Definition arr_write (i : nat) (v : value) (es : list (option value))
  : list (option value) :=
  if decide (i < length es) then <[i := Some v]> es
  else es ++ replicate (i - length es) None ++ [Some v].

(** The new length an assignment to [length] asks for; [None] is a
    [RangeError]. A string counts when it is empty or spells an integer
    canonically; other spellings of numbers, and objects that convert to
    one, are taken as no length. *)
Definition to_length (v : value) : option nat :=
  match v with
  | VUndef => None
  | VNull => Some 0
  | VBool b => Some (if b then 1 else 0)
  | VNum n => if decide (0 ≤ n < 4294967296)%Z then Some (Z.to_nat n) else None
  | VStr s =>
      if decide (s = "") then Some 0
      else match parse_digits s 0 with
           | Some n =>
               if decide (pretty n = s ∧ (n < 4294967296)%N)
               then Some (N.to_nat n) else None
           | None => None
           end
  | VRef _ => None
  end.

Definition cell_set (c : cell) (k : string) (v : value) : error + cell :=
  match c with
  | CObj ps => inr (CObj (props_set k v ps))
  | CArr es ps =>
      match array_index k with
      | Some i => inr (CArr (arr_write i v es) ps)
      | None =>
          if decide (k = "length") then
            match to_length v with
            | Some n => inr (CArr (resize n None es) ps)
            | None => inl RangeError
            end
          else inr (CArr es (props_set k v ps))
      end
  end.

(** *** Primitive tests *)

(** [!!v] *)
Definition truthy (v : value) : bool :=
  match v with
  | VUndef | VNull => false
  | VBool b => b
  | VNum n => bool_decide (n ≠ 0%Z)
  | VStr s => bool_decide (s ≠ "")
  | VRef _ => true
  end.

Definition is_arr (c : cell) : bool :=
  match c with CArr _ _ => true | CObj _ => false end.

(** [Array.isArray(v)] *)
Definition is_array (h : heap) (v : value) : bool :=
  match v with
  | VRef l => from_option is_arr false (h !! l)
  | _ => false
  end.

(** [v !== null && typeof v === 'object'] *)
Definition is_object (v : value) : bool :=
  match v with VRef _ => true | _ => false end.

(** *** What objects inherit

    An object of the store is read and written through its own
    properties. In the code a plain object inherits those of
    [Object.prototype] as well: a name of [inherited_names] that the
    object does not have itself reads as a function there (as the
    prototype itself, under [__proto__]), and an assignment under
    [__proto__] goes to the accessor, which binds no property of the
    object. [get_prop] and [set_prop] below are what the code does where
    neither happens; the theorems that tell what [mix] binds say so, with
    the next two conditions. *)
Definition inherited_names : list string :=
  ["constructor"; "hasOwnProperty"; "isPrototypeOf"; "propertyIsEnumerable";
   "toLocaleString"; "toString"; "valueOf"; "__proto__"; "__defineGetter__";
   "__defineSetter__"; "__lookupGetter__"; "__lookupSetter__"].

(** [o[k]], for a plain object [o] with the properties [ps], reads a
    property of [o] itself, or [undefined]. *)
Definition reads_own (k : string) (ps : props) : Prop :=
  k ∉ inherited_names ∨ is_Some (props_get k ps).

(** [o[k] = v], for a plain object [o] with the properties [ps], binds
    the property [k] of [o] itself. *)
Definition binds_own (k : string) (ps : props) : Prop :=
  k ≠ "__proto__" ∨ is_Some (props_get k ps).

#[global] Instance reads_own_dec k ps : Decision (reads_own k ps).
Proof. unfold reads_own. apply _. Defined.

#[global] Instance binds_own_dec k ps : Decision (binds_own k ps).
Proof. unfold binds_own. apply _. Defined.

(** An array with the named properties [ps] concatenates as arrays do:
    [a.concat] is the method of [Array.prototype] unless [a] has a
    property [concat] of its own, which is no function in this store, so
    that calling it is a [TypeError]; and the method creates its result
    through [a.constructor], where a primitive other than [undefined]
    is a [TypeError] too. *)
Definition plain_concat (ps : props) : bool :=
  match props_get "concat" ps with
  | Some _ => false
  | None =>
      match props_get "constructor" ps with
      | None | Some VUndef | Some (VRef _) => true
      | Some _ => false
      end
  end.

(** *** Computations over the store

    A computation reads and updates the store and either returns or throws;
    the store at the throw is kept, since what was written before it stays
    written. *)

Inductive outcome (A : Type) : Type :=
  | Done (a : A) (h : heap)
  | Throws (e : error) (h : heap).
Arguments Done {A} a h.
Arguments Throws {A} e h.

Definition M (A : Type) : Type := heap → outcome A.

Definition ret {A} (a : A) : M A := λ h, Done a h.
Definition bind {A B} (m : M A) (k : A → M B) : M B :=
  λ h, match m h with
       | Done a h' => k a h'
       | Throws e h' => Throws e h'
       end.

Notation "'let*' x := m 'in' k" := (bind m (λ x, k))
  (at level 20, x pattern, m at level 100, k at level 200, only parsing).
Notation "m ;;; k" := (bind m (λ _, k))
  (at level 100, k at level 200, right associativity, only parsing).

(** [l.forEach(f)] *)
Fixpoint for_each {A} (l : list A) (f : A → M unit) : M unit :=
  match l with
  | [] => ret tt
  | x :: r => f x ;;; for_each r f
  end.

(** The store after a computation, however it ended. *)
Definition final_heap {A} (o : outcome A) : heap :=
  match o with Done _ h => h | Throws _ h => h end.

Section Primitives.

(** Whether the code runs in strict mode: an assignment to a property of
    a primitive throws there and is ignored otherwise. *)
Variable strict : bool.

Definition string_keys (s : string) : list string :=
  index_name <$> seq 0 (String.length s).

Definition string_get (s : string) (k : string) : value :=
  match array_index k with
  | Some i =>
      match String.get i s with
      | Some a => VStr (String a EmptyString)
      | None => VUndef
      end
  | None =>
      if decide (k = "length") then VNum (Z.of_nat (String.length s))
      else VUndef
  end.

(** [o[k]] *)
Definition get_prop (o : value) (k : string) : M value :=
  λ h, match o with
       | VUndef | VNull => Throws TypeError h
       | VBool _ | VNum _ => Done VUndef h
       | VStr s => Done (string_get s k) h
       | VRef l => Done (from_option (λ c, cell_get c k) VUndef (h !! l)) h
       end.

(** [o[k] = v] *)
Definition set_prop (o : value) (k : string) (v : value) : M unit :=
  λ h, match o with
       | VUndef | VNull => Throws TypeError h
       | VBool _ | VNum _ | VStr _ =>
           if strict then Throws TypeError h else Done tt h
       | VRef l =>
           match h !! l with
           | Some c =>
               match cell_set c k v with
               | inr c' => Done tt (<[l := c']> h)
               | inl e => Throws e h
               end
           | None => Done tt h
           end
       end.

(** [Object.keys(o)] *)
Definition object_keys (o : value) : M (list string) :=
  λ h, match o with
       | VUndef | VNull => Throws TypeError h
       | VBool _ | VNum _ => Done [] h
       | VStr s => Done (string_keys s) h
       | VRef l => Done (from_option own_keys [] (h !! l)) h
       end.

(** [{}] and array literals: a new object at the next free reference. *)
Definition alloc (c : cell) : M value :=
  λ h, Done (VRef (length h)) (h ++ [c]).

Definition array_elems (h : heap) (v : value) : option (list (option value)) :=
  match v with
  | VRef l => match h !! l with Some (CArr es _) => Some es | _ => None end
  | _ => None
  end.

(** [a.concat(b)] on an array [a]: a new array; [b] is spread when it is
    an array and appended as one element otherwise. The method is looked
    up on [a], and the new array is created through [a.constructor]: see
    [plain_concat]. *)
Definition concat (a b : value) : M value :=
  λ h, match a with
       | VRef l =>
           match h !! l with
           | Some (CArr ea pa) =>
               if plain_concat pa then
                 alloc (CArr (ea ++ default [Some b] (array_elems h b)) []) h
               else Throws TypeError h
           | _ => Throws TypeError h
           end
       | _ => Throws TypeError h
       end.

End Primitives.

End JS.

(** ** The result merger *)

Module Mix.
Import JS.

Section Body.

Variable strict : bool.

(** The body of [Object.keys(src).forEach(function (name) { ... })]. *)
Definition mix_key (src dest : value) (name : string) : M unit :=
  let* s := get_prop src name in
  λ h,
    if is_array h s then
      (let* d := get_prop dest name in
       λ h,
         if is_array h d then
           (let* d := get_prop dest name in
            let* s := get_prop src name in
            let* c := concat d s in
            set_prop strict dest name c) h
         else
           (let* s := get_prop src name in
            set_prop strict dest name s) h) h
    else if is_object s then
      (let* d := get_prop dest name in
       (if truthy d then ret tt
        else let* o := alloc (CObj []) in set_prop strict dest name o) ;;;
       let* s := get_prop src name in
       let* keys := object_keys s in
       for_each keys (λ key,
         let* d := get_prop dest name in
         let* s := get_prop src name in
         let* v := get_prop s key in
         set_prop strict d key v)) h
    else
      (let* s := get_prop src name in
       set_prop strict dest name s) h.

(** [function mix(src, dest)] *)
Definition mix (src dest : value) : M unit :=
  let* names := object_keys src in
  for_each names (mix_key src dest).

End Body.

(** [o[k]] for the object at [l], read off the store. *)
Definition read (h : heap) (l : loc) (k : string) : value :=
  from_option (λ c, cell_get c k) VUndef (h !! l).

(** [src[name]] is taken by the second branch of [mix]: an object that
    is not an array, whose keys are copied. *)
Definition copied_from (h : heap) (src : loc) (name : string) : Prop :=
  is_object (read h src name) = true ∧ is_array h (read h src name) = false.

(** The references [src] holds are references to objects of the store. *)
Definition refs_bound (h : heap) (src : loc) : Prop :=
  ∀ name l, read h src name = VRef l → l < length h.

(** [src] and [dest] are two objects, and where keys are copied from
    [src[name]], the object they would be copied into, [dest[name]], is
    neither [src] nor [dest]. *)
Definition apart (h : heap) (src dest : loc) : Prop :=
  src ≠ dest ∧
  ∀ name, copied_from h src name →
    read h dest name ≠ VRef src ∧ read h dest name ≠ VRef dest.

(** The names of [src] are read from the plain object [dest], with the
    properties [pd], and bound in it as its own: where the keys of
    [src[name]] are copied, [dest[name]] is read, and reads a property of
    [dest] itself or [undefined]; elsewhere [dest[name]] is assigned, and
    not through the accessor [__proto__]. *)
Definition plain_names (csrc : cell) (pd : props) (h : heap) : Prop :=
  Forall (λ name,
    if is_object (cell_get csrc name) && negb (is_array h (cell_get csrc name))
    then reads_own name pd else binds_own name pd) (own_keys csrc).

(** No plain object that [src] holds has a key [__proto__] to copy. *)
Definition plain_keys (csrc : cell) (h : heap) : Prop :=
  Forall (λ name,
    match cell_get csrc name with
    | VRef ls =>
        match h !! ls with
        | Some (CObj ps) => "__proto__" ∉ own_keys (CObj ps)
        | _ => True
        end
    | _ => True
    end) (own_keys csrc).

#[global] Instance plain_names_dec csrc pd h : Decision (plain_names csrc pd h).
Proof.
  apply Forall_dec. intros name. destruct (_ && _); apply _.
Defined.

#[global] Instance plain_keys_dec csrc h : Decision (plain_keys csrc h).
Proof.
  apply Forall_dec. intros name.
  destruct (cell_get csrc name) as [| | | | |ls]; try apply _.
  destruct (h !! ls) as [[ps|es ps]|]; apply _.
Defined.

(** What [mix(src, dest)] keeps true of the store while it runs from
    [h0]: nothing is removed; [src] is as it was; arrays stay arrays; an
    entry of [dest] that keys are copied into is neither [src] nor
    [dest], and is the entry [dest] had or an object created since; and
    only [dest] and those entries are written. *)
Definition frame_inv (h0 : heap) (src dest : loc) (h : heap) : Prop :=
  length h0 ≤ length h ∧
  h !! src = h0 !! src ∧
  (∀ l, l < length h0 → is_array h (VRef l) = is_array h0 (VRef l)) ∧
  (∀ name, copied_from h0 src name →
     read h dest name ≠ VRef src ∧ read h dest name ≠ VRef dest) ∧
  (∀ name l, copied_from h0 src name → read h dest name = VRef l →
     read h0 dest name = VRef l ∨ length h0 ≤ l) ∧
  (∀ l, l < length h0 → l ≠ dest →
     (∀ name, copied_from h0 src name → read h0 dest name ≠ VRef l) →
     h !! l = h0 !! l).

(** The properties [to] after the keys [keys] of [from] were assigned to
    it in turn: what the inner loop of [mix] leaves in [dest[name]]. *)
Definition copy_keys (from : cell) (keys : list string) (to : props) : props :=
  foldl (λ acc key, props_set key (cell_get from key) acc) to keys.

(** [dest[name]] already holds what [mix] would put there for [name]. *)
Definition merged (strict : bool) (csrc : cell) (pd : props) (h : heap)
  (name : string) : Prop :=
  match cell_get csrc name with
  | VRef ls =>
      ∃ ps, h !! ls = Some (CObj ps) ∧
        ((∃ lt pt,
            props_get name pd = Some (VRef lt) ∧ h !! lt = Some (CObj pt) ∧
            ∀ key, key ∈ own_keys (CObj ps) →
              props_get key pt = Some (cell_get (CObj ps) key)) ∨
         (is_object (default VUndef (props_get name pd)) = false ∧
          truthy (default VUndef (props_get name pd)) = true ∧
          strict && negb (bool_decide (own_keys (CObj ps) = [])) = false))
  | v => props_get name pd = Some v
  end.

(** The object [lt] that [dest] holds under [name] is written by [mix]
    for [name] only and read for no name: it is a plain object, is not
    [src] or an object [src] holds, and is not held under another name
    that [mix] copies keys for. *)
Definition private (src : loc) (csrc : cell) (pd : props) (h : heap)
  (name : string) (lt : loc) : Prop :=
  lt ≠ src ∧ (∃ pt, h !! lt = Some (CObj pt)) ∧
  ∀ name' ls', cell_get csrc name' = VRef ls' →
    lt ≠ ls' ∧ (name' ≠ name → props_get name' pd ≠ Some (VRef lt)).

(** [src], with properties [csrc], and the plain object [dest], with
    properties [pd], are two objects; the objects [src] holds are plain
    objects other than [dest]; and where [src[name]] is an object and
    [dest[name]] holds one, that one is not [dest], and either holds the
    keys and values of [src[name]] already (it may be [src[name]]
    itself), so that copying them changes nothing, or is private to
    [dest[name]]. *)
Definition separate (strict : bool) (src dest : loc) (csrc : cell)
  (pd : props) (h : heap) : Prop :=
  src ≠ dest ∧ h !! src = Some csrc ∧ h !! dest = Some (CObj pd) ∧
  (∀ name ls, cell_get csrc name = VRef ls →
     ls ≠ dest ∧ ∃ ps, h !! ls = Some (CObj ps)) ∧
  (∀ name ls lt,
     cell_get csrc name = VRef ls → props_get name pd = Some (VRef lt) →
     lt ≠ dest ∧
     (merged strict csrc pd h name ∨ private src csrc pd h name lt)).

(** A detector result at 0 and a report under construction at 3. *)
Definition frame_store : heap :=
  [CObj [("certs", VRef 1); ("issues", VRef 2); ("detectVersion", VStr "4.0")];
   CObj [("keychains", VNull)];
   CArr [] [];
   CObj [("issues", VRef 4)];
   CArr [Some (VStr "no xcode")] []].

(** [{a: [1, 2]}] at 0, [{a: [3]}] at 2 and an empty destination at 4. *)
Definition concat_store : heap :=
  [CObj [("a", VRef 1)]; CArr [Some (VNum 1); Some (VNum 2)] [];
   CObj [("a", VRef 3)]; CArr [Some (VNum 3)] []; CObj []].

(** The same once [{a: [1, 2]}] has been merged into the destination. *)
Definition concat_store_mid : heap :=
  [CObj [("a", VRef 1)]; CArr [Some (VNum 1); Some (VNum 2)] [];
   CObj [("a", VRef 3)]; CArr [Some (VNum 3)] []; CObj [("a", VRef 1)]].

(** [{a: [3]}] at 0 and the destination [{a: "x"}] at 2. *)
Definition replace_store : heap :=
  [CObj [("a", VRef 1)]; CArr [Some (VNum 3)] []; CObj [("a", VStr "x")]].

(** [src = {a: {k: 1}}] at 0 and [dest = {a: "x"}] at 2. *)
Definition primitive_store : heap :=
  [CObj [("a", VRef 1)]; CObj [("k", VNum 1)]; CObj [("a", VStr "x")]].

(** [src = {a: {a: 5, b: 6}}] at 0 and [dest = {a: dest}] at 2. *)
Definition cyclic_store : heap :=
  [CObj [("a", VRef 1)]; CObj [("a", VNum 5); ("b", VNum 6)];
   CObj [("a", VRef 2)]].

(** [src = {a: {2: 7, length: 1}}] at 0 and [dest = {a: [1, 2]}] at 2. *)
Definition array_store : heap :=
  [CObj [("a", VRef 1)]; CObj [("2", VNum 7); ("length", VNum 1)];
   CObj [("a", VRef 3)]; CArr [Some (VNum 1); Some (VNum 2)] []].

(** [src = {a: {k: 1, n: {}}, v: null}] at 0 and [dest = {a: {j: 2, k: 0}}]
    at 3. *)
Definition object_store : heap :=
  [CObj [("a", VRef 1); ("v", VNull)]; CObj [("k", VNum 1); ("n", VRef 2)];
   CObj []; CObj [("a", VRef 4)]; CObj [("j", VNum 2); ("k", VNum 0)]].

(** [o = { a: [1] }], for [mix(o, o)]. *)
Definition self_store : heap :=
  [CObj [("a", VRef 1)]; CArr [Some (VNum 1)] []].

(** Two detector results, [{m: A}] at 0 and the array [A] itself at 1,
    with [A.m = {k: 1}], and the empty report at 3. *)
Definition handed_on_store : heap :=
  [CObj [("m", VRef 1)]; CArr [] [("m", VRef 2)]; CObj [("k", VNum 1)];
   CObj []].

(** [src = {m: M, n: N}] at 0 with [M = {n: src}] and [N = {k: 1}], and
    [dest = {m: dest}] at 3. *)
Definition knot_store : heap :=
  [CObj [("m", VRef 1); ("n", VRef 2)]; CObj [("n", VRef 0)];
   CObj [("k", VNum 1)]; CObj [("m", VRef 3)]].

(** [src = { m: { k: 1 } }] at 0 and [dest = { m: src }] at 2. *)
Definition nested_store : heap :=
  [CObj [("m", VRef 1)]; CObj [("k", VNum 1)]; CObj [("m", VRef 0)]].

(** Two detector results, [{m: A}] at 0 and the array [A] itself at 1,
    with [A.m = {k: 1}]. *)
Definition relay_results : heap :=
  [CObj [("m", VRef 1)]; CArr [] [("m", VRef 2)]; CObj [("k", VNum 1)]].

(** The same with the report [{ detectVersion: '4.0', issues: [] }] that
    [detect] creates, at 4. *)
Definition relay_store : heap :=
  relay_results ++
  [CArr [] []; CObj [("detectVersion", VStr "4.0"); ("issues", VRef 3)]].

(** Two detector results, [{issues: {concat: 0}}] at 0 and
    [{issues: ["no xcode"]}] at 2. *)
Definition shadowed_results : heap :=
  [CObj [("issues", VRef 1)]; CObj [("concat", VNum 0)];
   CObj [("issues", VRef 3)]; CArr [Some (VStr "no xcode")] []].

(** The same with the report that [detect] creates, at 5. *)
Definition shadowed_store : heap :=
  shadowed_results ++
  [CArr [] []; CObj [("detectVersion", VStr "4.0"); ("issues", VRef 4)]].

(** [src = {a: S, c: 1}] at 0 and [dest = {a: S}] at 2, with the same
    object [S = {x: 0}] under [a]. *)
Definition twin_store : heap :=
  [CObj [("a", VRef 1); ("c", VNum 1)]; CObj [("x", VNum 0)];
   CObj [("a", VRef 1)]].

(** [o = {a: {k: 1}, v: 2}] at 0, for [mix(o, o)]. *)
Definition same_store : heap :=
  [CObj [("a", VRef 1); ("v", VNum 2)]; CObj [("k", VNum 1)]].

End Mix.

(** ** The orchestrator *)

Module Detect.
Import JS Mix.

(** The six detectors, in the order [async.parallel] starts them. *)
Inductive detector : Type :=
  | Certificates | Devices | Environment | ProvisioningProfiles
  | Simulators | Xcodes.

#[global] Instance detector_eq_dec : EqDecision detector.
Proof. solve_decision. Defined.

Definition detectors : list detector :=
  [Certificates; Devices; Environment; ProvisioningProfiles; Simulators;
   Xcodes].

(** What a run does that its caller or the detectors can see, in order. *)
Inductive event : Type :=
  | Invoke (d : detector) (options : value)
      (** [certs.detect(options, ...)] and its five siblings *)
  | Emit (name : string) (payload : value)
      (** [emitter.emit(name, payload)] *)
  | Callback (err : value) (info : value)
      (** [callback(err)] leaves [info] undefined *)
  | AssignCache (v : value)
      (** [cache = results] *)
  | Uncaught (d : detector)
      (** an exception that escapes into the detector that called back *).

#[global] Instance event_eq_dec : EqDecision event.
Proof. solve_decision. Defined.

(** The store, the module-level [var cache], and the trace so far. *)
Record state : Type := State {
  st_heap : heap;
  st_cache : value;
  st_trace : list event
}.

(** One detector calling back: [function (err, result)]. *)
Record completion : Type := Completion {
  c_from : detector;
  c_err : value;
  c_result : value
}.

(** [async.parallel(tasks, final)] while it runs: the tasks whose
    callback has been called, how many are still counted as running, and
    whether [final] has been called, which happens once at most. *)
Record pass : Type := Pass {
  p_results : value;
  p_called : list detector;
  p_running : nat;
  p_final : bool
}.

Definition log (e : list event) (st : state) : state :=
  State (st_heap st) (st_cache st) (st_trace st ++ e).

(** The last argument of [async.parallel]: [function (err) { ... }]. *)
Definition final (err results : value) (st : state) : state :=
  if truthy err then
    log [Emit "error" err; Callback err VUndef] st
  else
    log [AssignCache results; Emit "detected" results; Callback VNull results]
      (State (st_heap st) results (st_trace st)).

(** The callback [async] hands to a task, [done(err)]: a second call for
    the same task throws; an error goes to [final] at once; otherwise
    [final(null)] is called when no task is left running. *)
Definition done (d : detector) (err : value) (p : pass) (st : state)
  : pass * state :=
  if bool_decide (d ∈ p_called p) then (p, log [Uncaught d] st)
  else
    let running := pred (p_running p) in
    let fire := truthy err || bool_decide (running = 0) in
    let p' := Pass (p_results p) (d :: p_called p) running
                (p_final p || fire) in
    if fire && negb (p_final p) then (p', final err (p_results p) st)
    else (p', st).

Section Run.

Variable strict : bool.

(** [function (err, result) { err || mix(result, results); done(err); }] *)
Definition on_completion (c : completion) (ps : pass * state)
  : pass * state :=
  let '(p, st) := ps in
  if truthy (c_err c) then done (c_from c) (c_err c) p st
  else
    match mix strict (c_result c) (p_results p) (st_heap st) with
    | Done _ h =>
        done (c_from c) (c_err c) p (State h (st_cache st) (st_trace st))
    | Throws _ h =>
        (p, log [Uncaught (c_from c)] (State h (st_cache st) (st_trace st)))
    end.

(** The calls back of one pass, in the order they arrive. *)
Definition run_pass (sched : list completion) (ps : pass * state)
  : pass * state :=
  foldl (λ ps c, on_completion c ps) ps sched.

(** [options.bypassCache], read as a condition. *)
Definition bypass_cache (options : value) (h : heap) : bool :=
  match get_prop options "bypassCache" h with
  | Done v _ => truthy v
  | Throws _ _ => false
  end.

(** [{ detectVersion: '4.0', issues: [] }] *)
Definition new_results : M value :=
  let* issues := alloc (CArr [] []) in
  alloc (CObj [("detectVersion", VStr "4.0"); ("issues", issues)]).

(** [cache && !options.bypassCache] *)
Definition cached (options : value) (st : state) : bool :=
  truthy (st_cache st) && negb (bypass_cache options (st_heap st)).

(** Modelled from the spec: [magik] of [lib/utilities] is not under
    [src/]. Following section 4.2, where the options go in and the report
    or the error comes out through the callback, it runs the body with the
    caller's options; the emitter and the callback it hands to the body
    are the [Emit] and [Callback] events of the trace. *)
Definition magik (options : value) (body : value → state → state)
  : state → state :=
  body options.

(** [function detect(options, callback)]. The detectors are
    asynchronous, so all six are started before the first of them calls
    back; [sched] lists the calls back in the order they arrive. *)
Definition detect (options : value) (sched : list completion)
  : state → state :=
  magik options (λ options st,
    if cached options st then
      log [Emit "detected" (st_cache st); Callback VNull (st_cache st)] st
    else
      match new_results (st_heap st) with
      | Done results h =>
          let st1 := log ((λ d, Invoke d options) <$> detectors)
                       (State h (st_cache st) (st_trace st)) in
          (run_pass sched (Pass results [] (length detectors) false, st1)).2
      | Throws _ _ => st
      end).

(** The assignments to [cache] a trace shows. *)
Definition assignments (t : list event) : list value :=
  omap (λ e, match e with AssignCache v => Some v | _ => None end) t.

(** What a call added to the trace. *)
Definition added (before after : state) : list event :=
  drop (length (st_trace before)) (st_trace after).

(** A store with the results of two detectors, and two schedules over
    it: one in which the second detector fails, one in which all six
    succeed. *)
Definition store1 : heap :=
  [CObj [("certs", VRef 1)]; CObj [("keychains", VNull)];
   CObj [("devices", VRef 3)]; CArr [Some (VStr "D1")] []; CObj []].

Definition start1 : state := State store1 VUndef [].

Definition failing_schedule : list completion :=
  [Completion Certificates VNull (VRef 0);
   Completion Devices (VStr "xcode-select failed") VUndef;
   Completion Environment VNull (VRef 4)].

Definition passing_schedule : list completion :=
  [Completion Devices VNull (VRef 2); Completion Certificates VNull (VRef 0);
   Completion Xcodes VNull (VRef 4); Completion Simulators VNull (VRef 4);
   Completion Environment VNull (VRef 4);
   Completion ProvisioningProfiles VNull (VRef 4)].

End Run.

(** What [final] adds to the trace on either branch. *)
Definition error_block (e : value) : list event :=
  [Emit "error" e; Callback e VUndef].

Definition success_block (r : value) : list event :=
  [AssignCache r; Emit "detected" r; Callback VNull r].

(** The events of an exception escaping into a detector. *)
Definition uncaught (e : event) : Prop :=
  match e with Uncaught _ => True | _ => False end.

(** The detectors a trace shows being started. *)
Definition invocations (t : list event) : list detector :=
  omap (λ e, match e with Invoke d _ => Some d | _ => None end) t.

(** The calls of the caller's callback a trace shows. *)
Definition callbacks (t : list event) : list (value * value) :=
  omap (λ e, match e with Callback e i => Some (e, i) | _ => None end) t.

End Detect.

(** ** The device / certificate / provisioning profile resolver *)

Module Combos.
Import JS.

(** [deviceResults.devices[i]]: only [udid] is read. *)
Record device : Type := Device { udid : string }.

(** An entry of [certResults.certs.keychains[keychain][type]]. *)
Record cert : Type := Cert { name : string; pem : string }.

(** A provisioning profile as [provisioning.find] returns it; [devices]
    may be missing, which the code tests for. *)
Record profile : Type := Profile {
  uuid : string;
  devices : option (list string);
  certs : list string
}.

(** [certResults.certs.keychains]: keychain, then type, then the
    certificates, each level in the order [Object.keys] lists it. *)
Definition keychains := list (string * list (string * list cert)).

(** The argument of [provisioning.find]. *)
Record query : Type := Query {
  q_appId : value;
  q_certs : list cert;
  q_devicesUDIDs : list string
}.

(** The collaborators: what the two detectors call back with, and
    [provisioning.find]. *)
Record env : Type := Env {
  device_detect : list device;
  certs_detect : keychains;
  provisioning_find : query → list profile
}.

Inductive call : Type :=
  | DeviceDetect
  | CertsDetect
  | ProvisioningFind (q : query).

(** An argument of the function as the caller passes it. *)
Inductive arg : Type :=
  | AFunction (f : nat)
  | AData (v : value).

(** [options] after the first lines: the caller's value, or [{}]. *)
Inductive options : Type :=
  | EmptyObject
  | Given (v : value).

(** [callback] after the first lines: the caller's function, or
    [function () {}]. *)
Inductive callback : Type :=
  | UserFunction (f : nat)
  | Noop.

(** What the callback is called with: [new Error(message)], or [null] and
    the combos, each the object literal the code pushes. *)
Inductive result : Type :=
  | Failure (message : string)
  | Success (combos : list props).

Record run : Type := Run {
  r_calls : list call;
  r_callback : callback;
  r_result : result
}.

(** Lines 179-185. *)
Definition normalize (opts cb : arg) : options * callback :=
  let '(opts, cb) :=
    match opts with
    | AFunction f => (EmptyObject, AFunction f)
    | AData v => if negb (truthy v) then (EmptyObject, cb) else (Given v, cb)
    end in
  (opts, match cb with AFunction f => UserFunction f | AData _ => Noop end).

(** [options.appId] *)
Definition app_id (h : heap) (o : options) : value :=
  match o with
  | EmptyObject => VUndef
  | Given v =>
      match get_prop v "appId" h with Done a _ => a | Throws _ _ => VUndef end
  end.

(** The flattening loop over keychains and types. *)
Definition flatten_certs (ks : keychains) : list cert :=
  foldl (λ acc kc, foldl (λ acc ty, acc ++ ty.2) acc kc.2) [] ks.

(** The header line and its line feed. *)
Definition pem_header : string :=
  ("-----BEGIN CERTIFICATE-----" +:+ String (ascii_of_nat 10) EmptyString)%string.

(** What is left of [s] after [p], when [s] starts with [p]. *)
Fixpoint strip_prefix (p s : string) : option string :=
  match p, s with
  | EmptyString, _ => Some s
  | String a p', String b s' =>
      if decide (a = b) then strip_prefix p' s' else None
  | String _ _, EmptyString => None
  end.

(** [s.replace(/^-----BEGIN CERTIFICATE-----\n/, '')] *)
Definition strip_header (s : string) : string :=
  default s (strip_prefix pem_header s).

(** [cert.pem.replace(...).substring(0, 60)] *)
Definition cert_prefix (c : cert) : string :=
  String.substring 0 60 (strip_header (pem c)).

(** [pcert.indexOf(prefix) === 0] *)
Definition starts_with (pcert prefix : string) : bool :=
  bool_decide (String.index 0 prefix pcert = Some 0).

(** [profile.devices && profile.devices.indexOf(device.udid) !== -1] *)
Definition authorizes (p : profile) (d : device) : bool :=
  match devices p with
  | Some ds => bool_decide (udid d ∈ ds)
  | None => false
  end.

Definition combo (p : profile) (c : cert) (d : device) : props :=
  [("ppUUID", VStr (uuid p)); ("certName", VStr (name c));
   ("deviceUDID", VStr (udid d))].

(** The four nested [forEach] loops, pushing onto [combos]. *)
Definition match_combos (profiles : list profile) (ds : list device)
  (cs : list cert) : list props :=
  foldl (λ combos p,
    foldl (λ combos d,
      if authorizes p d then
        foldl (λ combos c,
          let prefix := cert_prefix c in
          foldl (λ combos pcert,
            if starts_with pcert prefix then combos ++ [combo p c d]
            else combos) combos (certs p)) combos cs
      else combos) combos ds) [] profiles.

(** [findValidDeviceCertProfileCombos(options, callback)] *)
Definition findValidDeviceCertProfileCombos (e : env) (h : heap)
  (opts cb : arg) : run :=
  let '(options, callback) := normalize opts cb in
  let ds := device_detect e in
  if bool_decide (length ds = 0) then
    Run [DeviceDetect] callback (Failure "No iOS devices connected")
  else
    let cs := flatten_certs (certs_detect e) in
    if bool_decide (length cs = 0) then
      Run [DeviceDetect; CertsDetect] callback (Failure "No iOS certificates")
    else
      let q := Query (app_id h options) cs (udid <$> ds) in
      let profiles := provisioning_find e q in
      if bool_decide (length profiles = 0) then
        Run [DeviceDetect; CertsDetect; ProvisioningFind q] callback
          (Failure "No provisioning profiles found")
      else
        Run [DeviceDetect; CertsDetect; ProvisioningFind q] callback
          (Success (match_combos profiles ds cs)).

(** The combos one (profile, device, certificate) triple contributes: one
    per embedded fingerprint that starts with the certificate's prefix. *)
Definition triple_combos (p : profile) (d : device) (c : cert) : list props :=
  pcert ← certs p;
  if starts_with pcert (cert_prefix c) then [combo p c d] else [].

(** The nested iteration written as a comprehension: profiles, then
    devices, then certificates, then fingerprints. *)
Definition combos_in_order (profiles : list profile) (ds : list device)
  (cs : list cert) : list props :=
  p ← profiles; d ← ds;
  if authorizes p d then c ← cs; triple_combos p d c else [].

(** What [provisioning.find] is asked, and what it answers. *)
Definition find_query (e : env) (h : heap) (opts cb : arg) : query :=
  Query (app_id h (normalize opts cb).1) (flatten_certs (certs_detect e))
    (udid <$> device_detect e).

Definition found (e : env) (h : heap) (opts cb : arg) : list profile :=
  provisioning_find e (find_query e h opts cb).

(** The example of the specification: one device, one certificate whose
    body starts with sixty known characters, one profile that lists the
    device and embeds those sixty characters followed by [XYZ]. *)
Definition body60 : string :=
  "ABCDEFGHIJKLMNOPQRSTUVWXYZabcdefghijklmnopqrstuvwxyz01234567".

Definition d1 : device := Device "D1".
Definition c1 : cert :=
  Cert "Dev1" (pem_header +:+ body60 +:+ "89+/MIIC")%string.
Definition p1 : profile :=
  Profile "P1" (Some ["D1"]) [(body60 +:+ "XYZ")%string].

Definition env1 : env :=
  Env [d1] [("login.keychain", [("developer", [c1])])] (λ _, [p1]).

(** The three ways of having nothing to match. *)
Definition env_no_devices : env :=
  Env [] [("login.keychain", [("developer", [c1])])] (λ _, [p1]).
Definition env_no_certs : env :=
  Env [d1] [("login.keychain", [("developer", []); ("distribution", [])]);
            ("System.keychain", [])] (λ _, [p1]).
Definition env_no_profiles : env :=
  Env [d1] [("login.keychain", [("developer", [c1])])] (λ _, []).

(** The same, with the profile embedding the fingerprint twice. *)
Definition p2 : profile :=
  Profile "P2" (Some ["D1"])
    [(body60 +:+ "XYZ")%string; (body60 +:+ "XYZ")%string].

End Combos.

(** ** A whole call of [mix], arrays included *)

Module MixSpec.
Import JS Mix.

(** [l] is the object [dest[name]] that the keys of the plain object
    [src[name]] are copied into. *)
Definition target (csrc : cell) (pd : props) (h : heap) (name : string)
  (l : loc) : Prop :=
  ∃ ls ps, cell_get csrc name = VRef ls ∧ h !! ls = Some (CObj ps) ∧
    props_get name pd = Some (VRef l).

(** The stores [mix(src, dest)] is written for: [src], with properties
    [csrc] under distinct names, and the plain object [dest], with
    properties [pd], are two objects; every reference they hold is to an
    object of the store; [src] does not hold [dest]; and an object that
    keys are copied into is a plain object, is not [src], [dest] or an
    object [src] holds, and is copied into for one name only. *)
Definition tidy (src dest : loc) (csrc : cell) (pd : props) (h : heap)
  : Prop :=
  src ≠ dest ∧ h !! src = Some csrc ∧ h !! dest = Some (CObj pd) ∧
  NoDup (own_keys csrc) ∧
  (∀ name ls, cell_get csrc name = VRef ls → ls ≠ dest ∧ ls < length h) ∧
  (∀ name l, props_get name pd = Some (VRef l) → l < length h) ∧
  (∀ name lt, target csrc pd h name lt →
     lt ≠ src ∧ lt ≠ dest ∧ (∃ pt, h !! lt = Some (CObj pt)) ∧
     (∀ name' ls', cell_get csrc name' = VRef ls' → lt ≠ ls') ∧
     (∀ name', name' ≠ name → ¬ target csrc pd h name' lt)).

(** An array that [dest] holds where [src] holds one concatenates as
    arrays do. *)
Definition concat_ready (csrc : cell) (pd : props) (h : heap) : Prop :=
  ∀ name ls es ps ld ed qd,
    cell_get csrc name = VRef ls → h !! ls = Some (CArr es ps) →
    props_get name pd = Some (VRef ld) → h !! ld = Some (CArr ed qd) →
    plain_concat qd = true.

(** No property that objects inherit comes into play when [src] is
    merged into [dest]: the names of [src] are read and bound as
    properties of [dest] itself, no key to copy is [__proto__], and the
    arrays to concatenate are concatenated by [Array.prototype.concat]. *)
Definition ordinary (csrc : cell) (pd : props) (h : heap) : Prop :=
  plain_names csrc pd h ∧ plain_keys csrc h ∧ concat_ready csrc pd h.

(** What [mix] leaves under [name], told from the store [h0] it started
    in, where [dest] had the properties [pd0]; [pd] and [h] are the
    properties of [dest] and the store afterwards. An array of [src] is
    bound as it is, or a new array holds the elements [dest[name]] had
    followed by its elements; the keys of a plain object of [src] are in
    the object [dest[name]] held, or in a new object when [dest[name]]
    was falsy, and nowhere when [dest[name]] was another primitive; any
    other value is bound as it is. *)
Definition mixed_in (csrc : cell) (pd0 : props) (h0 : heap) (pd : props)
  (h : heap) (name : string) : Prop :=
  match cell_get csrc name with
  | VRef ls =>
      match h0 !! ls with
      | Some (CArr es _) =>
          match array_elems h0 (default VUndef (props_get name pd0)) with
          | Some ed =>
              ∃ l, length h0 ≤ l ∧ props_get name pd = Some (VRef l) ∧
                h !! l = Some (CArr (ed ++ es) [])
          | None => props_get name pd = Some (VRef ls)
          end
      | Some (CObj ps) =>
          match default VUndef (props_get name pd0) with
          | VRef lt =>
              ∃ pt, h0 !! lt = Some (CObj pt) ∧
                props_get name pd = Some (VRef lt) ∧
                h !! lt
                = Some (CObj (copy_keys (CObj ps) (own_keys (CObj ps)) pt))
          | d =>
              if truthy d then props_get name pd = props_get name pd0
              else
                ∃ l, length h0 ≤ l ∧ props_get name pd = Some (VRef l) ∧
                  h !! l
                  = Some (CObj (copy_keys (CObj ps) (own_keys (CObj ps)) []))
          end
      | None => True
      end
  | v => props_get name pd = Some v
  end.

(** The only way [mix(src, dest)] throws from such a store: in strict
    mode, at a name under which [src] holds a plain object with a key to
    copy and [dest] a truthy primitive. *)
Definition thrown_at (csrc : cell) (pd0 : props) (h0 : heap) (name : string)
  : Prop :=
  ∃ ls ps, cell_get csrc name = VRef ls ∧ h0 !! ls = Some (CObj ps) ∧
    own_keys (CObj ps) ≠ [] ∧
    is_object (default VUndef (props_get name pd0)) = false ∧
    truthy (default VUndef (props_get name pd0)) = true.

(** What the body of the loop does for one name, from the store [h]
    where [dest] has the properties [pd] to the store [h'] where it has
    the properties [pd']: nothing is removed, only [dest[name]] is
    rebound, and apart from [dest] only the object copied into is
    written. *)
Definition effect (dest : loc) (csrc : cell) (pd0 : props) (h0 : heap)
  (name : string) (pd : props) (h : heap) (pd' : props) (h' : heap) : Prop :=
  length h ≤ length h' ∧
  h' !! dest = Some (CObj pd') ∧
  (∀ m, m ≠ name → props_get m pd' = props_get m pd) ∧
  (∀ l, l < length h → l ≠ dest → ¬ target csrc pd0 h0 name l →
     h' !! l = h !! l) ∧
  (∀ l, l < length h → array_elems h' (VRef l) = array_elems h (VRef l)) ∧
  mixed_in csrc pd0 h0 pd' h' name.

(** What holds of the store while the loop of [mix] runs, [D] being the
    names already done. *)
Definition loop_inv (dest : loc) (csrc : cell) (pd0 : props) (h0 : heap)
  (D : list string) (pd : props) (h : heap) : Prop :=
  length h0 ≤ length h ∧
  h !! dest = Some (CObj pd) ∧
  (∀ l, l < length h0 → l ≠ dest → (∀ name, ¬ target csrc pd0 h0 name l) →
     h !! l = h0 !! l) ∧
  (∀ l, l < length h0 → array_elems h (VRef l) = array_elems h0 (VRef l)) ∧
  (∀ name, name ∉ D →
     props_get name pd = props_get name pd0 ∧
     ∀ l, target csrc pd0 h0 name l → h !! l = h0 !! l) ∧
  (∀ name, name ∈ D → mixed_in csrc pd0 h0 pd h name).

(** An object as it is later on: a plain object is still one and has
    every key it had; an array is still one. *)
Definition keeps (c c' : cell) : Prop :=
  match c with
  | CObj ps =>
      ∃ ps', c' = CObj ps' ∧
        ∀ k, is_Some (props_get k ps) → is_Some (props_get k ps')
  | CArr _ _ => is_arr c' = true
  end.

(** From the store [h] to the store [h'] nothing is taken away. *)
Definition grows (h h' : heap) : Prop :=
  ∀ l c, h !! l = Some c → ∃ c', h' !! l = Some c' ∧ keeps c c'.

(** A computation that takes nothing away, however it ends. *)
Definition steady {A} (m : M A) : Prop :=
  ∀ h, grows h (final_heap (m h)).

(** A detector result at 0, with two arrays, a plain object and a
    string, and the report at 4 once another result has been merged. *)
Definition report_store : heap :=
  [CObj [("issues", VRef 1); ("certs", VRef 2); ("devices", VRef 3);
         ("detectVersion", VStr "5.0")];
   CArr [Some (VStr "no wwdr")] [];
   CObj [("wwdr", VBool false)];
   CArr [Some (VStr "D1")] [];
   CObj [("detectVersion", VStr "4.0"); ("issues", VRef 5);
         ("certs", VRef 6); ("xcode", VRef 7)];
   CArr [Some (VStr "no xcode")] [];
   CObj [("keychains", VNull)];
   CObj []].

End MixSpec.

(** ** What a pass of the orchestrator is told by *)

Module DetectSpec.
Import JS Detect.

(** Among the calls back [l], the detector [d] called back without an
    error and with a result that is neither [undefined] nor [null]. *)
Definition handed_in (d : detector) (l : list completion) : Prop :=
  ∃ c, c ∈ l ∧ c_from c = d ∧ truthy (c_err c) = false ∧
    c_result c ≠ VUndef ∧ c_result c ≠ VNull.

(** The report a call builds from the store [h]: the object literal is
    created after its [issues] array. *)
Definition new_report (h : heap) : value := VRef (S (length h)).

(** All six detectors call back without an error, but the second hands
    in no result. *)
Definition empty_handed_schedule : list completion :=
  [Completion Devices VNull (VRef 2); Completion Certificates VNull VUndef;
   Completion Xcodes VNull (VRef 4); Completion Simulators VNull (VRef 4);
   Completion Environment VNull (VRef 4);
   Completion ProvisioningProfiles VNull (VRef 4)].

End DetectSpec.

(** ** Certificates and profiles at the edges of the resolver *)

Module CombosSpec.
Import JS Combos.

(** A second certificate whose body starts with the same sixty
    characters as that of [c1] and goes on differently. *)
Definition c1_twin : cert :=
  Cert "Twin" (pem_header +:+ body60 +:+ "00/+DIFFERENT")%string.

(** A certificate whose PEM text is the header line alone. *)
Definition c_blank : cert := Cert "Blank" pem_header.

(** A profile that comes without a list of devices. *)
Definition p_open : profile := Profile "P3" None [body60].

Definition env_open : env :=
  Env [d1] [("login.keychain", [("developer", [c1])])] (λ _, [p_open]).

(** One device and one certificate, with two profiles that list the
    device: [p2], which embeds the matching fingerprint twice, and then
    [p1]. *)
Definition env_twice : env :=
  Env [d1] [("login.keychain", [("developer", [c1])])] (λ _, [p2; p1]).

End CombosSpec.

(** ** The Android detection, lines 34 to 54 *)

Module Android.
Import JS.

(** The five detectors, in the order of the array handed to
    [Promise.all]. *)
Inductive detector : Type := SDK | NDK | Genymotion | Device | Emulator.

#[global] Instance detector_eq_dec : EqDecision detector.
Proof. solve_decision. Defined.

Definition detectors : list detector := [SDK; NDK; Genymotion; Device; Emulator].

(** The place of a detector's promise in that array. *)
Definition index (d : detector) : nat :=
  match d with
  | SDK => 0 | NDK => 1 | Genymotion => 2 | Device => 3 | Emulator => 4
  end.

(** The key of the result that the value of a detector is bound to. *)
Definition field (d : detector) : string :=
  match d with
  | SDK => "sdk" | NDK => "ndk" | Genymotion => "genymotion"
  | Device => "devices" | Emulator => "emulators"
  end.

(** How the promise of a detector settles. *)
Inductive settlement : Type :=
  | Fulfilled (v : value)
  | Rejected (e : value).

(** What a promise is rejected with: what a detector rejected with, or
    an exception thrown in a [then] callback. *)
Inductive reason : Type :=
  | Reason (e : value)
  | Thrown (e : error).

Inductive promise (A : Type) : Type :=
  | Pending
  | Resolved (a : A)
  | Failed (r : reason).
Arguments Pending {A}.
Arguments Resolved {A} a.
Arguments Failed {A} r.

(** A promise settles once: settling it again changes nothing. *)
Definition settle {A} (p new : promise A) : promise A :=
  match p with Pending => new | _ => p end.

(** [Promise.all(promises)] while it waits: the values by place, the
    promises that have settled, how many values are missing, and the
    promise it returned. *)
Record gathering : Type := Gathering {
  g_values : list (option value);
  g_settled : list detector;
  g_remaining : nat;
  g_all : promise (list (option value))
}.

(** One promise of the array settles: a value takes its place and the
    last one resolves the whole; a rejection rejects the whole. A promise
    that has settled does not settle again. *)
Definition on_settle (g : gathering) (ev : detector * settlement)
  : gathering :=
  if bool_decide (ev.1 ∈ g_settled g) then g
  else
    match ev.2 with
    | Fulfilled v =>
        let values := <[index ev.1 := Some v]> (g_values g) in
        let remaining := pred (g_remaining g) in
        Gathering values (ev.1 :: g_settled g) remaining
          (if bool_decide (remaining = 0)
           then settle (g_all g) (Resolved values) else g_all g)
    | Rejected e =>
        Gathering (g_values g) (ev.1 :: g_settled g) (g_remaining g)
          (settle (g_all g) (Failed (Reason e)))
    end.

(** [Promise.all] of the five promises, which settle as [sched] lists, in
    that order. *)
Definition promise_all (sched : list (detector * settlement))
  : promise (list (option value)) :=
  g_all (foldl on_settle
           (Gathering (replicate (length detectors) None) []
              (length detectors) Pending) sched).

(** [p.then(f)], for a callback that reads the store and may throw. *)
Definition and_then {A B} (p : promise A) (f : A → M B) (h : heap)
  : promise B :=
  match p with
  | Pending => Pending
  | Failed r => Failed r
  | Resolved a =>
      match f a h with
      | Done b _ => Resolved b
      | Throws e _ => Failed (Thrown e)
      end
  end.

(** What the callback takes from outside: [util.expandPath] and
    [process.env.ANDROID_HOME]. *)
Record world : Type := World {
  expand_path : value → value;
  android_home : value
}.

(** [a || b] *)
Definition or_else (a b : value) : value := if truthy a then a else b.

(** An element of the array the callback destructures. *)
Definition element (vs : list (option value)) (d : detector) : value :=
  default VUndef (mjoin (vs !! index d)).

(** The callback of [then]: the object literal it returns. *)
Definition result_of (w : world) (opts : value) (vs : list (option value))
  : M props :=
  let* path := get_prop opts "androidHomePath" in
  ret [("home",
        expand_path w
          (or_else (or_else path (android_home w)) (VStr "~/.android")));
       ("sdk", element vs SDK); ("ndk", element vs NDK);
       ("genymotion", element vs Genymotion); ("devices", element vs Device);
       ("emulators", element vs Emulator)].

(** A call: the options after the default, the detectors called and
    what each was called with, and the promise returned. *)
Record run : Type := Run {
  r_opts : value;
  r_calls : list (detector * value);
  r_promise : promise props
}.

(** [export function detect(opts = {})]. The default stands in for
    [undefined] only. The detectors are taken to leave [opts] as it is. *)
Definition detect (w : world) (arg : value)
  (sched : list (detector * settlement)) (h : heap) : run :=
  let '(opts, h1) :=
    match arg with
    | VUndef => (VRef (length h), h ++ [CObj []])
    | _ => (arg, h)
    end in
  Run opts ((λ d, (d, opts)) <$> detectors)
    (and_then (promise_all sched) (result_of w opts) h1).

(** How the promise of [d] settled, if it did. *)
Fixpoint first_of (sched : list (detector * settlement)) (d : detector)
  : option settlement :=
  match sched with
  | [] => None
  | (d', s) :: r => if decide (d' = d) then Some s else first_of r d
  end.

(** What holds of [Promise.all] once the settlements [seen] have
    arrived. *)
Definition gathered (g : gathering) (seen : list (detector * settlement))
  : Prop :=
  NoDup (g_settled g) ∧ length (g_values g) = 5 ∧
  (∀ d, d ∈ g_settled g ↔ is_Some (first_of seen d)) ∧
  match g_all g with
  | Pending =>
      g_remaining g + length (g_settled g) = 5 ∧ 0 < g_remaining g ∧
      ∀ d, d ∈ g_settled g →
        ∃ v, first_of seen d = Some (Fulfilled v) ∧
          g_values g !! index d = Some (Some v)
  | Resolved vs =>
      ∀ d, ∃ v, first_of seen d = Some (Fulfilled v) ∧
        vs !! index d = Some (Some v)
  | Failed r =>
      ∃ pre d e post,
        seen = pre ++ (d, Rejected e) :: post ∧ r = Reason e ∧
        first_of pre d = None ∧
        ∀ d' s, first_of pre d' = Some s → ∃ v, s = Fulfilled v
  end.

(** [ANDROID_HOME] is set; the second detector to settle rejects after
    the first has fulfilled, and the others fulfil later. *)
Definition world1 : world :=
  World (λ v, v) (VStr "/opt/android").

Definition rejecting_schedule : list (detector * settlement) :=
  [(Device, Fulfilled (VNum 1)); (NDK, Rejected (VStr "no ndk"));
   (SDK, Fulfilled (VNum 2)); (Emulator, Rejected (VStr "no avd"))].

(** All five fulfil, the last of the array first. *)
Definition fulfilling_schedule : list (detector * settlement) :=
  [(Emulator, Fulfilled (VNum 5)); (SDK, Fulfilled (VNum 1));
   (Device, Fulfilled (VNum 4)); (NDK, Fulfilled (VNum 2));
   (Genymotion, Fulfilled (VNum 3))].

End Android.

(** ** Objects: reading after writing *)

Module JSFacts.
Import JS.

Lemma props_get_set_eq k v ps : props_get k (props_set k v ps) = Some v.
Proof.
  induction ps as [|[k' v'] ps IH]; simpl.
  - by rewrite decide_True.
  - destruct (decide (k = k')) as [->|Hne]; simpl.
    + by rewrite decide_True.
    + by rewrite decide_False.
Qed.

Lemma props_get_set_ne k k' v ps :
  k ≠ k' → props_get k' (props_set k v ps) = props_get k' ps.
Proof.
  intros Hne. induction ps as [|[k1 v1] ps IH]; simpl.
  - by rewrite decide_False.
  - destruct (decide (k = k1)) as [->|Hne1]; simpl.
    + by rewrite !decide_False.
    + destruct (decide (k' = k1)); [done|exact IH].
Qed.

Lemma props_set_id k v ps : props_get k ps = Some v → props_set k v ps = ps.
Proof.
  induction ps as [|[k1 v1] ps IH]; simpl; [done|].
  destruct (decide (k = k1)) as [->|Hne]; [by intros [= ->]|].
  intros Hg. by rewrite IH.
Qed.

(** An index has one spelling. *)
Lemma array_index_name k i : array_index k = Some i → k = index_name i.
Proof.
  unfold array_index, index_name. destruct k as [|a k]; [done|].
  destruct (parse_digits _ _) as [n|]; [|done].
  case_decide as Hn; [|done]. intros [= <-].
  rewrite N2Nat.id. by destruct Hn as [<- _].
Qed.

Lemma array_index_inj k k' i :
  array_index k = Some i → array_index k' = Some i → k = k'.
Proof.
  intros H1%array_index_name H2%array_index_name. congruence.
Qed.

(** Writing a property leaves an array an array and a plain object a
    plain object. *)
Lemma cell_set_kind c k v c' : cell_set c k v = inr c' → is_arr c' = is_arr c.
Proof.
  destruct c as [ps|es ps]; simpl; [by intros [= <-]|].
  destruct (array_index k); [by intros [= <-]|].
  case_decide; [|by intros [= <-]].
  destruct (to_length v); [by intros [= <-]|done].
Qed.

Lemma arr_write_lookup_eq i v es : arr_write i v es !! i = Some (Some v).
Proof.
  unfold arr_write. case_decide as Hi.
  - by apply list_lookup_insert_eq.
  - rewrite lookup_app_r by lia.
    rewrite lookup_app_r; rewrite length_replicate; [|lia].
    by replace (i - length es - (i - length es)) with 0 by lia.
Qed.

Lemma arr_write_lookup_ne i j v es :
  i ≠ j → mjoin (arr_write i v es !! j) = mjoin (es !! j).
Proof.
  intros Hne. unfold arr_write. case_decide as Hi.
  - by rewrite list_lookup_insert_ne.
  - destruct (decide (j < length es)) as [Hj|Hj].
    + by rewrite lookup_app_l.
    + rewrite (lookup_ge_None_2 es j) by lia.
      rewrite lookup_app_r by lia.
      destruct (decide (j - length es < i - length es)) as [Hlt|Hge].
      * rewrite lookup_app_l by (by rewrite length_replicate).
        by rewrite lookup_replicate_2.
      * rewrite lookup_app_r by (rewrite length_replicate; lia).
        rewrite length_replicate.
        rewrite lookup_ge_None_2; [done|]. simpl. lia.
Qed.

(** After [c[k] = v], a property of [c] reads as before, or it is the
    one written and reads [v], or it does not read as an object. *)
Lemma cell_set_get c k v c' k' :
  cell_set c k v = inr c' →
  cell_get c' k' = cell_get c k' ∨
  (k' = k ∧ cell_get c' k' = v) ∨
  is_object (cell_get c' k') = false.
Proof.
  destruct c as [ps|es ps]; simpl.
  - intros [= <-]. simpl. destruct (decide (k = k')) as [->|Hne].
    + right; left. by rewrite props_get_set_eq.
    + left. by rewrite props_get_set_ne.
  - destruct (array_index k) as [i|] eqn:Ek.
    + intros [= <-]. simpl. destruct (array_index k') as [j|] eqn:Ek';
        [|case_decide; [right; by right|by left]].
      destruct (decide (i = j)) as [->|Hne].
      * right; left. split; [by eapply array_index_inj|].
        by rewrite arr_write_lookup_eq.
      * left. by rewrite arr_write_lookup_ne.
    + case_decide as Hk.
      * destruct (to_length v) as [n|]; [|done]. intros [= <-]. simpl.
        destruct (array_index k') as [j|];
          [|case_decide; [right; by right|by left]].
        destruct (decide (j < n)) as [Hj|Hj].
        -- destruct (decide (j < length es)).
           ++ left. by rewrite lookup_resize.
           ++ right; right. by rewrite lookup_resize_new by lia.
        -- right; right. by rewrite lookup_resize_old by lia.
      * intros [= <-]. simpl. destruct (array_index k') as [j|] eqn:Ek'; [by left|].
        case_decide; [by left|].
        destruct (decide (k = k')) as [->|Hne].
        -- right; left. by rewrite props_get_set_eq.
        -- left. by rewrite props_get_set_ne.
Qed.

Lemma props_get_is_Some k (ps : props) : is_Some (props_get k ps) ↔ k ∈ ps.*1.
Proof.
  induction ps as [|[k' v'] ps IH]; simpl.
  - split; [by intros [? ?]|by intros ?%not_elem_of_nil].
  - rewrite elem_of_cons. destruct (decide (k = k')) as [->|Hne].
    + split; [by left|by eexists].
    + rewrite IH. split; [by right|by intros [?|?]].
Qed.

(** [Object.keys] of a plain object lists the names of its properties. *)
Lemma elem_of_props_keys k (ps : props) : k ∈ props_keys ps ↔ k ∈ ps.*1.
Proof.
  unfold props_keys, index_keys, named_keys.
  rewrite elem_of_app, list_elem_of_fmap, list_elem_of_filter. split.
  - intros [(i & -> & Hi)|[_ ?]]; [|done].
    rewrite merge_sort_Permutation in Hi.
    apply list_elem_of_omap in Hi as (k' & Hk' & Hi).
    by rewrite <- (array_index_name _ _ Hi).
  - intros Hk. destruct (array_index k) as [i|] eqn:Ei; [left|by right].
    exists i. split; [by apply array_index_name|].
    rewrite merge_sort_Permutation. apply list_elem_of_omap. by exists k.
Qed.

Lemma elem_of_own_keys_obj k (ps : props) :
  k ∈ own_keys (CObj ps) ↔ is_Some (props_get k ps).
Proof. simpl. by rewrite elem_of_props_keys, props_get_is_Some. Qed.

(** [a.concat(b)] returns a new array, or throws a [TypeError] in the
    store as it is. *)
Lemma concat_cases a b h :
  (∃ l ea pa, a = VRef l ∧ h !! l = Some (CArr ea pa) ∧
     plain_concat pa = true ∧
     concat a b h
     = Done (VRef (length h))
         (h ++ [CArr (ea ++ default [Some b] (array_elems h b)) []])) ∨
  concat a b h = Throws TypeError h.
Proof.
  unfold concat. destruct a as [| | | | |l]; try by right.
  destruct (h !! l) as [[ps|ea pa]|] eqn:El; try by right.
  destruct (plain_concat pa) eqn:Ep; [left|by right].
  by exists l, ea, pa.
Qed.

End JSFacts.

(** ** The merger *)

Module MixFacts.
Import JS Mix JSFacts.

Lemma bind_final {A B} (P : heap → Prop) (m : M A) (k : A → M B) h :
  P (final_heap (m h)) →
  (∀ a h', P h' → m h = Done a h' → P (final_heap (k a h'))) →
  P (final_heap (bind m k h)).
Proof.
  unfold bind. intros Hm Hk. destruct (m h) as [a h'|e h']; [by apply Hk|done].
Qed.

Lemma for_each_final {A} (P : heap → Prop) (f : A → M unit) (l : list A) :
  (∀ x h, P h → P (final_heap (f x h))) →
  ∀ h, P h → P (final_heap (for_each l f h)).
Proof.
  intros Hf. induction l as [|x l IH]; intros h Hh; simpl; [done|].
  apply bind_final; [by apply Hf|].
  intros [] h' Hh' _. by apply IH.
Qed.

Lemma get_prop_ref l k h : get_prop (VRef l) k h = Done (read h l k) h.
Proof. done. Qed.

Section Frame.

Variable strict : bool.
Variables (h0 : heap) (src dest : loc).
Hypothesis src_valid : src < length h0.
Hypothesis dest_valid : dest < length h0.
Hypothesis src_refs : refs_bound h0 src.
Hypothesis src_dest : src ≠ dest.

Abbreviation inv := (frame_inv h0 src dest).

Ltac split_inv := split; [|split; [|split; [|split; [|split]]]].

(** Steps over a read [o[k]] of an object, which changes nothing. *)
Ltac step_get :=
  apply bind_final; [done|];
  let H := fresh in
  intros ? ? _ H; rewrite get_prop_ref in H; injection H as <- <-.

Lemma inv_read_src h name : inv h → read h src name = read h0 src name.
Proof. intros (_ & Hs & _). unfold read. by rewrite Hs. Qed.

Lemma inv_alloc h c : inv h → inv (h ++ [c]).
Proof.
  intros (Hlen & Hs & Hk & Hd & Ht & Hf). split_inv.
  - rewrite length_app. lia.
  - rewrite lookup_app_l by lia. done.
  - intros l Hl. rewrite <- Hk by done. simpl.
    by rewrite lookup_app_l by lia.
  - intros name Hn. unfold read. rewrite lookup_app_l by lia. by apply Hd.
  - intros name l Hn. unfold read. rewrite lookup_app_l by lia. by apply Ht.
  - intros l Hl Hld Hno. rewrite lookup_app_l by lia. by apply Hf.
Qed.

(** An assignment to a property of an object other than [src] and
    [dest]: an entry of [dest] that keys are copied into, or an object
    created since the start. *)
Lemma inv_set_other h t k v :
  inv h → t ≠ VRef src → t ≠ VRef dest →
  (∀ l, t = VRef l → l < length h0 →
     ∃ name, copied_from h0 src name ∧ read h0 dest name = VRef l) →
  inv (final_heap (set_prop strict t k v h)).
Proof.
  intros Hinv Hts Htd Hw.
  destruct t as [| | | | |l]; simpl; try by destruct strict.
  destruct (h !! l) as [c|] eqn:El; simpl; [|done].
  destruct (cell_set c k v) as [e|c'] eqn:Ec; simpl; [done|].
  destruct Hinv as (Hlen & Hs & Hk & Hd & Ht & Hf).
  assert (l ≠ src) by congruence. assert (l ≠ dest) by congruence.
  split_inv.
  - by rewrite length_insert.
  - by rewrite list_lookup_insert_ne.
  - intros l' Hl'. rewrite <- Hk by done. simpl.
    destruct (decide (l = l')) as [<-|Hne].
    + rewrite list_lookup_insert_eq by (by eapply lookup_lt_Some).
      rewrite El. simpl. by eapply cell_set_kind.
    + by rewrite list_lookup_insert_ne.
  - intros name Hn. unfold read. rewrite list_lookup_insert_ne by done.
    by apply Hd.
  - intros name l' Hn. unfold read. rewrite list_lookup_insert_ne by done.
    by apply Ht.
  - intros l' Hl' Hld Hno. destruct (decide (l = l')) as [<-|Hne].
    + destruct (Hw l eq_refl Hl') as (name & Hc & Hr).
      by destruct (Hno name Hc).
    + rewrite list_lookup_insert_ne by done. by apply Hf.
Qed.

(** An assignment [dest[k] = v]. *)
Lemma inv_set_dest h k v :
  inv h →
  (copied_from h0 src k →
   v ≠ VRef src ∧ v ≠ VRef dest ∧ ∀ l, v = VRef l → length h0 ≤ l) →
  inv (final_heap (set_prop strict (VRef dest) k v h)).
Proof.
  intros (Hlen & Hs & Hk & Hd & Ht & Hf) Hv. simpl.
  destruct (h !! dest) as [c|] eqn:El; simpl; [|done].
  destruct (cell_set c k v) as [e|c'] eqn:Ec; simpl; [done|].
  assert (∀ name, copied_from h0 src name →
            cell_get c' name ≠ VRef src ∧ cell_get c' name ≠ VRef dest) as Hd'.
  { intros name Hn. specialize (Hd name Hn). unfold read in Hd.
    rewrite El in Hd. simpl in Hd.
    destruct (cell_set_get c k v c' name Ec) as [->|[[-> ->]|Hno]];
      [done| |].
    - destruct (Hv Hn) as (? & ? & _). done.
    - split; intros Heq; by rewrite Heq in Hno. }
  split_inv.
  - by rewrite length_insert.
  - by rewrite list_lookup_insert_ne.
  - intros l' Hl'. rewrite <- Hk by done. simpl.
    destruct (decide (dest = l')) as [<-|Hne].
    + rewrite list_lookup_insert_eq by (by eapply lookup_lt_Some).
      rewrite El. simpl. by eapply cell_set_kind.
    + by rewrite list_lookup_insert_ne.
  - intros name Hn. unfold read.
    rewrite list_lookup_insert_eq by (by eapply lookup_lt_Some).
    by apply Hd'.
  - intros name l Hn. unfold read.
    rewrite list_lookup_insert_eq by (by eapply lookup_lt_Some). simpl.
    intros Hget.
    destruct (cell_set_get c k v c' name Ec) as [Heq|[[-> Heq]|Hno]].
    + apply (Ht name l Hn). unfold read. rewrite El. simpl. congruence.
    + right. destruct (Hv Hn) as (_ & _ & Hnew). apply Hnew. congruence.
    + by rewrite Hget in Hno.
  - intros l Hl Hld Hno. rewrite list_lookup_insert_ne by done. by apply Hf.
Qed.

Lemma inv_fresh h :
  inv h →
  VRef (length h) ≠ VRef src ∧ VRef (length h) ≠ VRef dest ∧
  ∀ l, VRef (length h) = VRef l → length h0 ≤ l.
Proof.
  intros (Hlen & _). split; [|split].
  - intros [= Heq]; lia.
  - intros [= Heq]; lia.
  - intros l [= <-]. done.
Qed.

(** Whether [src[name]] is an array does not change while [mix] runs. *)
Lemma inv_is_array_src h name :
  inv h → is_array h (read h0 src name) = is_array h0 (read h0 src name).
Proof.
  intros (_ & _ & Hk & _). destruct (read h0 src name) as [| | | | |l] eqn:El;
    try done.
  apply Hk. by eapply src_refs.
Qed.

(** The body of the loop over the names of [src] keeps the invariant. *)
Lemma mix_key_inv name h :
  inv h → inv (final_heap (mix_key strict (VRef src) (VRef dest) name h)).
Proof.
  intros Hi. unfold mix_key.
  step_get.
  rewrite (inv_read_src _ _ Hi), (inv_is_array_src _ _ Hi).
  destruct (is_array h0 (read h0 src name)) eqn:Ea.
  - (* an array: concatenated or assigned *)
    assert (¬ copied_from h0 src name) as Hnc by (intros [_ ?]; congruence).
    step_get.
    destruct (is_array h (read h dest name)).
    + step_get.
      step_get.
      destruct (concat_cases (read h dest name) (read h src name) h)
        as [(ld & ea & pa & _ & _ & _ & Hc)|Hc].
      * apply bind_final; [rewrite Hc; by apply inv_alloc|].
        intros c h' Hh' Heq. rewrite Hc in Heq. injection Heq as <- <-.
        apply inv_set_dest; [done|]. intros _. by apply inv_fresh.
      * unfold bind. by rewrite Hc.
    + step_get.
      by apply inv_set_dest.
  - destruct (is_object (read h0 src name)) eqn:Eo.
    + (* an object: its keys are copied *)
      assert (copied_from h0 src name) as Hc by done.
      step_get.
      apply bind_final.
      { destruct (truthy (read h dest name)); [done|].
        apply bind_final; [by apply inv_alloc|]. intros o h' Hh' [= <- <-].
        apply inv_set_dest; [done|]. intros _. by apply inv_fresh. }
      intros [] h1 Hh1 _.
      step_get.
      apply bind_final.
      { rewrite (inv_read_src _ _ Hh1).
        by destruct (read h0 src name). }
      intros keys h2 Hh2 _.
      apply for_each_final; [|done]. clear dependent h1 h2.
      intros key h1 Hh1.
      step_get.
      step_get.
      apply bind_final.
      { rewrite (inv_read_src _ _ Hh1). by destruct (read h0 src name). }
      intros v h2 Hh2 _.
      destruct Hh1 as (_ & _ & _ & Hd & Ht & _). destruct (Hd name Hc).
      apply inv_set_other; [done..|].
      intros l Hl Hlt. exists name. split; [done|].
      destruct (Ht name l Hc Hl) as [?|?]; [done|lia].
    + (* anything else: assigned *)
      step_get.
      apply inv_set_dest; [done|]. intros [Ho _]. congruence.
Qed.

Lemma inv_start : apart h0 src dest → inv h0.
Proof. intros [_ Hd]. split_inv; try done. intros name l _ ?. by left. Qed.

Lemma mix_inv :
  apart h0 src dest →
  inv (final_heap (mix strict (VRef src) (VRef dest) h0)).
Proof.
  intros Ha. unfold mix.
  apply bind_final; [by apply inv_start|]. intros names h Hh _.
  apply for_each_final; [|done]. apply mix_key_inv.
Qed.

End Frame.

(** [mix] runs the body once for each name [Object.keys(src)] lists. *)
Lemma mix_names strict h src dest csrc :
  h !! src = Some csrc →
  mix strict (VRef src) dest h
  = for_each (own_keys csrc) (mix_key strict (VRef src) dest) h.
Proof. intros Hsrc. unfold mix, bind. simpl. by rewrite Hsrc. Qed.

(** *** The inner loop, key by key *)

Section Copy.

Variable strict : bool.
Variables (src dest ls lt : loc) (name : string) (csrc cd cs : cell).
Hypothesis src_name : cell_get csrc name = VRef ls.
Hypothesis dest_name : cell_get cd name = VRef lt.

(** The loop writes the keys of [src[name]] into the object [dest[name]],
    as long as that object is neither [src], [dest] nor [src[name]]. *)
Lemma copy_loop keys : ∀ h pt,
  h !! src = Some csrc → h !! dest = Some cd → h !! ls = Some cs →
  h !! lt = Some (CObj pt) → lt ≠ src → lt ≠ dest → lt ≠ ls →
  for_each keys (λ key,
    let* d := get_prop (VRef dest) name in
    let* s := get_prop (VRef src) name in
    let* v := get_prop s key in
    set_prop strict d key v) h
  = Done tt (<[lt := CObj (copy_keys cs keys pt)]> h).
Proof.
  induction keys as [|key keys IH]; intros h pt Hsrc Hdest Hls Hlt ? ? ?.
  { simpl. by rewrite list_insert_id. }
  simpl. unfold bind at 1 2 3 4. rewrite !get_prop_ref. unfold read.
  rewrite Hdest, Hsrc. simpl. rewrite dest_name, src_name.
  rewrite get_prop_ref. unfold read. rewrite Hls. simpl. rewrite Hlt. simpl.
  rewrite (IH _ (props_set key (cell_get cs key) pt));
    rewrite ?list_lookup_insert_ne by done; try done.
  - by rewrite list_insert_insert_eq.
  - apply list_lookup_insert_eq. by eapply lookup_lt_Some.
Qed.

(** Copying an object onto itself changes nothing. *)
Lemma copy_loop_self keys : ∀ h ps,
  h !! src = Some csrc → h !! dest = Some cd → h !! ls = Some (CObj ps) →
  lt = ls → (∀ key, key ∈ keys → is_Some (props_get key ps)) →
  for_each keys (λ key,
    let* d := get_prop (VRef dest) name in
    let* s := get_prop (VRef src) name in
    let* v := get_prop s key in
    set_prop strict d key v) h
  = Done tt h.
Proof.
  induction keys as [|key keys IH]; intros h ps Hsrc Hdest Hls Heq Hkeys.
  { done. }
  simpl. unfold bind at 1 2 3 4. rewrite !get_prop_ref. unfold read.
  rewrite Hdest, Hsrc. simpl. rewrite dest_name, src_name.
  rewrite get_prop_ref. unfold read. rewrite Hls, Heq. simpl.
  rewrite Hls. simpl.
  destruct (Hkeys key) as [v Hv]; [by left|]. rewrite Hv. simpl.
  rewrite (props_set_id _ _ _ Hv), list_insert_id by done.
  apply (IH h ps); try done. intros k Hk. apply Hkeys. by right.
Qed.

(** Where the object [dest[name]] has the keys with their values
    already, the loop changes nothing, whatever that object is. *)
Lemma copy_loop_settled keys : ∀ h ps pt,
  h !! src = Some csrc → h !! dest = Some cd → h !! ls = Some (CObj ps) →
  h !! lt = Some (CObj pt) →
  (∀ key, key ∈ keys → props_get key pt = Some (cell_get (CObj ps) key)) →
  for_each keys (λ key,
    let* d := get_prop (VRef dest) name in
    let* s := get_prop (VRef src) name in
    let* v := get_prop s key in
    set_prop strict d key v) h
  = Done tt h.
Proof.
  induction keys as [|key keys IH]; intros h ps pt Hsrc Hdest Hls Hlt Hkeys.
  { done. }
  simpl. unfold bind at 1 2 3 4. rewrite !get_prop_ref. unfold read.
  rewrite Hdest, Hsrc. simpl. rewrite dest_name, src_name.
  rewrite get_prop_ref. unfold read. rewrite Hls. simpl. rewrite Hlt. simpl.
  rewrite props_set_id by (apply Hkeys; by left).
  rewrite list_insert_id by done.
  apply (IH h ps pt); try done. intros k Hk. apply Hkeys. by right.
Qed.

End Copy.

Lemma copy_keys_get from keys : ∀ to key,
  props_get key (copy_keys from keys to)
  = if decide (key ∈ keys) then Some (cell_get from key) else props_get key to.
Proof.
  unfold copy_keys.
  induction keys as [|k keys IH] using rev_ind; intros to key.
  { case_decide as H; [by apply not_elem_of_nil in H|done]. }
  rewrite foldl_app. cbn [foldl].
  destruct (decide (k = key)) as [->|Hne].
  - rewrite props_get_set_eq. case_decide as H; [done|].
    destruct H. apply elem_of_app. right. by left.
  - rewrite props_get_set_ne, IH by done.
    repeat case_decide; try done.
    + match goal with H : _ ∉ _ ++ _ |- _ => destruct H end.
      apply elem_of_app. by left.
    + match goal with H : _ ∈ _ ++ _ |- _ =>
        apply elem_of_app in H as [?|H]; [done|];
        apply list_elem_of_singleton in H; congruence end.
Qed.

Lemma copy_keys_self ps keys :
  (∀ key, key ∈ keys → is_Some (props_get key ps)) →
  copy_keys (CObj ps) keys ps = ps.
Proof.
  unfold copy_keys. induction keys as [|k keys IH]; intros Hkeys; [done|].
  simpl. destruct (Hkeys k) as [v Hv]; [by left|].
  rewrite Hv. simpl. rewrite (props_set_id _ _ _ Hv).
  apply IH. intros key Hk. apply Hkeys. by right.
Qed.

(** *** One name of [src], with a plain object as destination *)

Section Step.

Variable strict : bool.
Variables (h : heap) (src dest : loc) (name : string) (csrc : cell) (pd : props).
Hypothesis src_cell : h !! src = Some csrc.
Hypothesis dest_cell : h !! dest = Some (CObj pd).

Lemma step_scalar :
  is_object (cell_get csrc name) = false →
  mix_key strict (VRef src) (VRef dest) name h
  = Done tt (<[dest := CObj (props_set name (cell_get csrc name) pd)]> h).
Proof.
  intros Hs. unfold mix_key, bind. rewrite !get_prop_ref. unfold read.
  rewrite src_cell. simpl.
  destruct (cell_get csrc name); try done; simpl; by rewrite dest_cell.
Qed.

(** With a truthy primitive in [dest[name]], each assignment of the
    inner loop is one to a property of that primitive. *)
Lemma primitive_loop ls d keys :
  cell_get csrc name = VRef ls → cell_get (CObj pd) name = d →
  is_object d = false → truthy d = true →
  for_each keys (λ key,
    let* d := get_prop (VRef dest) name in
    let* s := get_prop (VRef src) name in
    let* v := get_prop s key in
    set_prop strict d key v) h
  = if strict && negb (bool_decide (keys = [])) then Throws TypeError h
    else Done tt h.
Proof.
  intros Hs Hd Ho Ht. induction keys as [|key keys IH]; simpl.
  { by rewrite andb_false_r. }
  unfold bind at 1 2 3 4. rewrite !get_prop_ref. unfold read.
  rewrite dest_cell, src_cell. simpl in *. rewrite Hd, Hs.
  rewrite get_prop_ref.
  destruct d; try done; destruct strict; simpl in *; try done;
    rewrite IH; done.
Qed.

Lemma step_object_primitive ls ps :
  cell_get csrc name = VRef ls → h !! ls = Some (CObj ps) →
  is_object (default VUndef (props_get name pd)) = false →
  truthy (default VUndef (props_get name pd)) = true →
  mix_key strict (VRef src) (VRef dest) name h
  = if strict && negb (bool_decide (own_keys (CObj ps) = []))
    then Throws TypeError h else Done tt h.
Proof.
  intros Hs Hls Ho Ht. unfold mix_key. unfold bind at 1.
  rewrite get_prop_ref. unfold read. rewrite src_cell. simpl.
  rewrite Hs. simpl. rewrite Hls. simpl.
  unfold bind at 1. rewrite get_prop_ref. unfold read. rewrite dest_cell.
  simpl. rewrite Ht. unfold bind at 1. unfold ret. unfold bind at 1.
  rewrite get_prop_ref. unfold read. rewrite src_cell. simpl. rewrite Hs.
  unfold bind at 1. simpl. rewrite Hls. simpl.
  by apply (primitive_loop ls (default VUndef (props_get name pd))).
Qed.

Lemma step_object_existing ls ps lt pt :
  cell_get csrc name = VRef ls → h !! ls = Some (CObj ps) →
  props_get name pd = Some (VRef lt) → h !! lt = Some (CObj pt) →
  lt ≠ src → lt ≠ dest →
  mix_key strict (VRef src) (VRef dest) name h
  = Done tt (<[lt := CObj (copy_keys (CObj ps) (own_keys (CObj ps)) pt)]> h).
Proof.
  intros Hs Hls Hd Hlt ? ?. unfold mix_key. unfold bind at 1.
  rewrite get_prop_ref. unfold read. rewrite src_cell. simpl.
  rewrite Hs. simpl. rewrite Hls. simpl.
  unfold bind at 1. rewrite get_prop_ref. unfold read. rewrite dest_cell.
  simpl. rewrite Hd. simpl. unfold bind at 1. unfold ret. unfold bind at 1.
  rewrite get_prop_ref. unfold read. rewrite src_cell. simpl. rewrite Hs.
  unfold bind at 1. simpl. rewrite Hls. simpl.
  destruct (decide (lt = ls)) as [->|Hne].
  - assert (pt = ps) as -> by congruence.
    rewrite copy_keys_self, list_insert_id by
      (done || intros ? ?; by apply elem_of_own_keys_obj).
    apply (copy_loop_self strict src dest ls ls name csrc (CObj pd)
             Hs) with (ps := ps); try done.
    + simpl. by rewrite Hd.
    + intros ? ?. by apply elem_of_own_keys_obj.
  - apply (copy_loop strict src dest ls lt name csrc (CObj pd) (CObj ps) Hs);
      try done.
    simpl. by rewrite Hd.
Qed.

(** Where the object [dest[name]] holds has the keys of [src[name]] with
    their values already, the body changes nothing, whatever that object
    is. *)
Lemma step_object_settled ls ps lt pt :
  cell_get csrc name = VRef ls → h !! ls = Some (CObj ps) →
  props_get name pd = Some (VRef lt) → h !! lt = Some (CObj pt) →
  (∀ key, key ∈ own_keys (CObj ps) →
     props_get key pt = Some (cell_get (CObj ps) key)) →
  mix_key strict (VRef src) (VRef dest) name h = Done tt h.
Proof.
  intros Hs Hls Hd Hlt Hkeys. unfold mix_key. unfold bind at 1.
  rewrite get_prop_ref. unfold read. rewrite src_cell. simpl.
  rewrite Hs. simpl. rewrite Hls. simpl.
  unfold bind at 1. rewrite get_prop_ref. unfold read. rewrite dest_cell.
  simpl. rewrite Hd. simpl. unfold bind at 1. unfold ret. unfold bind at 1.
  rewrite get_prop_ref. unfold read. rewrite src_cell. simpl. rewrite Hs.
  unfold bind at 1. simpl. rewrite Hls. simpl.
  apply (copy_loop_settled strict src dest ls lt name csrc (CObj pd) Hs)
    with (ps := ps) (pt := pt); try done.
  simpl. by rewrite Hd.
Qed.

Lemma step_object_new ls ps cs1 :
  cell_get csrc name = VRef ls → h !! ls = Some (CObj ps) →
  truthy (default VUndef (props_get name pd)) = false →
  <[dest := CObj (props_set name (VRef (length h)) pd)]> (h ++ [CObj []]) !! ls
    = Some cs1 →
  mix_key strict (VRef src) (VRef dest) name h
  = Done tt (<[length h := CObj (copy_keys cs1 (own_keys cs1) [])]>
               (<[dest := CObj (props_set name (VRef (length h)) pd)]>
                  (h ++ [CObj []]))).
Proof.
  intros Hs Hls Ht Hcs1.
  assert (src ≠ dest) as Hne.
  { intros ->. rewrite dest_cell in src_cell. injection src_cell as <-.
    simpl in Hs. by rewrite Hs in Ht. }
  assert (src < length h) by (by eapply lookup_lt_Some).
  assert (dest < length h) by (by eapply lookup_lt_Some).
  assert (ls < length h) by (by eapply lookup_lt_Some).
  unfold mix_key. unfold bind at 1.
  rewrite get_prop_ref. unfold read. rewrite src_cell. simpl.
  rewrite Hs. simpl. rewrite Hls. simpl.
  unfold bind at 1. rewrite get_prop_ref. unfold read. rewrite dest_cell.
  simpl. rewrite Ht. unfold bind at 1 2. unfold alloc. simpl.
  rewrite lookup_app_l, dest_cell by done. simpl.
  set (h1 := <[dest := _]> (h ++ [CObj []])) in *.
  assert (h1 !! src = Some csrc) as Hsrc1.
  { unfold h1. rewrite list_lookup_insert_ne by done.
    by rewrite lookup_app_l. }
  assert (h1 !! dest = Some (CObj (props_set name (VRef (length h)) pd)))
    as Hdest1.
  { unfold h1. apply list_lookup_insert_eq. rewrite length_app. lia. }
  unfold bind at 1. rewrite get_prop_ref. unfold read. rewrite Hsrc1. simpl.
  rewrite Hs. unfold bind at 1. simpl. rewrite Hcs1. simpl.
  apply (copy_loop strict src dest ls (length h) name csrc
           (CObj (props_set name (VRef (length h)) pd)) cs1 Hs);
    try done; try lia.
  - simpl. by rewrite props_get_set_eq.
  - unfold h1. rewrite list_lookup_insert_ne by lia.
    rewrite lookup_app_r by lia. by rewrite Nat.sub_diag.
Qed.

End Step.

(** *** Merging the same source again *)

Section Again.

Variable strict : bool.
Variables (src dest : loc) (csrc : cell).

Abbreviation step := (mix_key strict (VRef src) (VRef dest)).
Abbreviation sep := (separate strict src dest csrc).

(** Where [dest[name]] holds what [mix] would put there, the step for
    [name] changes nothing, whatever [src] and [dest] share. *)
Lemma merged_replay pd h name :
  h !! src = Some csrc → h !! dest = Some (CObj pd) →
  merged strict csrc pd h name →
  step name h = Done tt h.
Proof.
  intros Hsrc Hdest. unfold merged.
  destruct (cell_get csrc name) as [| | | | |ls] eqn:Hs.
  1-5: intros Hd;
    rewrite (step_scalar strict h src dest name csrc pd Hsrc Hdest)
      by (by rewrite Hs);
    by rewrite Hs, (props_set_id _ _ _ Hd), list_insert_id.
  intros (ps & Hls & [(lt & pt & Hd & Hlt & Hkeys)|(Ho & Ht & Hk)]).
  - by apply (step_object_settled strict h src dest name csrc pd Hsrc Hdest
                ls ps lt pt).
  - rewrite (step_object_primitive strict h src dest name csrc pd Hsrc Hdest
               ls ps) by done.
    by rewrite Hk.
Qed.

(** [merged] only looks at [dest[name]], the object [src[name]] and the
    object [dest[name]]. *)
Lemma merged_frame pd h pd' h' n :
  merged strict csrc pd h n →
  props_get n pd' = props_get n pd →
  (∀ ls, cell_get csrc n = VRef ls → h' !! ls = h !! ls) →
  (∀ ls lt, cell_get csrc n = VRef ls → props_get n pd = Some (VRef lt) →
     h' !! lt = h !! lt) →
  merged strict csrc pd' h' n.
Proof.
  unfold merged. intros Hm Hp Hls Hlt.
  destruct (cell_get csrc n) as [| | | | |ls]; try congruence.
  destruct Hm as (ps & Hps & Hm). exists ps.
  split; [by rewrite Hls|]. rewrite Hp.
  destruct Hm as [(lt & pt & Hd & Hpt & Hkeys)|?]; [left|by right].
  exists lt, pt. split; [done|]. split; [|done]. by rewrite (Hlt ls lt).
Qed.

(** An object that keys are copied into is a plain object other than
    [dest]. *)
Lemma target_plain pd h name ls lt :
  sep pd h → cell_get csrc name = VRef ls →
  props_get name pd = Some (VRef lt) →
  lt ≠ dest ∧ ∃ pt, h !! lt = Some (CObj pt).
Proof.
  intros (_ & _ & _ & _ & Htgt) Hs Hd.
  destruct (Htgt name ls lt Hs Hd) as [? [Hm|(_ & ? & _)]]; [|done].
  split; [done|]. unfold merged in Hm. rewrite Hs in Hm.
  destruct Hm as (ps & _ & [(lt' & pt & Hd' & Hlt & _)|(Ho & _)]).
  - exists pt. congruence.
  - by rewrite Hd in Ho.
Qed.

(** The cases of a step, by what [src[name]] and [dest[name]] hold. *)
Lemma step_cases pd h name :
  sep pd h →
  (is_object (cell_get csrc name) = false ∧
   step name h
   = Done tt (<[dest := CObj (props_set name (cell_get csrc name) pd)]> h)) ∨
  (∃ ls ps, cell_get csrc name = VRef ls ∧ h !! ls = Some (CObj ps) ∧
     ls ≠ dest ∧
     ((truthy (default VUndef (props_get name pd)) = false ∧
       step name h
       = Done tt
           (<[length h := CObj (copy_keys (CObj ps) (own_keys (CObj ps)) [])]>
              (<[dest := CObj (props_set name (VRef (length h)) pd)]>
                 (h ++ [CObj []])))) ∨
      (∃ lt pt, props_get name pd = Some (VRef lt) ∧
         h !! lt = Some (CObj pt) ∧
         ((merged strict csrc pd h name ∧ step name h = Done tt h) ∨
          (private src csrc pd h name lt ∧
           step name h
           = Done tt
               (<[lt := CObj (copy_keys (CObj ps) (own_keys (CObj ps)) pt)]>
                  h)))) ∨
      (is_object (default VUndef (props_get name pd)) = false ∧
       truthy (default VUndef (props_get name pd)) = true ∧
       step name h
       = if strict && negb (bool_decide (own_keys (CObj ps) = []))
         then Throws TypeError h else Done tt h))).
Proof.
  intros Hsep. pose proof Hsep as (Hne & Hsrc & Hdest & Hobj & Htgt).
  destruct (is_object (cell_get csrc name)) eqn:Ho.
  2:{ left. split; [done|]. by apply step_scalar. }
  right. destruct (cell_get csrc name) as [| | | | |ls] eqn:Hs; try done.
  destruct (Hobj name ls Hs) as (Hlsd & ps & Hls).
  exists ls, ps. do 3 (split; [done|]).
  destruct (truthy (default VUndef (props_get name pd))) eqn:Ht.
  - destruct (is_object (default VUndef (props_get name pd))) eqn:Hod.
    + right; left.
      destruct (props_get name pd) as [[| | | | |lt]|] eqn:Hd; try done.
      destruct (target_plain pd h name ls lt Hsep Hs Hd) as (? & pt & Hlt).
      exists lt, pt. do 2 (split; [done|]).
      destruct (Htgt name ls lt Hs Hd) as [_ [Hm|Hp]].
      * left. split; [done|]. by apply (merged_replay pd).
      * right. split; [done|]. destruct Hp as (? & _).
        by eapply step_object_existing.
    + right; right. do 2 (split; [done|]). by eapply step_object_primitive.
  - left. split; [done|]. eapply step_object_new; try done.
    rewrite list_lookup_insert_ne by done.
    rewrite lookup_app_l by (by eapply lookup_lt_Some). done.
Qed.

Lemma step_throws pd h name e h' :
  sep pd h → step name h = Throws e h' → h' = h.
Proof.
  intros Hsep Hstep.
  destruct (step_cases pd h name Hsep)
    as [[_ Heq]|(ls & ps & _ & _ & _ &
                 [[_ Heq]|[(lt & pt & _ & _ & [[_ Heq]|[_ Heq]])
                          |(_ & _ & Heq)]])];
    rewrite Heq in Hstep; try done.
  destruct (strict && _); congruence.
Qed.

(** The two objects stay separate over a step for [name] that leaves
    [dest[name]] merged, leaves the objects [src] holds alone, and
    rebinds or writes nothing that belongs to another name. *)
Lemma sep_keep pd h pd' h' name :
  sep pd h →
  h' !! src = Some csrc → h' !! dest = Some (CObj pd') →
  (∀ n, n ≠ name → props_get n pd' = props_get n pd) →
  (∀ n ls, cell_get csrc n = VRef ls → h' !! ls = h !! ls) →
  (∀ n ls lt, n ≠ name → cell_get csrc n = VRef ls →
     props_get n pd = Some (VRef lt) → h' !! lt = h !! lt) →
  merged strict csrc pd' h' name →
  (∀ ls lt, cell_get csrc name = VRef ls →
     props_get name pd' = Some (VRef lt) →
     lt ≠ dest ∧
     ∀ n ls', n ≠ name → cell_get csrc n = VRef ls' →
       props_get n pd ≠ Some (VRef lt)) →
  sep pd' h' ∧ ∀ n, merged strict csrc pd h n → merged strict csrc pd' h' n.
Proof.
  intros Hsep Hsrc' Hdest' Hpd Hheld Hother Hm Hnew.
  pose proof Hsep as (Hne & Hsrc & Hdest & Hobj & Htgt).
  assert (∀ n, n ≠ name → merged strict csrc pd h n →
            merged strict csrc pd' h' n) as Hkeep.
  { intros n Hn Hmn. apply (merged_frame pd h); [done|by apply Hpd|..].
    - intros ls Hs. by apply (Hheld n).
    - intros ls lt Hs Hd. by apply (Hother n ls lt). }
  split.
  2:{ intros n Hmn. destruct (decide (n = name)) as [->|Hn]; [done|].
      by apply Hkeep. }
  refine (conj Hne (conj Hsrc' (conj Hdest' (conj _ _)))).
  - intros n ls Hs. destruct (Hobj n ls Hs) as (? & ps & ?).
    split; [done|]. exists ps. by rewrite (Hheld n).
  - intros n ls lt Hs Hd. destruct (decide (n = name)) as [->|Hn].
    { destruct (Hnew ls lt Hs Hd) as [? _]. split; [done|]. by left. }
    rewrite Hpd in Hd by done.
    destruct (Htgt n ls lt Hs Hd) as [? [Hmn|(? & (pt & Hlt) & Hrest)]].
    { split; [done|]. left. by apply Hkeep. }
    split; [done|]. right. split; [done|].
    split; [exists pt; by rewrite (Hother n ls lt)|].
    intros n' ls' Hs'. destruct (Hrest n' ls' Hs') as [? Hn'].
    split; [done|]. intros Hnn.
    destruct (decide (n' = name)) as [->|Hn'n].
    + intros Hbad. destruct (Hnew ls' lt Hs' Hbad) as [_ Hno].
      by apply (Hno n ls).
    + rewrite Hpd by done. by apply Hn'.
Qed.

(** A step that returns keeps the two objects separate, leaves
    [dest[name]] merged, and leaves merged what was. *)
Lemma step_done pd h name h' :
  sep pd h → step name h = Done tt h' →
  ∃ pd', sep pd' h' ∧ merged strict csrc pd' h' name ∧
         ∀ n, merged strict csrc pd h n → merged strict csrc pd' h' n.
Proof.
  intros Hsep Hstep. pose proof Hsep as (Hne & Hsrc & Hdest & Hobj & Htgt).
  assert (dest < length h) as Hdl by (by eapply lookup_lt_Some).
  assert (src < length h) as Hsl by (by eapply lookup_lt_Some).
  assert (∀ n ls0, cell_get csrc n = VRef ls0 → ls0 < length h) as Hvs.
  { intros n ls0 Hn. destruct (Hobj n ls0 Hn) as (_ & ? & ?).
    by eapply lookup_lt_Some. }
  assert (∀ n ls0 lt0, cell_get csrc n = VRef ls0 →
            props_get n pd = Some (VRef lt0) → lt0 < length h) as Hvt.
  { intros n ls0 lt0 Hn Hd0.
    destruct (target_plain pd h n ls0 lt0 Hsep Hn Hd0) as (_ & ? & ?).
    by eapply lookup_lt_Some. }
  destruct (step_cases pd h name Hsep)
    as [[Ho Heq]|(ls & ps & Hs & Hls & Hlsd &
                  [[Ht Heq]|[(lt & pt & Hd & Hlt & [[Hm Heq]|[Hp Heq]])
                            |(Ho & Ht & Heq)]])];
    rewrite Heq in Hstep.
  - (* [src[name]] is not an object *)
    injection Hstep as <-. exists (props_set name (cell_get csrc name) pd).
    assert (merged strict csrc (props_set name (cell_get csrc name) pd)
              (<[dest:=CObj (props_set name (cell_get csrc name) pd)]> h) name)
      as Hm.
    { unfold merged. destruct (cell_get csrc name); try done;
        by rewrite props_get_set_eq. }
    destruct (sep_keep pd h (props_set name (cell_get csrc name) pd)
                (<[dest:=CObj (props_set name (cell_get csrc name) pd)]> h)
                name Hsep) as [Hsep' Hkeep]; try done.
    + by rewrite list_lookup_insert_ne.
    + by apply list_lookup_insert_eq.
    + intros n ?. by rewrite props_get_set_ne.
    + intros n ls0 Hs0. destruct (Hobj n ls0 Hs0).
      by rewrite list_lookup_insert_ne.
    + intros n ls0 lt0 _ Hs0 Hd0.
      destruct (target_plain pd h n ls0 lt0 Hsep Hs0 Hd0).
      by rewrite list_lookup_insert_ne.
    + intros ls0 lt0 Hs0. by rewrite Hs0 in Ho.
  - (* [dest[name]] is falsy: a new object *)
    injection Hstep as <-.
    set (pd' := props_set name (VRef (length h)) pd).
    set (c := CObj (copy_keys (CObj ps) (own_keys (CObj ps)) [])).
    set (h' := <[length h := c]> (<[dest := CObj pd']> (h ++ [CObj []]))).
    assert (∀ l, l < length h → l ≠ dest → h' !! l = h !! l) as Hold.
    { intros l ? ?. unfold h'. rewrite list_lookup_insert_ne by lia.
      rewrite list_lookup_insert_ne by done. by rewrite lookup_app_l. }
    assert (h' !! dest = Some (CObj pd')) as Hd'.
    { unfold h'. rewrite list_lookup_insert_ne by lia.
      apply list_lookup_insert_eq. rewrite length_app. lia. }
    assert (h' !! length h = Some c) as Hf.
    { unfold h'. apply list_lookup_insert_eq.
      rewrite length_insert, length_app. simpl. lia. }
    assert (merged strict csrc pd' h' name) as Hm.
    { unfold merged. rewrite Hs. exists ps.
      split; [rewrite Hold; [done|by eapply lookup_lt_Some|done]|].
      left. exists (length h), (copy_keys (CObj ps) (own_keys (CObj ps)) []).
      split; [apply props_get_set_eq|]. split; [done|].
      intros key Hkey. by rewrite copy_keys_get, decide_True. }
    exists pd'.
    destruct (sep_keep pd h pd' h' name Hsep) as [Hsep' Hkeep]; try done.
    + by rewrite Hold.
    + intros n ?. unfold pd'. by rewrite props_get_set_ne.
    + intros n ls0 Hs0. destruct (Hobj n ls0 Hs0).
      apply Hold; [by eapply Hvs|done].
    + intros n ls0 lt0 _ Hs0 Hd0.
      destruct (target_plain pd h n ls0 lt0 Hsep Hs0 Hd0).
      apply Hold; [by eapply Hvt|done].
    + intros ls0 lt0 Hs0 Hd0. unfold pd' in Hd0.
      rewrite props_get_set_eq in Hd0. injection Hd0 as <-.
      split; [lia|]. intros n ls' _ Hs' Hbad.
      specialize (Hvt n ls' _ Hs' Hbad). lia.
  - (* [dest[name]] holds the keys already: nothing is written *)
    injection Hstep as <-. exists pd. by split.
  - (* [dest[name]] is a plain object of its own: its keys are overwritten *)
    injection Hstep as <-.
    destruct (target_plain pd h name ls lt Hsep Hs Hd) as [Hltd _].
    destruct Hp as (Hlts & _ & Hrest).
    assert (lt < length h) as Hltl by (by eapply lookup_lt_Some).
    assert (merged strict csrc pd
              (<[lt := CObj (copy_keys (CObj ps) (own_keys (CObj ps)) pt)]> h)
              name) as Hm.
    { unfold merged. rewrite Hs. exists ps.
      destruct (Hrest name ls Hs) as [? _].
      split; [by rewrite list_lookup_insert_ne|].
      left. exists lt, (copy_keys (CObj ps) (own_keys (CObj ps)) pt).
      split; [done|]. split; [by apply list_lookup_insert_eq|].
      intros key Hkey. by rewrite copy_keys_get, decide_True. }
    exists pd.
    destruct (sep_keep pd h pd
                (<[lt := CObj (copy_keys (CObj ps) (own_keys (CObj ps)) pt)]> h)
                name Hsep) as [Hsep' Hkeep]; try done.
    + by rewrite list_lookup_insert_ne.
    + by rewrite list_lookup_insert_ne.
    + intros n ls0 Hs0. destruct (Hrest n ls0 Hs0) as [? _].
      by rewrite list_lookup_insert_ne.
    + intros n ls0 lt0 Hn Hs0 Hd0. destruct (Hrest n ls0 Hs0) as [_ Hn0].
      rewrite list_lookup_insert_ne; [done|]. intros <-. by apply Hn0.
    + intros ls0 lt0 Hs0 Hd0. assert (lt0 = lt) as -> by congruence.
      split; [done|]. intros n ls' Hn Hs'.
      destruct (Hrest n ls' Hs') as [_ Hn0]. by apply Hn0.
  - (* [dest[name]] is a truthy primitive: nothing is written *)
    destruct (strict && _) eqn:Hc; [done|]. injection Hstep as <-.
    exists pd. split; [done|]. split; [|done].
    unfold merged. rewrite Hs. exists ps. split; [done|]. by right.
Qed.

Lemma for_each_app {A} (l1 l2 : list A) (f : A → M unit) h :
  for_each (l1 ++ l2) f h
  = match for_each l1 f h with
    | Done _ h' => for_each l2 f h'
    | Throws e h' => Throws e h'
    end.
Proof.
  revert h. induction l1 as [|x l1 IH]; intros h; [done|].
  simpl. unfold bind. destruct (f x h) as [[] h'|e h']; [apply IH|done].
Qed.

(** Over merged names, the loop changes nothing. *)
Lemma replay keys pd h :
  h !! src = Some csrc → h !! dest = Some (CObj pd) →
  (∀ n, n ∈ keys → merged strict csrc pd h n) →
  for_each keys step h = Done tt h.
Proof.
  intros Hsrc Hdest. induction keys as [|k keys IH]; intros Hm; [done|].
  simpl. unfold bind. rewrite (merged_replay pd) by (done || apply Hm; by left).
  apply IH. intros n Hn. apply Hm. by right.
Qed.

(** A pass of the loop: it returns with every name merged, or throws
    at a name with the names before it merged, in the store it threw
    in. *)
Lemma pass keys : ∀ pd h,
  sep pd h →
  match for_each keys step h with
  | Done _ h' =>
      ∃ pd', sep pd' h' ∧
        (∀ n, n ∈ keys → merged strict csrc pd' h' n) ∧
        (∀ n, merged strict csrc pd h n → merged strict csrc pd' h' n)
  | Throws e h' =>
      ∃ pd' pre k post, sep pd' h' ∧
        keys = pre ++ k :: post ∧
        (∀ n, n ∈ pre → merged strict csrc pd' h' n) ∧
        (∀ n, merged strict csrc pd h n → merged strict csrc pd' h' n) ∧
        step k h' = Throws e h'
  end.
Proof.
  induction keys as [|k keys IH]; intros pd h Hsep.
  { simpl. exists pd. split; [done|]. split; [|done].
    by intros n ?%not_elem_of_nil. }
  simpl. unfold bind. destruct (step k h) as [[] h1|e h1] eqn:Hk.
  - destruct (step_done pd h k h1 Hsep Hk) as (pd1 & Hsep1 & Hm1 & Hp1).
    specialize (IH pd1 h1 Hsep1).
    destruct (for_each keys step h1) as [[] h2|e h2].
    + destruct IH as (pd2 & Hsep2 & Hm2 & Hp2). exists pd2.
      split; [done|]. split; [|by auto].
      intros n [->|Hn]%elem_of_cons; [by apply Hp2|by apply Hm2].
    + destruct IH as (pd2 & pre & k' & post & Hsep2 & -> & Hm2 & Hp2 & Hk').
      exists pd2, (k :: pre), k', post. split; [done|]. split; [done|].
      split; [|by auto].
      intros n [->|Hn]%elem_of_cons; [by apply Hp2|by apply Hm2].
  - assert (h1 = h) as -> by (by eapply step_throws).
    exists pd, [], k, keys. split; [done|]. split; [done|].
    split; [|done]. by intros n ?%not_elem_of_nil.
Qed.

(** Merging again from separate objects ends as the first merge did. *)
Lemma again pd h :
  sep pd h →
  mix strict (VRef src) (VRef dest)
    (final_heap (mix strict (VRef src) (VRef dest) h))
  = mix strict (VRef src) (VRef dest) h.
Proof.
  intros Hsep. pose proof Hsep as (_ & Hsrc & _).
  pose proof (λ h', mix_names strict h' src (VRef dest) csrc) as Hmix.
  rewrite (Hmix h Hsrc).
  pose proof (pass (own_keys csrc) pd h Hsep) as Hp.
  destruct (for_each _ _ h) as [[] h1|e h1]; simpl.
  - destruct Hp as (pd1 & Hsep1 & Hm1 & _).
    destruct Hsep1 as (_ & Hsrc1 & Hdest1 & _).
    rewrite Hmix by done. by eapply replay.
  - destruct Hp as (pd1 & pre & k & post & Hsep1 & Hkeys & Hm1 & _ & Hk).
    destruct Hsep1 as (_ & Hsrc1 & Hdest1 & _).
    rewrite Hmix by done. rewrite Hkeys, for_each_app.
    rewrite (replay pre pd1) by done.
    simpl. unfold bind. by rewrite Hk.
Qed.

End Again.

(** A new empty destination shares nothing with a source that holds
    plain objects only. *)
Lemma separate_fresh strict h src csrc :
  h !! src = Some csrc →
  (∀ name ls, cell_get csrc name = VRef ls → ∃ ps, h !! ls = Some (CObj ps)) →
  separate strict src (length h) csrc [] (h ++ [CObj []]).
Proof.
  intros Hsrc Hobj.
  assert (src < length h) as Hlt by (by eapply lookup_lt_Some).
  refine (conj _ (conj _ (conj _ (conj _ _)))).
  - lia.
  - by rewrite lookup_app_l.
  - rewrite lookup_app_r by lia. by rewrite Nat.sub_diag.
  - intros name ls Hs. destruct (Hobj name ls Hs) as (ps & Hls).
    assert (ls < length h) by (by eapply lookup_lt_Some).
    split; [lia|]. exists ps. by rewrite lookup_app_l.
  - intros name ls lt _ Hd. done.
Qed.

(** An object that holds plain objects only holds, under each of its
    names, what merging it into itself would put there. *)
Lemma merged_self strict h po name :
  (∀ n ls, props_get n po = Some (VRef ls) → ∃ ps, h !! ls = Some (CObj ps)) →
  name ∈ own_keys (CObj po) →
  merged strict (CObj po) po h name.
Proof.
  intros Hobj Hn. apply elem_of_own_keys_obj in Hn as [v Hv].
  unfold merged. simpl. rewrite Hv. simpl.
  destruct v as [| | | | |ls]; try done.
  destruct (Hobj name ls Hv) as [ps Hls]. exists ps. split; [done|].
  left. exists ls, ps. do 2 (split; [done|]).
  intros key [w Hw]%elem_of_own_keys_obj. simpl. by rewrite Hw.
Qed.




(** C5 (as amended): where [src[name]] is an array and [dest] a plain
    object, [mix] binds [dest[name]] to a new array holding the elements
    of [dest[name]] followed by those of [src[name]] when [dest[name]]
    is an array that concatenates as arrays do, and throws a [TypeError]
    when it is an array that does not; it binds [dest[name]] to the
    array [src[name]] itself when [dest[name]] is no array, the name
    being one that an assignment binds. So [{a: [1, 2]}] then [{a: [3]}]
    into [{}] give [{a: [1, 2, 3]}], and [{a: [3]}] into [{a: "x"}] gives
    [{a: [3]}]. *)
Theorem mix_arrays strict :
  (∀ h src dest csrc,
     h !! src = Some csrc →
     mix strict (VRef src) dest h
     = for_each (own_keys csrc) (mix_key strict (VRef src) dest) h) ∧
  (∀ h src dest name csrc pd ls es ps,
     h !! src = Some csrc → cell_get csrc name = VRef ls →
     h !! ls = Some (CArr es ps) → h !! dest = Some (CObj pd) →
     (∀ ld ed qd,
        props_get name pd = Some (VRef ld) → h !! ld = Some (CArr ed qd) →
        mix_key strict (VRef src) (VRef dest) name h
        = if plain_concat qd
          then Done tt (<[dest := CObj (props_set name (VRef (length h)) pd)]>
                          (h ++ [CArr (ed ++ es) []]))
          else Throws TypeError h) ∧
     (is_array h (default VUndef (props_get name pd)) = false →
        binds_own name pd →
        mix_key strict (VRef src) (VRef dest) name h
        = Done tt (<[dest := CObj (props_set name (VRef ls) pd)]> h))) ∧
  (∃ h1 h2 l,
     mix strict (VRef 0) (VRef 4) concat_store = Done tt h1 ∧
     mix strict (VRef 2) (VRef 4) h1 = Done tt h2 ∧
     h2 !! 4 = Some (CObj [("a", VRef l)]) ∧
     h2 !! l = Some (CArr [Some (VNum 1); Some (VNum 2); Some (VNum 3)] [])) ∧
  (∃ h1,
     mix strict (VRef 0) (VRef 2) replace_store = Done tt h1 ∧
     h1 !! 2 = Some (CObj [("a", VRef 1)]) ∧
     h1 !! 1 = Some (CArr [Some (VNum 3)] [])).
Proof.
  split; [|split; [|split]].
  - intros h src dest csrc. apply mix_names.
  - intros h src dest name csrc pd ls es ps Hsrc Hs Hls Hdest.
    assert (dest < length h) as Hlt by (by eapply lookup_lt_Some).
    split.
    + intros ld ed qd Hd Hld.
      unfold mix_key, bind, get_prop, concat, alloc, array_elems, is_array.
      simpl. rewrite Hsrc, Hdest. simpl.
      repeat (progress (rewrite ?Hs, ?Hd, ?Hls, ?Hld); simpl).
      destruct (plain_concat qd); [|done].
      rewrite lookup_app_l by done. by rewrite Hdest.
    + intros Hna _.
      unfold mix_key, bind, get_prop, is_array in *.
      simpl. rewrite Hsrc, Hdest. simpl.
      repeat (progress (rewrite ?Hs, ?Hls); simpl).
      destruct (default VUndef (props_get name pd)) as [| | | | |ld];
        simpl in *; rewrite ?Hna, ?Hsrc; simpl; rewrite ?Hs; done.
  - destruct strict; by eexists _, _, _.
  - destruct strict; by eexists _.
Qed.

Lemma mix_arrays_witness :
  mix_key true (VRef 2) (VRef 4) "a" concat_store_mid
  = Done tt
      [CObj [("a", VRef 1)]; CArr [Some (VNum 1); Some (VNum 2)] [];
       CObj [("a", VRef 3)]; CArr [Some (VNum 3)] []; CObj [("a", VRef 5)];
       CArr [Some (VNum 1); Some (VNum 2); Some (VNum 3)] []] ∧
  mix_key true (VRef 0) (VRef 2) "a" replace_store
  = Done tt
      [CObj [("a", VRef 1)]; CArr [Some (VNum 3)] []; CObj [("a", VRef 1)]].
Proof.
  split.
  - apply (proj1 (proj1 (proj2 (mix_arrays true)) concat_store_mid 2 4 "a"
             (CObj [("a", VRef 3)]) [("a", VRef 1)] 3 [Some (VNum 3)] []
             eq_refl eq_refl eq_refl eq_refl)
             1 [Some (VNum 1); Some (VNum 2)] []); reflexivity.
  - apply (proj2 (proj1 (proj2 (mix_arrays true)) replace_store 0 2 "a"
             (CObj [("a", VRef 1)]) [("a", VStr "x")] 1 [Some (VNum 3)] []
             eq_refl eq_refl eq_refl eq_refl)); [reflexivity|].
    left. discriminate.
Defined.

(** C5 as stated fails where the array that [dest[name]] holds has a
    property [concat] of its own. In a report that [detect] creates,
    [report.issues] is an array; once a detector has handed in
    [{issues: {concat: 0}}], whose key is copied into that array, merging
    [{issues: ["no xcode"]}] throws a [TypeError] where the claim has the
    two arrays concatenated, and the report is left as it was. *)
Lemma mix_arrays_counterexample :
  Detect.new_results shadowed_results = Done (VRef 5) shadowed_store ∧
  ∀ strict, ∃ h1,
    mix strict (VRef 0) (VRef 5) shadowed_store = Done tt h1 ∧
    h1 !! 5 = Some (CObj [("detectVersion", VStr "4.0"); ("issues", VRef 4)]) ∧
    h1 !! 4 = Some (CArr [] [("concat", VNum 0)]) ∧
    is_array h1 (read h1 2 "issues") = true ∧
    is_array h1 (read h1 5 "issues") = true ∧
    mix strict (VRef 2) (VRef 5) h1 = Throws TypeError h1.
Proof. split; [done|]. intros []; by eexists. Qed.

(** C6 (as amended): where [src[name]] is a plain object and [dest] one
    too, and [dest[name]] reads a property of [dest] itself or
    [undefined], [mix] binds [dest[name]] to a new object when it is
    falsy and assigns every key of [src[name]] to it; and it assigns every
    key of [src[name]] to the plain object [dest[name]] holds, when that
    is neither [src] nor [dest]. Keys are assigned one level deep, the
    value of a key being what [src[name]] holds for it, same-named keys
    overwritten and the others kept; no key is one that an assignment
    hands to the accessor [__proto__]. Where [src[name]] is not an
    object, [dest[name]] is overwritten with it. In the first case [cs1]
    is the object [src[name]] as it stands once [dest[name]] is bound,
    which is as it stood before unless it is [dest]. *)
Theorem mix_objects strict :
  (∀ h src dest name csrc pd ls ps,
     h !! src = Some csrc → h !! dest = Some (CObj pd) →
     cell_get csrc name = VRef ls → h !! ls = Some (CObj ps) →
     reads_own name pd →
     (∀ cs1,
        truthy (default VUndef (props_get name pd)) = false →
        <[dest := CObj (props_set name (VRef (length h)) pd)]>
          (h ++ [CObj []]) !! ls = Some cs1 →
        "__proto__" ∉ own_keys cs1 →
        mix_key strict (VRef src) (VRef dest) name h
        = Done tt (<[length h := CObj (copy_keys cs1 (own_keys cs1) [])]>
                     (<[dest := CObj (props_set name (VRef (length h)) pd)]>
                        (h ++ [CObj []])))) ∧
     (∀ lt pt,
        props_get name pd = Some (VRef lt) → h !! lt = Some (CObj pt) →
        lt ≠ src → lt ≠ dest →
        (∀ key, key ∈ own_keys (CObj ps) → binds_own key pt) →
        mix_key strict (VRef src) (VRef dest) name h
        = Done tt (<[lt := CObj (copy_keys (CObj ps) (own_keys (CObj ps)) pt)]>
                     h))) ∧
  (∀ from keys to key,
     props_get key (copy_keys from keys to)
     = if decide (key ∈ keys) then Some (cell_get from key)
       else props_get key to) ∧
  (∀ h src dest name csrc pd,
     h !! src = Some csrc → h !! dest = Some (CObj pd) →
     is_object (cell_get csrc name) = false →
     binds_own name pd →
     mix_key strict (VRef src) (VRef dest) name h
     = Done tt (<[dest := CObj (props_set name (cell_get csrc name) pd)]> h)) ∧
  (∀ h src dest csrc,
     h !! src = Some csrc →
     mix strict (VRef src) dest h
     = for_each (own_keys csrc) (mix_key strict (VRef src) dest) h).
Proof.
  split; [|split; [|split]]; [| | |intros h src dest csrc; apply mix_names].
  - intros h src dest name csrc pd ls ps Hsrc Hdest Hs Hls _.
    split.
    + intros cs1 Ht Hcs1 _. by eapply step_object_new.
    + intros lt pt Hd Hlt ? ? _. by eapply step_object_existing.
  - apply copy_keys_get.
  - intros h src dest name csrc pd Hsrc Hdest Hs _. by eapply step_scalar.
Qed.

Lemma mix_objects_witness :
  mix_key true (VRef 0) (VRef 3) "a" object_store
  = Done tt
      [CObj [("a", VRef 1); ("v", VNull)]; CObj [("k", VNum 1); ("n", VRef 2)];
       CObj []; CObj [("a", VRef 4)];
       CObj [("j", VNum 2); ("k", VNum 1); ("n", VRef 2)]] ∧
  mix_key true (VRef 0) (VRef 3) "v" object_store
  = Done tt
      [CObj [("a", VRef 1); ("v", VNull)]; CObj [("k", VNum 1); ("n", VRef 2)];
       CObj []; CObj [("a", VRef 4); ("v", VNull)];
       CObj [("j", VNum 2); ("k", VNum 0)]].
Proof.
  split.
  - apply (proj2 (proj1 (mix_objects true) object_store 0 3 "a"
             (CObj [("a", VRef 1); ("v", VNull)]) [("a", VRef 4)] 1
             [("k", VNum 1); ("n", VRef 2)]
             eq_refl eq_refl eq_refl eq_refl
             (or_intror (ex_intro _ (VRef 4) eq_refl)))
             4 [("j", VNum 2); ("k", VNum 0)]); try (reflexivity || lia).
    intros key Hkey. left. intros ->. vm_compute in Hkey.
    repeat (apply elem_of_cons in Hkey as [Hkey|Hkey]; [discriminate|]).
    by apply not_elem_of_nil in Hkey.
  - apply (proj1 (proj2 (proj2 (mix_objects true))) object_store 0 3 "v"
             (CObj [("a", VRef 1); ("v", VNull)]) [("a", VRef 4)]);
      try reflexivity.
    left. discriminate.
Defined.

(** C6 as stated fails where [dest[name]] is not a plain object of its
    own: over the string ["x"] nothing is copied and [dest.a] stays a
    string; with [dest.a] being [dest], the first key overwrites [dest.a]
    and the second is lost; over an array, an index past the new [length]
    is lost. *)
Lemma mix_objects_counterexample :
  (∀ strict,
     final_heap (mix strict (VRef 0) (VRef 2) primitive_store)
     = primitive_store) ∧
  mix true (VRef 0) (VRef 2) primitive_store
  = Throws TypeError primitive_store ∧
  final_heap (mix false (VRef 0) (VRef 2) cyclic_store)
  = [CObj [("a", VRef 1)]; CObj [("a", VNum 5); ("b", VNum 6)];
     CObj [("a", VNum 5)]] ∧
  final_heap (mix false (VRef 0) (VRef 2) array_store)
  = [CObj [("a", VRef 1)]; CObj [("2", VNum 7); ("length", VNum 1)];
     CObj [("a", VRef 3)]; CArr [Some (VNum 1)] []].
Proof. repeat split; try intros []; by vm_compute. Qed.

(** C9 (as amended): when the plain object [dest] is another object
    than [src], no entry of [dest] that keys are copied into is [src] or
    [dest] itself, and no name of [src] brings an inherited property of
    [dest] into play, [mix(src, dest)] leaves [src] with the keys and
    values it had, whether it returns or throws; and it writes nothing
    but [dest] and the entries of [dest] that keys are copied into: every
    other object of the store is as it was. *)
Theorem mix_leaves_source strict h src dest csrc pd :
  h !! src = Some csrc → h !! dest = Some (CObj pd) →
  refs_bound h src → apart h src dest → plain_names csrc pd h →
  final_heap (mix strict (VRef src) (VRef dest) h) !! src = Some csrc ∧
  ∀ l, l < length h → l ≠ dest →
    (∀ name, copied_from h src name → read h dest name ≠ VRef l) →
    final_heap (mix strict (VRef src) (VRef dest) h) !! l = h !! l.
Proof.
  intros Hs Hd Hr Ha _.
  assert (src < length h) as Hsl by (by eapply lookup_lt_Some).
  assert (dest < length h) as Hdl by (by eapply lookup_lt_Some).
  destruct (mix_inv strict h src dest Hsl Hdl Hr (proj1 Ha) Ha)
    as (_ & Hsrc & _ & _ & _ & Hfr).
  split; [by rewrite Hsrc|]. exact Hfr.
Qed.

Lemma mix_leaves_source_witness :
  final_heap (mix true (VRef 0) (VRef 3) frame_store) !! 0
  = Some (CObj [("certs", VRef 1); ("issues", VRef 2);
                ("detectVersion", VStr "4.0")]) ∧
  final_heap (mix true (VRef 0) (VRef 3) frame_store) !! 4
  = Some (CArr [Some (VStr "no xcode")] []).
Proof.
  assert (refs_bound frame_store 0) as Hr.
  { intros name l. unfold read. simpl.
    repeat case_decide; intros [= <-]; simpl; lia. }
  assert (apart frame_store 0 3) as Ha.
  { split; [lia|]. intros name [Ho Ha]. unfold read in *. simpl in *.
    repeat case_decide; simpl in *; try done. }
  assert (plain_names
            (CObj [("certs", VRef 1); ("issues", VRef 2);
                   ("detectVersion", VStr "4.0")])
            [("issues", VRef 4)] frame_store) as Hp.
  { apply (bool_decide_unpack _). vm_compute. reflexivity. }
  destruct (mix_leaves_source true frame_store 0 3 _ _ eq_refl eq_refl
              Hr Ha Hp) as [Hs Hf].
  split; [exact Hs|]. apply (Hf 4); [simpl; lia|lia|].
  intros name [Ho Hna]. unfold read in Ho, Hna |- *. simpl in Ho, Hna |- *.
  repeat case_decide; simpl in Ho, Hna |- *; try done; congruence.
Defined.

(** C9 as stated fails when the two arguments share: with [o = {a: [1]}],
    [mix(o, o)] rebinds [o.a] to a new array; with [dest.m] being [src],
    [mix(src, dest)] gives [src] the new key [k]; with [dest.m] being
    [dest], a key copied into [dest] can be [src], and the next name
    writes into it; and [dest.m] comes to be [src] in a report that
    starts empty, once a first result [{m: A}] has put the array [A]
    there and [A] itself comes as the second result. *)
Lemma mix_shared_counterexample :
  (∀ strict,
     final_heap (mix strict (VRef 0) (VRef 0) self_store) !! 0
       = Some (CObj [("a", VRef 2)]) ∧
     self_store !! 0 = Some (CObj [("a", VRef 1)])) ∧
  (∀ strict,
     final_heap (mix strict (VRef 0) (VRef 2) nested_store) !! 0
       = Some (CObj [("m", VRef 1); ("k", VNum 1)]) ∧
     nested_store !! 0 = Some (CObj [("m", VRef 1)])) ∧
  (∀ strict,
     final_heap (mix strict (VRef 0) (VRef 3) knot_store) !! 0
       = Some (CObj [("m", VRef 1); ("n", VRef 2); ("k", VNum 1)]) ∧
     knot_store !! 0 = Some (CObj [("m", VRef 1); ("n", VRef 2)])) ∧
  (∀ strict,
     mix strict (VRef 0) (VRef 3) handed_on_store
     = Done tt [CObj [("m", VRef 1)]; CArr [] [("m", VRef 2)];
                CObj [("k", VNum 1)]; CObj [("m", VRef 1)]] ∧
     final_heap (mix strict (VRef 1) (VRef 3)
                   [CObj [("m", VRef 1)]; CArr [] [("m", VRef 2)];
                    CObj [("k", VNum 1)]; CObj [("m", VRef 1)]]) !! 1
     = Some (CArr [] [("m", VRef 2); ("k", VNum 1)])).
Proof. split; [|split; [|split]]; intros []; by vm_compute. Qed.

End MixFacts.

(** ** The orchestrator: cache and failure *)

Module DetectFacts.
Import JS Mix Detect.

Lemma detector_in (d : detector) : d ∈ detectors.
Proof. destruct d; unfold detectors; repeat constructor. Qed.

Lemma detector_bound (l : list detector) : NoDup l → (length l ≤ 6)%nat.
Proof.
  intros Hnd. change 6 with (length detectors).
  apply submseteq_length, NoDup_submseteq; [done|].
  intros d _. apply detector_in.
Qed.

Lemma new_results_done (h : heap) :
  ∃ l h', new_results h = Done (VRef l) h'.
Proof. unfold new_results, bind, alloc. by eexists _, _. Qed.

Section Pass.

Variable strict : bool.

(** One call back either leaves [final] uncalled as it was, or is the
    call that fires it, on one of its two branches. *)
Lemma on_completion_step c p st :
  let r := on_completion strict c (p, st) in
  p_results r.1 = p_results p ∧
  ∃ T, st_trace r.2 = st_trace st ++ T ∧
    ((Forall uncaught T ∧ st_cache r.2 = st_cache st ∧
      p_final r.1 = p_final p) ∨
     (p_final p = false ∧ p_final r.1 = true ∧ truthy (c_err c) = true ∧
      st_cache r.2 = st_cache st ∧ T = error_block (c_err c)) ∨
     (p_final p = false ∧ p_final r.1 = true ∧ truthy (c_err c) = false ∧
      st_cache r.2 = p_results p ∧ T = success_block (p_results p))).
Proof.
  unfold on_completion, done, final, log.
  destruct (truthy (c_err c)) eqn:Et; simpl.
  - case_bool_decide; simpl; [split; [done|]|].
    { exists [Uncaught (c_from c)]. split; [done|]. left.
      repeat split; try done. by repeat constructor. }
    destruct (p_final p) eqn:Ef; simpl; (split; [done|]).
    + exists []. rewrite app_nil_r. split; [done|]. left. by repeat split.
    + eexists. split; [done|]. right; left. by repeat split.
  - destruct (mix strict (c_result c) (p_results p) (st_heap st))
      as [[] h|e h]; simpl.
    2:{ split; [done|]. exists [Uncaught (c_from c)]. split; [done|]. left.
        repeat split; try done. by repeat constructor. }
    case_bool_decide; simpl; [split; [done|]|].
    { exists [Uncaught (c_from c)]. split; [done|]. left.
      repeat split; try done. by repeat constructor. }
    destruct (bool_decide (pred (p_running p) = 0)) eqn:Er; simpl;
      destruct (p_final p) eqn:Ef; simpl; (split; [done|]).
    + exists []. rewrite app_nil_r. split; [done|]. left. by repeat split.
    + eexists. split; [done|]. right; right. by repeat split.
    + exists []. rewrite app_nil_r. split; [done|]. left. by repeat split.
    + exists []. rewrite app_nil_r. split; [done|]. left. by repeat split.
Qed.

Lemma run_pass_cons c sched ps :
  run_pass strict (c :: sched) ps
  = run_pass strict sched (on_completion strict c ps).
Proof. done. Qed.

Lemma run_pass_app s1 s2 ps :
  run_pass strict (s1 ++ s2) ps = run_pass strict s2 (run_pass strict s1 ps).
Proof. apply foldl_app. Qed.

(** A whole pass adds to the trace at most one block of [final], among
    exceptions that escape into detectors. *)
Lemma run_pass_shape sched p st :
  p_results (run_pass strict sched (p, st)).1 = p_results p ∧
  ∃ T, st_trace (run_pass strict sched (p, st)).2 = st_trace st ++ T ∧
    ((Forall uncaught T ∧
      st_cache (run_pass strict sched (p, st)).2 = st_cache st ∧
      p_final (run_pass strict sched (p, st)).1 = p_final p) ∨
     (p_final p = false ∧ ∃ U1 U2 e,
        Forall uncaught U1 ∧ Forall uncaught U2 ∧ truthy e = true ∧
        st_cache (run_pass strict sched (p, st)).2 = st_cache st ∧
        T = U1 ++ error_block e ++ U2) ∨
     (p_final p = false ∧ ∃ U1 U2,
        Forall uncaught U1 ∧ Forall uncaught U2 ∧
        st_cache (run_pass strict sched (p, st)).2 = p_results p ∧
        T = U1 ++ success_block (p_results p) ++ U2)).
Proof.
  revert p st. induction sched as [|c sched IH]; intros p st.
  { simpl. split; [done|]. exists []. rewrite app_nil_r. split; [done|].
    by left. }
  rewrite run_pass_cons.
  pose proof (on_completion_step c p st) as Hs.
  destruct (on_completion strict c (p, st)) as [p1 st1]. simpl in Hs.
  destruct Hs as (Hr & T0 & Ht0 & Hcase).
  destruct (IH p1 st1) as (Hr1 & T1 & Ht1 & Hcase1).
  split; [congruence|]. exists (T0 ++ T1).
  split; [by rewrite Ht1, Ht0, app_assoc|].
  destruct Hcase as [(Hq & Hc & Hf)|[(Hf & Hf1 & He & Hc & ->)
                                    |(Hf & Hf1 & He & Hc & ->)]].
  - destruct Hcase1 as [(Hq1 & Hc1 & Hf1)|[(Hf1 & U1 & U2 & e & ? & ? & ? & Hc1 & ->)
                                          |(Hf1 & U1 & U2 & ? & ? & Hc1 & ->)]].
    + left. split; [by apply Forall_app|]. split; congruence.
    + right; left. split; [congruence|]. exists (T0 ++ U1), U2, e.
      repeat split; [by apply Forall_app|done|done|congruence|].
      by rewrite app_assoc.
    + right; right. split; [congruence|]. exists (T0 ++ U1), U2.
      repeat split; [by apply Forall_app|done|congruence|].
      by rewrite Hr, app_assoc.
  - destruct Hcase1 as [(Hq1 & Hc1 & _)|[(? & _)|(? & _)]]; [|congruence..].
    right; left. split; [done|]. exists [], T1, (c_err c).
    repeat split; [by constructor|done|done|congruence].
  - destruct Hcase1 as [(Hq1 & Hc1 & _)|[(? & _)|(? & _)]]; [|congruence..].
    right; right. split; [done|]. exists [], T1.
    repeat split; [by constructor|done|congruence].
Qed.

(** While fewer calls back are left than tasks are running and none
    reports an error, [final] is not called. *)
Lemma run_pass_pending pre p st :
  p_final p = false →
  Forall (λ c, truthy (c_err c) = false) pre →
  (length pre < p_running p)%nat →
  p_final (run_pass strict pre (p, st)).1 = false ∧
  p_results (run_pass strict pre (p, st)).1 = p_results p ∧
  st_cache (run_pass strict pre (p, st)).2 = st_cache st ∧
  (∀ d, d ∈ p_called (run_pass strict pre (p, st)).1 →
        d ∈ p_called p ∨ d ∈ c_from <$> pre) ∧
  ∃ T, st_trace (run_pass strict pre (p, st)).2 = st_trace st ++ T ∧
       Forall uncaught T.
Proof.
  revert p st. induction pre as [|c pre IH]; intros p st Hf Herr Hlen.
  { simpl. repeat split; [done|by left|]. exists []. by rewrite app_nil_r. }
  apply Forall_cons in Herr as [Hc Herr]. simpl in Hlen.
  rewrite run_pass_cons.
  assert (∃ p1 st1 T0, on_completion strict c (p, st) = (p1, st1) ∧
            p_final p1 = false ∧ p_results p1 = p_results p ∧
            st_cache st1 = st_cache st ∧
            (length pre < p_running p1)%nat ∧
            (∀ d, d ∈ p_called p1 → d ∈ p_called p ∨ d = c_from c) ∧
            st_trace st1 = st_trace st ++ T0 ∧ Forall uncaught T0)
    as (p1 & st1 & T0 & -> & Hf1 & Hr1 & Hc1 & Hlen1 & Hcalled1 & Ht0 & Hq0).
  { unfold on_completion, done, log. rewrite Hc.
    destruct (mix strict (c_result c) (p_results p) (st_heap st))
      as [[] h|e h]; simpl.
    2:{ eexists _, _, [Uncaught (c_from c)]. split; [done|]. simpl.
        repeat split; [done|lia|by left|by repeat constructor]. }
    case_bool_decide; simpl.
    { eexists _, _, [Uncaught (c_from c)]. split; [done|]. simpl.
      repeat split; [done|lia|by left|by repeat constructor]. }
    rewrite Hf. simpl.
    rewrite bool_decide_eq_false_2 by lia. simpl.
    eexists _, _, []. split; [done|]. simpl.
    repeat split; [lia| |by rewrite app_nil_r|by constructor].
    intros d [->|Hd]%elem_of_cons; [by right|by left]. }
  destruct (IH p1 st1 Hf1 Herr Hlen1) as (? & ? & ? & Hcalled & T1 & Ht1 & Hq1).
  repeat split; [done|congruence|congruence| |].
  - intros d Hd. rewrite fmap_cons.
    destruct (Hcalled d Hd) as [Hd1|Hd1].
    + destruct (Hcalled1 d Hd1) as [?| ->]; [by left|right; by left].
    + right. by right.
  - exists (T0 ++ T1). split; [by rewrite Ht1, Ht0, app_assoc|].
    by apply Forall_app.
Qed.

(** The call back that reports the first error fires [final]. *)
Lemma on_completion_error c p st :
  p_final p = false → truthy (c_err c) = true → c_from c ∉ p_called p →
  (on_completion strict c (p, st)).2 = log (error_block (c_err c)) st ∧
  p_final (on_completion strict c (p, st)).1 = true.
Proof.
  intros Hf Hc Hn. unfold on_completion, done, final. rewrite Hc.
  rewrite bool_decide_eq_false_2 by done. by rewrite Hf.
Qed.

End Pass.

Lemma callbacks_uncaught T : Forall uncaught T → callbacks T = [].
Proof.
  induction 1 as [|e T He _ IH]; [done|].
  by destruct e.
Qed.

Lemma invocations_uncaught T : Forall uncaught T → invocations T = [].
Proof.
  induction 1 as [|e T He _ IH]; [done|].
  by destruct e.
Qed.

Lemma callbacks_app T1 T2 : callbacks (T1 ++ T2) = callbacks T1 ++ callbacks T2.
Proof. apply omap_app. Qed.

Lemma invocations_app T1 T2 :
  invocations (T1 ++ T2) = invocations T1 ++ invocations T2.
Proof. apply omap_app. Qed.

Lemma assignments_uncaught T : Forall uncaught T → assignments T = [].
Proof.
  induction 1 as [|e T He _ IH]; [done|].
  by destruct e.
Qed.

Lemma assignments_app T1 T2 :
  assignments (T1 ++ T2) = assignments T1 ++ assignments T2.
Proof. apply omap_app. Qed.

Lemma assignments_invoke options (ds : list detector) :
  assignments ((λ d, Invoke d options) <$> ds) = [].
Proof. induction ds as [|d ds IH]; [done|]. done. Qed.

Lemma added_app st st' T :
  st_trace st' = st_trace st ++ T → added st st' = T.
Proof. intros H. unfold added. by rewrite H, drop_app_length. Qed.

Lemma invocations_invoke options (ds : list detector) :
  invocations ((λ d, Invoke d options) <$> ds) = ds.
Proof. induction ds as [|d ds IH]; [done|]. simpl. by f_equal. Qed.

Lemma callbacks_invoke options (ds : list detector) :
  callbacks ((λ d, Invoke d options) <$> ds) = [].
Proof. induction ds as [|d ds IH]; [done|]. done. Qed.

(** An uncached call: the six detectors are started, then the calls
    back are run. *)
Lemma detect_uncached strict options sched st :
  cached options st = false →
  ∃ l h,
    new_results (st_heap st) = Done (VRef l) h ∧
    detect strict options sched st
    = (run_pass strict sched
         (Pass (VRef l) [] 6 false,
          log ((λ d, Invoke d options) <$> detectors)
            (State h (st_cache st) (st_trace st)))).2.
Proof.
  unfold detect, magik. intros ->.
  destruct (new_results_done (st_heap st)) as (l & h & ->).
  by exists l, h.
Qed.

(** C2: when a detector calls back with an error, each detector calling
    back once at most, the caller's callback is called once, with the
    first such error and no report, and [cache] is not assigned: it holds
    what it held before the call. *)
Theorem failed_pass_keeps_cache strict options pre c post st :
  cached options st = false →
  NoDup (c_from <$> pre ++ c :: post) →
  Forall (λ c', truthy (c_err c') = false) pre →
  truthy (c_err c) = true →
  callbacks (added st (detect strict options (pre ++ c :: post) st))
  = [(c_err c, VUndef)] ∧
  assignments (added st (detect strict options (pre ++ c :: post) st)) = [] ∧
  st_cache (detect strict options (pre ++ c :: post) st) = st_cache st.
Proof.
  intros Hu Hnd Hpre Hc.
  destruct (detect_uncached strict options (pre ++ c :: post) st Hu)
    as (l & h & _ & ->).
  rewrite run_pass_app, run_pass_cons.
  set (st0 := log _ _).
  assert (length pre < 6)%nat as Hlen.
  { apply detector_bound in Hnd. rewrite length_fmap, length_app in Hnd.
    simpl in Hnd. lia. }
  destruct (run_pass_pending strict pre (Pass (VRef l) [] 6 false) st0
              eq_refl Hpre Hlen) as (Hf1 & Hr1 & Hc1 & Hcalled & T1 & Ht1 & Hq1).
  destruct (run_pass strict pre _) as [p1 st1]. cbn [fst snd] in *.
  assert (c_from c ∉ p_called p1) as Hfresh.
  { intros Hin. destruct (Hcalled _ Hin) as [Hin'|Hin'].
    - by apply not_elem_of_nil in Hin'.
    - rewrite fmap_app, fmap_cons in Hnd.
      apply NoDup_app in Hnd as (_ & Hnd & _).
      apply (Hnd _ Hin'). by left. }
  destruct (on_completion_error strict c p1 st1 Hf1 Hc Hfresh) as [Hst2 Hf2].
  destruct (on_completion strict c (p1, st1)) as [p2 st2]. cbn [fst snd] in *.
  destruct (run_pass_shape strict post p2 st2)
    as (_ & T3 & Ht3 & [(Hq3 & Hc3 & _)|[(? & _)|(? & _)]]); [|congruence..].
  assert (st_trace (run_pass strict post (p2, st2)).2
          = st_trace st ++ ((λ d, Invoke d options) <$> detectors) ++ T1
              ++ error_block (c_err c) ++ T3) as Ht.
  { rewrite Ht3, Hst2. simpl. rewrite Ht1. unfold st0. simpl.
    by rewrite <- !app_assoc. }
  rewrite (added_app _ _ _ Ht).
  rewrite !callbacks_app, !assignments_app, callbacks_invoke,
    assignments_invoke, (callbacks_uncaught T1), (callbacks_uncaught T3),
    (assignments_uncaught T1), (assignments_uncaught T3) by done.
  split; [done|split; [done|]].
  rewrite Hc3, Hst2. simpl. by rewrite Hc1.
Qed.

Lemma failed_pass_keeps_cache_witness :
  callbacks (added start1 (detect true VUndef failing_schedule start1))
  = [(VStr "xcode-select failed", VUndef)] ∧
  assignments (added start1 (detect true VUndef failing_schedule start1)) = [] ∧
  st_cache (detect true VUndef failing_schedule start1) = VUndef.
Proof.
  apply (failed_pass_keeps_cache true VUndef
           [Completion Certificates VNull (VRef 0)]
           (Completion Devices (VStr "xcode-select failed") VUndef)
           [Completion Environment VNull (VRef 4)] start1).
  - reflexivity.
  - apply (bool_decide_unpack _). vm_compute. reflexivity.
  - repeat constructor.
  - reflexivity.
Defined.

(** A successful uncached call: its trace, and the cache after it. *)
Lemma detect_success strict options sched st r :
  cached options st = false →
  (VNull, r) ∈ callbacks (added st (detect strict options sched st)) →
  truthy r = true ∧
  st_cache (detect strict options sched st) = r ∧
  ∃ U1 U2,
    Forall uncaught U1 ∧ Forall uncaught U2 ∧
    added st (detect strict options sched st)
    = ((λ d, Invoke d options) <$> detectors) ++ U1 ++ success_block r ++ U2.
Proof.
  intros Hu Hcb.
  destruct (detect_uncached strict options sched st Hu) as (l & h & _ & Hd).
  rewrite Hd in *. clear Hd. set (st0 := log _ _) in *.
  destruct (run_pass_shape strict sched (Pass (VRef l) [] 6 false) st0)
    as (_ & T & Ht & Hcase).
  assert (st_trace (run_pass strict sched (Pass (VRef l) [] 6 false, st0)).2
          = st_trace st ++ ((λ d, Invoke d options) <$> detectors) ++ T) as Ht'.
  { rewrite Ht. unfold st0. simpl. by rewrite <- app_assoc. }
  rewrite (added_app _ _ _ Ht') in *.
  rewrite callbacks_app, callbacks_invoke in Hcb. simpl in Hcb.
  destruct Hcase as [(Hq & _)|[(_ & U1 & U2 & e & Hq1 & Hq2 & He & _ & ->)
                              |(_ & U1 & U2 & Hq1 & Hq2 & Hc & ->)]].
  - rewrite callbacks_uncaught in Hcb by done. by apply not_elem_of_nil in Hcb.
  - rewrite !callbacks_app, (callbacks_uncaught U1), (callbacks_uncaught U2)
      in Hcb by done.
    apply list_elem_of_singleton in Hcb. injection Hcb as <- _. done.
  - rewrite !callbacks_app, (callbacks_uncaught U1), (callbacks_uncaught U2)
      in Hcb by done.
    apply list_elem_of_singleton in Hcb. injection Hcb as ->.
    split; [done|]. split; [done|]. by exists U1, U2.
Qed.



End DetectFacts.

(** ** The resolver: what it emits, and in which order *)

Module CombosFacts.
Import JS Combos CombosSpec.

(** A loop that only ever pushes onto its accumulator is a bind. *)
Lemma foldl_push {A B} (g : list B → A → list B) (f : A → list B) :
  (∀ acc x, g acc x = acc ++ f x) →
  ∀ l acc, foldl g acc l = acc ++ (l ≫= f).
Proof.
  intros Hg l. induction l as [|x l IH]; intros acc; simpl.
  - by rewrite app_nil_r.
  - by rewrite Hg, IH, app_assoc.
Qed.

Lemma match_combos_in_order profiles ds cs :
  match_combos profiles ds cs = combos_in_order profiles ds cs.
Proof.
  unfold match_combos, combos_in_order.
  rewrite (foldl_push _ (λ p, d ← ds;
    if authorizes p d then c ← cs; triple_combos p d c else [])); [done|].
  intros acc p. apply foldl_push. intros acc1 d.
  destruct (authorizes p d); [|by rewrite app_nil_r].
  apply foldl_push. intros acc2 c.
  apply foldl_push. intros acc3 pcert.
  destruct (starts_with _ _); [done|by rewrite app_nil_r].
Qed.

Lemma prefix_spec (p s : string) :
  String.prefix p s = true ↔ ∃ rest, s = (p +:+ rest)%string.
Proof.
  revert s. induction p as [|a p IH]; intros [|b s]; simpl.
  - split; [by exists EmptyString|done].
  - split; [by eexists|done].
  - split; [done|]. intros [rest ?]. discriminate.
  - destruct (ascii_dec a b) as [->|Hne].
    + rewrite IH. split; intros [rest Hr]; exists rest;
        [by rewrite Hr | by injection Hr].
    + split; [done|]. intros [rest Hr]. by injection Hr.
Qed.

Lemma starts_with_spec pcert prefix :
  starts_with pcert prefix = true ↔ ∃ rest, pcert = (prefix +:+ rest)%string.
Proof.
  unfold starts_with. rewrite bool_decide_eq_true, <- prefix_spec.
  destruct pcert as [|b pcert].
  - destruct prefix; simpl; split; intros; done.
  - change (String.index 0 prefix (String b pcert)) with
      (if String.prefix prefix (String b pcert) then Some 0
       else match String.index 0 prefix pcert with
            | Some n => Some (S n) | None => None end).
    destruct (String.prefix prefix (String b pcert)); [done|].
    destruct (String.index 0 prefix pcert); split; intros; discriminate.
Qed.

Lemma authorizes_spec p d :
  authorizes p d = true ↔ ∃ l, devices p = Some l ∧ udid d ∈ l.
Proof.
  unfold authorizes. destruct (devices p) as [l|].
  - rewrite bool_decide_eq_true. split.
    + intros Hin. by exists l.
    + by intros (l' & [= <-] & Hin).
  - split; [done|]. by intros (l & ? & _).
Qed.

Lemma elem_of_triple_combos x p d c :
  x ∈ triple_combos p d c ↔
  x = combo p c d ∧ ∃ pcert, pcert ∈ certs p ∧
    starts_with pcert (cert_prefix c) = true.
Proof.
  unfold triple_combos. rewrite list_elem_of_bind. split.
  - intros (pcert & Hx & Hin). destruct (starts_with _ _) eqn:E.
    + apply list_elem_of_singleton in Hx. eauto.
    + by apply not_elem_of_nil in Hx.
  - intros (-> & pcert & Hin & E). exists pcert. rewrite E.
    split; [apply list_elem_of_singleton; done|done].
Qed.

Lemma elem_of_combos_in_order x profiles ds cs :
  x ∈ combos_in_order profiles ds cs ↔
  ∃ p d c, p ∈ profiles ∧ d ∈ ds ∧ c ∈ cs ∧ authorizes p d = true ∧
    (∃ pcert, pcert ∈ certs p ∧ starts_with pcert (cert_prefix c) = true) ∧
    x = combo p c d.
Proof.
  unfold combos_in_order. rewrite list_elem_of_bind. split.
  - intros (p & Hx & Hp). apply list_elem_of_bind in Hx as (d & Hx & Hd).
    destruct (authorizes p d) eqn:E; [|by apply not_elem_of_nil in Hx].
    apply list_elem_of_bind in Hx as (c & Hx & Hc).
    apply elem_of_triple_combos in Hx as [-> Hm]. by exists p, d, c.
  - intros (p & d & c & Hp & Hd & Hc & E & Hm & ->).
    exists p. split; [|done]. apply list_elem_of_bind. exists d. split; [|done].
    rewrite E. apply list_elem_of_bind. exists c. split; [|done].
    by apply elem_of_triple_combos.
Qed.

Lemma run_success e h opts cb :
  device_detect e ≠ [] → flatten_certs (certs_detect e) ≠ [] →
  found e h opts cb ≠ [] →
  r_result (findValidDeviceCertProfileCombos e h opts cb)
  = Success (match_combos (found e h opts cb) (device_detect e)
               (flatten_certs (certs_detect e))).
Proof.
  unfold found, find_query, findValidDeviceCertProfileCombos.
  intros Hd Hc Hp.
  destruct (normalize opts cb) as [o k] eqn:En. simpl in *.
  rewrite !bool_decide_eq_false_2; [done|..];
    by rewrite length_zero_iff_nil.
Qed.

(** C1 (as amended): with devices, certificates and profiles at hand, the
    callback receives exactly the combos [{ ppUUID, certName, deviceUDID }]
    of the profiles, devices and certificates such that the profile lists
    the device's udid and embeds a fingerprint that starts with the first
    sixty characters of the certificate's body. *)
Theorem combo_iff_join e h opts cb :
  device_detect e ≠ [] → flatten_certs (certs_detect e) ≠ [] →
  found e h opts cb ≠ [] →
  ∃ combos,
    r_result (findValidDeviceCertProfileCombos e h opts cb) = Success combos ∧
    ∀ x, x ∈ combos ↔
      ∃ p d c,
        p ∈ found e h opts cb ∧ d ∈ device_detect e ∧
        c ∈ flatten_certs (certs_detect e) ∧
        (∃ l, devices p = Some l ∧ udid d ∈ l) ∧
        (∃ pcert rest, pcert ∈ certs p ∧
           pcert = (String.substring 0 60 (strip_header (pem c)) +:+ rest)%string) ∧
        x = [("ppUUID", VStr (uuid p)); ("certName", VStr (name c));
             ("deviceUDID", VStr (udid d))].
Proof.
  intros Hd Hc Hp. eexists. split; [by apply run_success|].
  intros x. rewrite match_combos_in_order, elem_of_combos_in_order.
  split.
  - intros (p & d & c & ? & ? & ? & Ha & (pcert & ? & Hs) & ->).
    apply authorizes_spec in Ha. apply starts_with_spec in Hs as [rest ?].
    exists p, d, c. repeat split; try done. by exists pcert, rest.
  - intros (p & d & c & ? & ? & ? & Ha & (pcert & rest & ? & Hs) & ->).
    exists p, d, c. repeat split; try done.
    + by apply authorizes_spec.
    + exists pcert. split; [done|]. apply starts_with_spec. by exists rest.
Qed.

Lemma combo_iff_join_witness :
  ∃ combos,
    r_result (findValidDeviceCertProfileCombos env1 [] (AData VUndef)
                (AFunction 0)) = Success combos ∧
    ∀ x, x ∈ combos ↔
      ∃ p d c,
        p ∈ [p1] ∧ d ∈ [d1] ∧ c ∈ [c1] ∧
        (∃ l, devices p = Some l ∧ udid d ∈ l) ∧
        (∃ pcert rest, pcert ∈ certs p ∧
           pcert = (String.substring 0 60 (strip_header (pem c)) +:+ rest)%string) ∧
        x = [("ppUUID", VStr (uuid p)); ("certName", VStr (name c));
             ("deviceUDID", VStr (udid d))].
Proof.
  apply (combo_iff_join env1 [] (AData VUndef) (AFunction 0)); discriminate.
Defined.

(** C1 as stated fails on the key of the profile identifier: the triple of
    the specification's example matches, and the callback receives its
    combo under [ppUUID]; no combo with a [profileUUID] key is emitted. *)
Lemma profileUUID_counterexample :
  authorizes p1 d1 = true ∧
  starts_with (body60 +:+ "XYZ")%string (cert_prefix c1) = true ∧
  r_result (findValidDeviceCertProfileCombos env1 [] (AData VUndef)
              (AFunction 0))
  = Success [[("ppUUID", VStr "P1"); ("certName", VStr "Dev1");
              ("deviceUDID", VStr "D1")]] ∧
  ¬ ∃ combos,
      r_result (findValidDeviceCertProfileCombos env1 [] (AData VUndef)
                  (AFunction 0)) = Success combos ∧
      [("profileUUID", VStr "P1"); ("certName", VStr "Dev1");
       ("deviceUDID", VStr "D1")] ∈ combos.
Proof.
  repeat split; try by vm_compute.
  intros (combos & Hr & Hin). vm_compute in Hr.
  injection Hr as <-. apply list_elem_of_singleton in Hin. discriminate.
Qed.

(** C3: an empty device list fails with the devices error, and only the
    devices were asked for; with a device at hand, an empty flattened
    certificate set fails with the certificates error, and the profiles
    were not asked for; with a device and a certificate at hand, an empty
    answer of [provisioning.find] fails with the profiles error. These
    are the only failures: combos are handed over exactly when all three
    lists are non-empty, so none is in any of the three cases. *)
Theorem precondition_failures e h opts cb :
  let r := findValidDeviceCertProfileCombos e h opts cb in
  (device_detect e = [] →
     r_result r = Failure "No iOS devices connected" ∧
     r_calls r = [DeviceDetect]) ∧
  (device_detect e ≠ [] → flatten_certs (certs_detect e) = [] →
     r_result r = Failure "No iOS certificates" ∧
     r_calls r = [DeviceDetect; CertsDetect]) ∧
  (device_detect e ≠ [] → flatten_certs (certs_detect e) ≠ [] →
     found e h opts cb = [] →
     r_result r = Failure "No provisioning profiles found" ∧
     r_calls r = [DeviceDetect; CertsDetect;
                  ProvisioningFind (find_query e h opts cb)]) ∧
  ((∃ combos, r_result r = Success combos) ↔
   device_detect e ≠ [] ∧ flatten_certs (certs_detect e) ≠ [] ∧
   found e h opts cb ≠ []).
Proof.
  unfold found, find_query, findValidDeviceCertProfileCombos.
  destruct (normalize opts cb) as [o k]. simpl.
  repeat case_bool_decide; simpl;
    repeat match goal with
    | H : length ?l = 0 |- _ => apply length_zero_iff_nil in H
    | H : length ?l ≠ 0 |- _ => rewrite length_zero_iff_nil in H
    end;
    (split; [|split; [|split; [|split]]]);
    try (intros; done); try (intros; congruence).
  - by intros [combos ?].
  - by intros (? & ? & ?).
  - by intros [combos ?].
  - by intros (? & ? & ?).
  - by intros [combos ?].
  - by intros (? & ? & ?).
  - intros _. by eexists.
Qed.

Lemma precondition_failures_witness :
  (r_result (findValidDeviceCertProfileCombos env_no_devices [] (AData VUndef)
               (AFunction 0)) = Failure "No iOS devices connected" ∧
   r_calls (findValidDeviceCertProfileCombos env_no_devices [] (AData VUndef)
              (AFunction 0)) = [DeviceDetect]) ∧
  (r_result (findValidDeviceCertProfileCombos env_no_certs [] (AData VUndef)
               (AFunction 0)) = Failure "No iOS certificates" ∧
   r_calls (findValidDeviceCertProfileCombos env_no_certs [] (AData VUndef)
              (AFunction 0)) = [DeviceDetect; CertsDetect]) ∧
  r_result (findValidDeviceCertProfileCombos env_no_profiles [] (AData VUndef)
              (AFunction 0)) = Failure "No provisioning profiles found".
Proof.
  split; [|split].
  - apply (precondition_failures env_no_devices [] (AData VUndef)
             (AFunction 0)). reflexivity.
  - apply (precondition_failures env_no_certs [] (AData VUndef)
             (AFunction 0)); [discriminate|reflexivity].
  - apply (precondition_failures env_no_profiles [] (AData VUndef)
             (AFunction 0)); [discriminate|discriminate|reflexivity].
Defined.

(** What a triple contributes, fingerprint by fingerprint. *)
Lemma triple_combos_filter p d c :
  triple_combos p d c
  = (λ _, combo p c d) <$>
      filter (λ pcert, starts_with pcert (cert_prefix c) = true) (certs p).
Proof.
  unfold triple_combos. induction (certs p) as [|pcert l IH]; [done|].
  rewrite bind_cons, IH, filter_cons.
  destruct (starts_with pcert (cert_prefix c)) eqn:E.
  - by rewrite decide_True.
  - by rewrite decide_False.
Qed.

(** C8: with devices, certificates and profiles at hand, the callback
    receives the combos in the order of the nested iteration, profiles,
    then devices, then certificates, then embedded fingerprints, and
    nothing is removed: a profile, a device it lists and a certificate
    contribute one combo for each embedded fingerprint that matches, in
    the order of the fingerprints, equal combos included. *)
Theorem emission_order e h opts cb :
  device_detect e ≠ [] → flatten_certs (certs_detect e) ≠ [] →
  found e h opts cb ≠ [] →
  r_result (findValidDeviceCertProfileCombos e h opts cb)
  = Success
      (p ← found e h opts cb; d ← device_detect e;
       if authorizes p d
       then c ← flatten_certs (certs_detect e);
            (λ _, combo p c d) <$>
              filter (λ pcert, starts_with pcert (cert_prefix c) = true)
                (certs p)
       else []).
Proof.
  intros Hd Hc Hp. rewrite run_success, match_combos_in_order by done.
  f_equal. unfold combos_in_order.
  apply list_bind_ext; [|done]. intros p.
  apply list_bind_ext; [|done]. intros d.
  destruct (authorizes p d); [|done].
  apply list_bind_ext; [|done]. intros c. apply triple_combos_filter.
Qed.

Lemma emission_order_witness :
  r_result (findValidDeviceCertProfileCombos env_twice [] (AData VUndef)
              (AFunction 0))
  = Success [combo p2 c1 d1; combo p2 c1 d1; combo p1 c1 d1].
Proof.
  rewrite (emission_order env_twice [] (AData VUndef) (AFunction 0));
    [|discriminate..].
  vm_compute. reflexivity.
Defined.

(** C10: the first lines settle the arguments for every shape of call: a
    function in first position is the callback and the options are [{}];
    options that are missing or falsy are [{}]; a callback that is not a
    function is the no-op. The run always has a callback to call. *)
Theorem normalize_arguments :
  (∀ f cb, normalize (AFunction f) cb = (EmptyObject, UserFunction f)) ∧
  (∀ v cb,
     (normalize (AData v) cb).1 = if truthy v then Given v else EmptyObject) ∧
  (∀ v f, (normalize (AData v) (AFunction f)).2 = UserFunction f) ∧
  (∀ v w, (normalize (AData v) (AData w)).2 = Noop) ∧
  (∀ e h opts cb,
     r_callback (findValidDeviceCertProfileCombos e h opts cb)
     = (normalize opts cb).2).
Proof.
  repeat split.
  - intros v cb. unfold normalize. by destruct (truthy v).
  - intros v f. unfold normalize. by destruct (truthy v).
  - intros v w. unfold normalize. by destruct (truthy v).
  - intros e h opts cb. unfold findValidDeviceCertProfileCombos.
    destruct (normalize opts cb) as [o k]. simpl.
    by repeat case_bool_decide.
Qed.

End CombosFacts.

(** ** The merger: a whole call *)

Module MixWhole.
Import JS Mix MixSpec JSFacts MixFacts.

Lemma array_elems_is_array h v :
  is_array h v = false ↔ array_elems h v = None.
Proof.
  destruct v as [| | | | |l]; simpl; try done.
  destruct (h !! l) as [[ps|es ps]|]; simpl; split; intros; done.
Qed.

(** Writing a plain object over a plain object changes no array. *)
Lemma array_elems_insert h t p p' l :
  h !! t = Some (CObj p) →
  array_elems (<[t := CObj p']> h) (VRef l) = array_elems h (VRef l).
Proof.
  intros Ht. simpl. destruct (decide (l = t)) as [->|Hne].
  - rewrite list_lookup_insert_eq by (by eapply lookup_lt_Some).
    by rewrite Ht.
  - by rewrite list_lookup_insert_ne.
Qed.

Lemma array_elems_app h c l :
  l < length h → array_elems (h ++ [c]) (VRef l) = array_elems h (VRef l).
Proof. intros Hl. simpl. by rewrite lookup_app_l. Qed.

(** *** The two array cases of the body *)

Section Arrays.

Variable strict : bool.
Variables (h : heap) (src dest : loc) (name : string) (csrc : cell) (pd : props).
Variables (ls : loc) (es : list (option value)) (ps : props).
Hypothesis src_cell : h !! src = Some csrc.
Hypothesis dest_cell : h !! dest = Some (CObj pd).
Hypothesis src_name : cell_get csrc name = VRef ls.
Hypothesis held : h !! ls = Some (CArr es ps).

Lemma step_array_concat ld ed qd :
  props_get name pd = Some (VRef ld) → h !! ld = Some (CArr ed qd) →
  plain_concat qd = true →
  mix_key strict (VRef src) (VRef dest) name h
  = Done tt (<[dest := CObj (props_set name (VRef (length h)) pd)]>
               (h ++ [CArr (ed ++ es) []])).
Proof.
  intros Hd Hld Hq.
  assert (dest < length h) by (by eapply lookup_lt_Some).
  unfold mix_key, bind, get_prop, concat, alloc, array_elems, is_array.
  simpl. rewrite src_cell, dest_cell. simpl.
  repeat (progress (rewrite ?src_name, ?Hd, ?held, ?Hld, ?Hq); simpl).
  rewrite lookup_app_l by done. by rewrite dest_cell.
Qed.

Lemma step_array_replace :
  is_array h (default VUndef (props_get name pd)) = false →
  mix_key strict (VRef src) (VRef dest) name h
  = Done tt (<[dest := CObj (props_set name (VRef ls) pd)]> h).
Proof.
  intros Hna.
  unfold mix_key, bind, get_prop, is_array in *.
  simpl. rewrite src_cell, dest_cell. simpl.
  repeat (progress (rewrite ?src_name, ?held); simpl).
  destruct (default VUndef (props_get name pd)) as [| | | | |ld];
    simpl in *; rewrite ?Hna, ?src_cell; simpl; rewrite ?src_name; done.
Qed.

End Arrays.

(** *** The loop, name by name *)

Section Whole.

Variable strict : bool.
Variables (src dest : loc) (csrc : cell) (pd0 : props) (h0 : heap).
Hypothesis start : tidy src dest csrc pd0 h0.
Hypothesis arrays : concat_ready csrc pd0 h0.

Abbreviation inv := (loop_inv dest csrc pd0 h0).
Abbreviation tgt := (target csrc pd0 h0).
Abbreviation step := (mix_key strict (VRef src) (VRef dest)).

Lemma dest_bound : dest < length h0.
Proof. destruct start as (_ & _ & Hd & _). by eapply lookup_lt_Some. Qed.

Lemma target_bound name l : tgt name l → l < length h0 ∧ l ≠ dest ∧ l ≠ src.
Proof.
  intros Ht. destruct start as (_ & _ & _ & _ & _ & _ & Htgt).
  destruct (Htgt name l Ht) as (? & ? & (pt & Hl) & _).
  split; [by eapply lookup_lt_Some|done].
Qed.

Lemma inv_src D pd h : inv D pd h → h !! src = Some csrc.
Proof.
  intros (_ & _ & Hfr & _). pose proof start as (Hne & Hsrc & _).
  rewrite Hfr; [done|by eapply lookup_lt_Some|done|].
  intros name Ht. by destruct (target_bound name src Ht) as (_ & _ & ?).
Qed.

Lemma inv_held D pd h name ls :
  inv D pd h → cell_get csrc name = VRef ls → h !! ls = h0 !! ls.
Proof.
  intros (_ & _ & Hfr & _) Hs.
  pose proof start as (_ & _ & _ & _ & Hheld & _ & Htgt).
  destruct (Hheld name ls Hs) as [? ?]. apply Hfr; [done|done|].
  intros n Ht. destruct (Htgt n ls Ht) as (_ & _ & _ & Hno & _).
  by apply (Hno name ls).
Qed.

(** What was left under [n] stays when another name is handled. *)
Lemma mixed_keep name n pd h pd' h' :
  length h0 ≤ length h → mixed_in csrc pd0 h0 pd h n → name ≠ n →
  props_get n pd' = props_get n pd →
  (∀ l, l < length h → l ≠ dest → ¬ tgt name l → h' !! l = h !! l) →
  mixed_in csrc pd0 h0 pd' h' n.
Proof.
  intros Hlen Hm Hne Hp Hfr. pose proof dest_bound as Hdl.
  pose proof start as (_ & _ & _ & _ & _ & _ & Htgt).
  assert (∀ l c, length h0 ≤ l → h !! l = Some c → h' !! l = Some c) as Hnew.
  { intros l c Hl Hc. rewrite Hfr; [done|by eapply lookup_lt_Some|lia|].
    intros Ht. destruct (target_bound name l Ht). lia. }
  revert Hm. unfold mixed_in.
  destruct (cell_get csrc n) as [| | | | |ls] eqn:Hs; try congruence.
  destruct (h0 !! ls) as [[ps|es ps]|] eqn:Hls; [| |done].
  - destruct (default VUndef (props_get n pd0)) as [| | |z|s|lt] eqn:Hd.
    1-5: (destruct (truthy _); [congruence|];
          intros (l & ? & ? & ?); exists l;
          (split; [done|split; [congruence|by apply Hnew]])).
    intros (pt & Hlt & Hpd & Hc). exists pt.
    split; [done|]. split; [congruence|].
    assert (tgt n lt) as Ht.
    { exists ls, ps. split; [done|]. split; [done|].
      destruct (props_get n pd0); simpl in Hd; congruence. }
    destruct (Htgt n lt Ht) as (_ & ? & _ & _ & Hone).
    rewrite Hfr; [done|by eapply lookup_lt_Some|done|].
    by apply Hone.
  - destruct (array_elems h0 (default VUndef (props_get n pd0))) as [ed|];
      [|congruence].
    intros (l & ? & ? & ?). exists l.
    split; [done|split; [congruence|by apply Hnew]].
Qed.

(** The effect of the body for [name] keeps the loop going. *)
Lemma inv_step D pd h name pd' h' :
  inv D pd h → effect dest csrc pd0 h0 name pd h pd' h' →
  inv (name :: D) pd' h'.
Proof.
  intros (Hlen & Hdest & Hfr & Harr & Hpend & Hdone)
    (Hl' & Hdest' & Hp' & Hfr' & Harr' & Hm').
  pose proof start as (_ & _ & _ & _ & _ & _ & Htgt).
  refine (conj _ (conj Hdest' (conj _ (conj _ (conj _ _))))).
  - lia.
  - intros l ? ? Hno. rewrite Hfr'; [by apply Hfr|lia|done|apply Hno].
  - intros l ?. rewrite Harr' by lia. by apply Harr.
  - intros n Hn. apply not_elem_of_cons in Hn as [Hne Hn].
    destruct (Hpend n Hn) as [Hp Hc].
    split; [by rewrite Hp'|].
    intros l Ht. destruct (target_bound n l Ht) as (? & ? & _).
    destruct (Htgt n l Ht) as (_ & _ & _ & _ & Hone).
    rewrite Hfr'; [by apply Hc|lia|done|]. apply Hone. congruence.
  - intros n Hn. destruct (decide (n = name)) as [->|Hne]; [done|].
    apply elem_of_cons in Hn as [?|Hn]; [done|].
    apply (mixed_keep name n pd h);
      [done|by apply Hdone|congruence|by apply Hp'|done].
Qed.

(** The body for a name not yet handled: its effect, or the one throw. *)
Lemma step_effect D pd h name :
  inv D pd h → name ∉ D →
  match step name h with
  | Done _ h' =>
      (strict = true → ¬ thrown_at csrc pd0 h0 name) ∧
      ∃ pd', effect dest csrc pd0 h0 name pd h pd' h'
  | Throws e h' =>
      h' = h ∧ strict = true ∧ e = TypeError ∧ thrown_at csrc pd0 h0 name
  end.
Proof.
  intros Hinv Hn. pose proof (inv_src D pd h Hinv) as Hsrc.
  pose proof (λ ls, inv_held D pd h name ls Hinv) as Hsame.
  destruct Hinv as (Hlen & Hdest & Hfr & Harr & Hpend & Hdone).
  pose proof start as (Hne & Hsrc0 & Hdest0 & Hnd & Hheld & Hbound & Htgt).
  destruct (Hpend name Hn) as [Hpd Hcells].
  pose proof dest_bound as Hdl0.
  assert (dest < length h) as Hdl by lia.
  destruct (is_object (cell_get csrc name)) eqn:Ho.
  2:{ (* [src[name]] is not an object *)
    rewrite (step_scalar strict h src dest name csrc pd Hsrc Hdest Ho).
    split.
    { intros _ (ls' & ps' & Hs' & _). by rewrite Hs' in Ho. }
    eexists. refine (conj _ (conj _ (conj _ (conj _ (conj _ _))))).
    - by rewrite length_insert.
    - by apply list_lookup_insert_eq.
    - intros m ?. by rewrite props_get_set_ne.
    - intros l ? ? _. by rewrite list_lookup_insert_ne.
    - intros l _. by eapply array_elems_insert.
    - unfold mixed_in. destruct (cell_get csrc name); try done;
        by rewrite props_get_set_eq. }
  destruct (cell_get csrc name) as [| | | | |ls] eqn:Hs; try done.
  destruct (Hheld name ls Hs) as [Hlsd Hlsl]. specialize (Hsame ls eq_refl).
  destruct (h0 !! ls) as [[ps|es ps]|] eqn:Hls0.
  3:{ apply lookup_ge_None in Hls0. lia. }
  - (* [src[name]] is a plain object *)
    destruct (truthy (default VUndef (props_get name pd0))) eqn:Ht.
    + destruct (is_object (default VUndef (props_get name pd0))) eqn:Hod.
      * (* [dest[name]] holds an object *)
        destruct (props_get name pd0) as [[| | | | |lt]|] eqn:Hd0; try done.
        assert (tgt name lt) as Htg by (by exists ls, ps).
        destruct (Htgt name lt Htg) as (? & ? & (pt & Hlt0) & _).
        assert (h !! lt = Some (CObj pt)) as Hlt by (by rewrite Hcells).
        rewrite (step_object_existing strict h src dest name csrc pd Hsrc Hdest
                   ls ps lt pt) by done.
        split.
        { intros _ (ls' & ps' & _ & _ & _ & Ho' & _). by rewrite Hd0 in Ho'. }
        exists pd. refine (conj _ (conj _ (conj _ (conj _ (conj _ _))))).
        -- by rewrite length_insert.
        -- by rewrite list_lookup_insert_ne.
        -- done.
        -- intros l ? ? Hno. rewrite list_lookup_insert_ne; [done|].
           by intros <-.
        -- intros l _. by eapply array_elems_insert.
        -- unfold mixed_in. rewrite Hs, Hls0, Hd0. simpl. exists pt.
           split; [done|]. split; [done|].
           apply list_lookup_insert_eq. by eapply lookup_lt_Some.
      * (* [dest[name]] holds a truthy primitive *)
        rewrite (step_object_primitive strict h src dest name csrc pd Hsrc
                   Hdest ls ps) by (done || by rewrite Hpd).
        assert (mixed_in csrc pd0 h0 pd h name) as Hm.
        { unfold mixed_in. rewrite Hs, Hls0.
          destruct (default VUndef (props_get name pd0)); try done;
            by rewrite Ht. }
        destruct strict; simpl.
        -- case_bool_decide as Hk; simpl.
           ++ split.
              { intros _ (ls' & ps' & Hs' & Hls' & Hk' & _).
                assert (ps' = ps) as -> by congruence. done. }
              by exists pd.
           ++ do 3 (split; [done|]). by exists ls, ps.
        -- split; [done|]. by exists pd.
    + (* [dest[name]] is falsy *)
      rewrite (step_object_new strict h src dest name csrc pd Hsrc Hdest
                 ls ps (CObj ps)); [|done|done|by rewrite Hpd|].
      2:{ rewrite list_lookup_insert_ne by done.
          rewrite lookup_app_l by lia. done. }
      split.
      { intros _ (ls' & ps' & _ & _ & _ & _ & Ht'). congruence. }
      eexists. refine (conj _ (conj _ (conj _ (conj _ (conj _ _))))).
      * rewrite !length_insert, length_app. lia.
      * rewrite list_lookup_insert_ne by lia.
        apply list_lookup_insert_eq. rewrite length_app. lia.
      * intros m ?. by rewrite props_get_set_ne.
      * intros l ? ? _. rewrite !list_lookup_insert_ne by (done || lia).
        by rewrite lookup_app_l.
      * intros l ?. simpl. rewrite list_lookup_insert_ne by lia.
        destruct (decide (l = dest)) as [->|?].
        -- rewrite list_lookup_insert_eq by (rewrite length_app; lia).
           by rewrite Hdest.
        -- rewrite list_lookup_insert_ne by done. by rewrite lookup_app_l.
      * unfold mixed_in. rewrite Hs, Hls0.
        assert (∃ l, length h0 ≤ l ∧
                  props_get name (props_set name (VRef (length h)) pd)
                  = Some (VRef l) ∧
                  <[length h := CObj (copy_keys (CObj ps) (own_keys (CObj ps)) [])]>
                    (<[dest := CObj (props_set name (VRef (length h)) pd)]>
                       (h ++ [CObj []])) !! l
                  = Some (CObj (copy_keys (CObj ps) (own_keys (CObj ps)) [])))
          as Hnew.
        { exists (length h). split; [done|]. split; [apply props_get_set_eq|].
          apply list_lookup_insert_eq.
          rewrite length_insert, length_app. simpl. lia. }
        destruct (default VUndef (props_get name pd0)); try done;
          by rewrite Ht.
  - (* [src[name]] is an array *)
    assert (strict = true → ¬ thrown_at csrc pd0 h0 name) as Hno.
    { intros _ (ls' & ps' & Hs' & Hls' & _). congruence. }
    destruct (array_elems h0 (default VUndef (props_get name pd0)))
      as [ed|] eqn:Ha0.
    + destruct (props_get name pd0) as [[| | | | |ld]|] eqn:Hd0; try done.
      pose proof (Hbound name ld Hd0) as Hldl.
      change (array_elems h0 (VRef ld) = Some ed) in Ha0.
      assert (∃ qd, h0 !! ld = Some (CArr ed qd)) as [qd Hld0].
      { simpl in Ha0. destruct (h0 !! ld) as [[pl|el ql]|]; try done.
        injection Ha0 as ->. by exists ql. }
      assert (h !! ld = Some (CArr ed qd)) as Hld.
      { rewrite Hfr; [done|done|intros ->; congruence|].
        intros n Htg. destruct (Htgt n ld Htg) as (_ & _ & (pt & ?) & _).
        congruence. }
      rewrite (step_array_concat strict h src dest name csrc pd ls es ps
                 Hsrc Hdest Hs Hsame ld ed qd);
        [|by rewrite Hpd|done|by apply (arrays name ls es ps ld ed qd)].
      split; [done|].
      eexists. refine (conj _ (conj _ (conj _ (conj _ (conj _ _))))).
      * rewrite length_insert, length_app. lia.
      * apply list_lookup_insert_eq. rewrite length_app. lia.
      * intros m ?. by rewrite props_get_set_ne.
      * intros l ? ? _. rewrite list_lookup_insert_ne by done.
        by rewrite lookup_app_l.
      * intros l ?. rewrite (array_elems_insert _ _ pd).
        -- by apply array_elems_app.
        -- by rewrite lookup_app_l.
      * unfold mixed_in. rewrite Hs, Hls0, Hd0. simpl in *. rewrite Ha0.
        exists (length h). split; [done|]. split; [apply props_get_set_eq|].
        rewrite list_lookup_insert_ne by lia.
        rewrite lookup_app_r by lia. by rewrite Nat.sub_diag.
    + assert (is_array h (default VUndef (props_get name pd)) = false) as Hna.
      { rewrite Hpd. apply array_elems_is_array.
        destruct (props_get name pd0) as [[| | | | |ld]|] eqn:Hd0; try done.
        change (array_elems h (VRef ld) = None).
        rewrite Harr; [done|]. by eapply Hbound. }
      rewrite (step_array_replace strict h src dest name csrc pd ls es ps
                 Hsrc Hdest Hs Hsame Hna).
      split; [done|].
      eexists. refine (conj _ (conj _ (conj _ (conj _ (conj _ _))))).
      * by rewrite length_insert.
      * by apply list_lookup_insert_eq.
      * intros m ?. by rewrite props_get_set_ne.
      * intros l ? ? _. by rewrite list_lookup_insert_ne.
      * intros l _. by eapply array_elems_insert.
      * unfold mixed_in. rewrite Hs, Hls0, Ha0. apply props_get_set_eq.
Qed.

Lemma whole_start : inv [] pd0 h0.
Proof.
  pose proof start as (_ & _ & Hdest & _).
  refine (conj _ (conj Hdest (conj _ (conj _ (conj _ _))))); try done.
  by intros name ?%not_elem_of_nil.
Qed.

Lemma inv_names D D' pd h :
  (∀ n, n ∈ D ↔ n ∈ D') → inv D pd h → inv D' pd h.
Proof.
  intros HD (? & ? & ? & ? & Hpend & Hdone).
  do 4 (split; [done|]). split.
  - intros n Hn. apply Hpend. by rewrite HD.
  - intros n Hn. apply Hdone. by rewrite HD.
Qed.

(** The loop over names, each taken once. *)
Lemma loop keys : ∀ D pd h,
  inv D pd h → NoDup keys → (∀ n, n ∈ keys → n ∉ D) →
  match for_each keys step h with
  | Done _ h' =>
      (strict = true → ∀ n, n ∈ keys → ¬ thrown_at csrc pd0 h0 n) ∧
      ∃ pd', inv (keys ++ D) pd' h'
  | Throws e h' =>
      strict = true ∧ e = TypeError ∧
      (∃ name, name ∈ keys ∧ thrown_at csrc pd0 h0 name) ∧
      ∃ pd' D', inv D' pd' h' ∧ ∀ n, n ∈ D' → n ∈ keys ∨ n ∈ D
  end.
Proof.
  induction keys as [|k keys IH]; intros D pd h Hinv Hnd Hfresh.
  { simpl. split; [by intros _ n ?%not_elem_of_nil|]. by exists pd. }
  apply NoDup_cons in Hnd as [Hk Hnd].
  simpl. unfold bind.
  pose proof (step_effect D pd h k Hinv) as Hstep.
  destruct (step k h) as [[] h1|e h1].
  - destruct Hstep as (Hno & pd1 & Heff); [apply Hfresh; by left|].
    pose proof (inv_step D pd h k pd1 h1 Hinv Heff) as Hinv1.
    specialize (IH (k :: D) pd1 h1 Hinv1 Hnd).
    destruct (for_each keys step h1) as [[] h2|e h2].
    + destruct IH as (Hno2 & pd2 & Hinv2).
      { intros n Hn [->|?]%elem_of_cons; [done|].
        apply (Hfresh n); [by right|done]. }
      split.
      * intros Hs n [->|Hn]%elem_of_cons; [by apply Hno|by apply Hno2].
      * exists pd2. apply (inv_names (keys ++ k :: D)); [|done].
        intros n. rewrite !elem_of_app, !elem_of_cons, elem_of_app. tauto.
    + destruct IH as (? & ? & (name & Hname & Hth) & pd2 & D2 & Hinv2 & Hsub).
      { intros n Hn [->|?]%elem_of_cons; [done|].
        apply (Hfresh n); [by right|done]. }
      do 2 (split; [done|]). split; [exists name; split; [by right|done]|].
      exists pd2, D2. split; [done|].
      intros n Hn. destruct (Hsub n Hn) as [?|[->|?]%elem_of_cons];
        [left; by right|left; by left|by right].
  - destruct Hstep as (-> & ? & ? & Hth); [apply Hfresh; by left|].
    do 2 (split; [done|]). split; [exists k; split; [by left|done]|].
    exists pd, D. split; [done|]. intros n ?. by right.
Qed.

End Whole.

(** However the call ends, the loop has kept its invariant, over names
    of [src] only. *)
Lemma mix_final strict h0 src dest csrc pd0 :
  tidy src dest csrc pd0 h0 → concat_ready csrc pd0 h0 →
  ∃ pd' D',
    loop_inv dest csrc pd0 h0 D' pd'
      (final_heap (mix strict (VRef src) (VRef dest) h0)) ∧
    ∀ n, n ∈ D' → n ∈ own_keys csrc.
Proof.
  intros Ht Ha. pose proof Ht as (_ & Hsrc & _ & Hnd & _).
  rewrite (mix_names strict h0 src (VRef dest) csrc Hsrc).
  pose proof (loop strict src dest csrc pd0 h0 Ht Ha (own_keys csrc) [] pd0 h0
                (whole_start src dest csrc pd0 h0 Ht) Hnd) as Hl.
  destruct (for_each _ _ h0) as [[] h1|e h1]; simpl.
  - destruct Hl as (_ & pd' & Hinv); [by intros n _ ?%not_elem_of_nil|].
    exists pd', (own_keys csrc ++ []). split; [done|].
    intros n. by rewrite app_nil_r.
  - destruct Hl as (_ & _ & _ & pd' & D' & Hinv & Hsub);
      [by intros n _ ?%not_elem_of_nil|].
    exists pd', D'. split; [done|]. intros n Hn.
    destruct (Hsub n Hn) as [?|?%not_elem_of_nil]; done.
Qed.

Lemma report_store_tidy :
  tidy 0 4
    (CObj [("issues", VRef 1); ("certs", VRef 2); ("devices", VRef 3);
           ("detectVersion", VStr "5.0")])
    [("detectVersion", VStr "4.0"); ("issues", VRef 5); ("certs", VRef 6);
     ("xcode", VRef 7)]
    report_store.
Proof.
  split; [lia|]. split; [reflexivity|]. split; [reflexivity|].
  split; [apply (bool_decide_unpack _); vm_compute; reflexivity|].
  split; [|split].
  - intros name ls. simpl. repeat case_decide; intros [= <-]; simpl; lia.
  - intros name l. simpl. repeat case_decide; intros [= <-]; simpl; lia.
  - intros name lt (ls & ps & Hs & Hls & Hd). simpl in Hs, Hd.
    repeat case_decide; try discriminate;
      injection Hs as <-; try discriminate; injection Hd as <-.
    split; [lia|]. split; [lia|]. split; [by eexists|]. split.
    + intros name' ls'. simpl. repeat case_decide; intros [= <-]; lia.
    + intros name' Hne (ls' & ps' & Hs' & Hls' & Hd'). simpl in Hs', Hd'.
      repeat case_decide; try discriminate; try congruence;
        injection Hs' as <-; discriminate.
Qed.

Lemma report_store_ordinary :
  ordinary
    (CObj [("issues", VRef 1); ("certs", VRef 2); ("devices", VRef 3);
           ("detectVersion", VStr "5.0")])
    [("detectVersion", VStr "4.0"); ("issues", VRef 5); ("certs", VRef 6);
     ("xcode", VRef 7)]
    report_store.
Proof.
  split; [apply (bool_decide_unpack _); vm_compute; reflexivity|].
  split; [apply (bool_decide_unpack _); vm_compute; reflexivity|].
  intros name ls es ps ld ed qd Hs Hls Hd Hld. simpl in Hs, Hd.
  repeat case_decide; try discriminate;
    injection Hs as <-; try discriminate; injection Hd as <-;
    simpl in Hls, Hld; try discriminate; by injection Hld as _ <-.
Qed.

(** X1: a call [mix(src, dest)] that returns, from a store where [src]
    and [dest] share nothing that is written and no inherited property
    comes into play, leaves under every name of [src] what the case of
    that name says, told from the store before the call: arrays bound or
    concatenated, the keys of plain objects copied, other values bound. *)
Theorem mix_whole strict h0 src dest csrc pd0 h' :
  tidy src dest csrc pd0 h0 → ordinary csrc pd0 h0 →
  mix strict (VRef src) (VRef dest) h0 = Done tt h' →
  ∃ pd', h' !! dest = Some (CObj pd') ∧
    ∀ name, name ∈ own_keys csrc → mixed_in csrc pd0 h0 pd' h' name.
Proof.
  intros Ht (_ & _ & Ha) Hmix. pose proof Ht as (_ & Hsrc & _ & Hnd & _).
  rewrite (mix_names strict h0 src (VRef dest) csrc Hsrc) in Hmix.
  pose proof (loop strict src dest csrc pd0 h0 Ht Ha (own_keys csrc) [] pd0 h0
                (whole_start src dest csrc pd0 h0 Ht) Hnd) as Hl.
  rewrite Hmix in Hl.
  destruct Hl as (_ & pd' & Hinv); [by intros n _ ?%not_elem_of_nil|].
  destruct Hinv as (_ & Hd & _ & _ & _ & Hdone).
  exists pd'. split; [done|]. intros name Hn. apply Hdone.
  apply elem_of_app. by left.
Qed.

Lemma mix_whole_witness :
  ∃ pd',
    final_heap (mix true (VRef 0) (VRef 4) report_store) !! 4
    = Some (CObj pd') ∧
    ∀ name,
      name ∈ own_keys (CObj [("issues", VRef 1); ("certs", VRef 2);
                             ("devices", VRef 3);
                             ("detectVersion", VStr "5.0")]) →
      mixed_in (CObj [("issues", VRef 1); ("certs", VRef 2);
                      ("devices", VRef 3); ("detectVersion", VStr "5.0")])
        [("detectVersion", VStr "4.0"); ("issues", VRef 5);
         ("certs", VRef 6); ("xcode", VRef 7)]
        report_store pd'
        (final_heap (mix true (VRef 0) (VRef 4) report_store)) name.
Proof.
  apply (mix_whole true report_store 0 4 _ _ _ report_store_tidy
           report_store_ordinary).
  vm_compute. reflexivity.
Defined.

(** X2: from such a store, whether [mix(src, dest)] returns or throws,
    [dest] is still a plain object, with every key it had, and with the
    value it had under each name that is no key of [src]; [src] and the
    objects it holds are as they were; and so is every other object of the
    store that is not written into for a name of [src]. Nothing is taken
    out of the store. *)
Theorem mix_frame strict h0 src dest csrc pd0 :
  tidy src dest csrc pd0 h0 → ordinary csrc pd0 h0 →
  ∃ pd',
    final_heap (mix strict (VRef src) (VRef dest) h0) !! dest
    = Some (CObj pd') ∧
    (∀ name, name ∉ own_keys csrc →
       props_get name pd' = props_get name pd0) ∧
    (∀ name, is_Some (props_get name pd0) → is_Some (props_get name pd')) ∧
    final_heap (mix strict (VRef src) (VRef dest) h0) !! src = Some csrc ∧
    (∀ name ls, cell_get csrc name = VRef ls →
       final_heap (mix strict (VRef src) (VRef dest) h0) !! ls = h0 !! ls) ∧
    (∀ l, l < length h0 → l ≠ dest →
       (∀ name, ¬ target csrc pd0 h0 name l) →
       final_heap (mix strict (VRef src) (VRef dest) h0) !! l = h0 !! l) ∧
    length h0 ≤ length (final_heap (mix strict (VRef src) (VRef dest) h0)).
Proof.
  intros Ht (_ & _ & Ha). destruct (mix_final strict h0 src dest csrc pd0 Ht Ha)
    as (pd' & D' & Hinv & Hsub).
  pose proof (inv_src src dest csrc pd0 h0 Ht D' pd' _ Hinv) as Hsrc.
  pose proof (λ name ls, inv_held src dest csrc pd0 h0 Ht D' pd' _ name ls
                Hinv) as Hheld.
  pose proof Ht as (_ & _ & _ & _ & Hin & _).
  destruct Hinv as (Hlen & Hd & Hfr & _ & Hpend & Hdone).
  exists pd'. split; [done|]. split; [|split; [|split; [done|split]]].
  - intros name Hn. apply Hpend. intros HD. by apply Hn, Hsub.
  - intros name Hsome. destruct (decide (name ∈ D')) as [HD|HD].
    2:{ by rewrite (proj1 (Hpend name HD)). }
    specialize (Hdone name HD). unfold mixed_in in Hdone.
    destruct (cell_get csrc name) as [| | | | |ls] eqn:Hs;
      try (by rewrite Hdone).
    destruct (Hin name ls Hs) as [_ Hl].
    destruct (h0 !! ls) as [[ps|es ps]|] eqn:Hls.
    + destruct (default VUndef (props_get name pd0));
        try (destruct (truthy _); [by rewrite Hdone|]);
        destruct Hdone as (? & ? & Hp & ?); by rewrite Hp.
    + destruct (array_elems h0 _); [|by rewrite Hdone].
      destruct Hdone as (? & ? & Hp & ?). by rewrite Hp.
    + apply lookup_ge_None in Hls. lia.
  - intros name ls Hs. by apply (Hheld name).
  - split; [done|lia].
Qed.

Lemma mix_frame_witness :
  ∃ pd',
    final_heap (mix true (VRef 0) (VRef 4) report_store) !! 4
    = Some (CObj pd') ∧
    props_get "xcode" pd' = Some (VRef 7) ∧
    final_heap (mix true (VRef 0) (VRef 4) report_store) !! 2
    = Some (CObj [("wwdr", VBool false)]) ∧
    final_heap (mix true (VRef 0) (VRef 4) report_store) !! 5
    = Some (CArr [Some (VStr "no xcode")] []).
Proof.
  destruct (mix_frame true report_store 0 4 _ _ report_store_tidy
              report_store_ordinary)
    as (pd' & Hd & Hout & _ & _ & Hheld & Hfr & _).
  exists pd'. split; [exact Hd|]. split; [|split].
  - apply (Hout "xcode"). vm_compute.
    intros Hin. repeat (apply elem_of_cons in Hin as [Hin|Hin];
                        [discriminate|]).
    by apply not_elem_of_nil in Hin.
  - apply (Hheld "certs" 2). reflexivity.
  - apply (Hfr 5); [simpl; lia|lia|].
    intros name (ls & ps & Hs & Hls & Hp). simpl in Hs, Hp.
    repeat case_decide; try discriminate;
      injection Hs as <-; discriminate.
Defined.

(** X3: from such a store, [mix(src, dest)] throws only a [TypeError],
    and throws exactly when it runs in strict mode and under some name
    [src] holds a plain object with a key to copy where [dest] holds a
    truthy primitive; otherwise it returns. *)
Theorem mix_throws strict h0 src dest csrc pd0 :
  tidy src dest csrc pd0 h0 → ordinary csrc pd0 h0 →
  (∀ e h', mix strict (VRef src) (VRef dest) h0 = Throws e h' →
     e = TypeError) ∧
  ((∃ e h', mix strict (VRef src) (VRef dest) h0 = Throws e h') ↔
   strict = true ∧
   ∃ name, name ∈ own_keys csrc ∧ thrown_at csrc pd0 h0 name).
Proof.
  intros Ht (_ & _ & Ha). pose proof Ht as (_ & Hsrc & _ & Hnd & _).
  rewrite (mix_names strict h0 src (VRef dest) csrc Hsrc).
  pose proof (loop strict src dest csrc pd0 h0 Ht Ha (own_keys csrc) [] pd0 h0
                (whole_start src dest csrc pd0 h0 Ht) Hnd) as Hl.
  destruct (for_each _ _ h0) as [[] h1|e h1].
  - destruct Hl as (Hno & _); [by intros n _ ?%not_elem_of_nil|].
    split; [done|]. split.
    + by intros (e & h' & ?).
    + intros (Hs & name & Hn & Hth). by destruct (Hno Hs name Hn).
  - destruct Hl as (Hs & -> & Hname & _); [by intros n _ ?%not_elem_of_nil|].
    split; [by intros e h' [= <- _]|]. split; [done|].
    intros _. by exists TypeError, h1.
Qed.

Lemma mix_throws_witness :
  ∃ e h', mix true (VRef 0) (VRef 2) primitive_store = Throws e h'.
Proof.
  apply (mix_throws true primitive_store 0 2 (CObj [("a", VRef 1)])
           [("a", VStr "x")]).
  - split; [lia|]. split; [reflexivity|]. split; [reflexivity|].
    split; [apply (bool_decide_unpack _); vm_compute; reflexivity|].
    split; [|split].
    + intros name ls. simpl. repeat case_decide; intros [= <-]; simpl; lia.
    + intros name l. simpl. repeat case_decide; intros [= <-].
    + intros name lt (ls & ps & Hs & Hls & Hd). simpl in Hd.
      repeat case_decide; discriminate.
  - split; [apply (bool_decide_unpack _); vm_compute; reflexivity|].
    split; [apply (bool_decide_unpack _); vm_compute; reflexivity|].
    intros name ls es ps ld ed qd Hs Hls Hd Hld. simpl in Hd.
    repeat case_decide; discriminate.
  - split; [reflexivity|]. exists "a". split; [vm_compute; by left|].
    exists 1, [("k", VNum 1)]. by vm_compute.
Defined.

(** X4: merging the same array twice doubles it. Where [src[name]] is an
    array that concatenates as arrays do and [dest[name]] is no array,
    [name] being a name that an assignment binds, the first run of the
    body binds [dest[name]] to the array of [src] itself, and the second
    binds it to a new array that holds the elements twice; the array of
    [src] stays as it was. *)
Theorem array_again strict h src dest name csrc pd ls es ps :
  h !! src = Some csrc → h !! dest = Some (CObj pd) →
  cell_get csrc name = VRef ls → h !! ls = Some (CArr es ps) →
  is_array h (default VUndef (props_get name pd)) = false →
  binds_own name pd → plain_concat ps = true →
  ∃ h1 h2,
    mix_key strict (VRef src) (VRef dest) name h = Done tt h1 ∧
    mix_key strict (VRef src) (VRef dest) name h1 = Done tt h2 ∧
    read h1 dest name = VRef ls ∧
    read h2 dest name = VRef (length h) ∧
    h2 !! length h = Some (CArr (es ++ es) []) ∧
    h2 !! ls = Some (CArr es ps).
Proof.
  intros Hsrc Hdest Hs Hls Hna _ Hq.
  assert (src ≠ dest) as Hne.
  { intros ->. rewrite Hdest in Hsrc. injection Hsrc as <-.
    simpl in Hs. rewrite Hs in Hna. simpl in Hna. by rewrite Hls in Hna. }
  assert (ls ≠ dest) as Hlsd by (intros ->; congruence).
  assert (dest < length h) as Hdl by (by eapply lookup_lt_Some).
  assert (ls < length h) as Hll by (by eapply lookup_lt_Some).
  set (pd1 := props_set name (VRef ls) pd).
  set (h1 := <[dest := CObj pd1]> h).
  assert (h1 !! src = Some csrc) as Hsrc1
    by (unfold h1; by rewrite list_lookup_insert_ne).
  assert (h1 !! dest = Some (CObj pd1)) as Hdest1
    by (unfold h1; by apply list_lookup_insert_eq).
  assert (h1 !! ls = Some (CArr es ps)) as Hls1
    by (unfold h1; by rewrite list_lookup_insert_ne).
  assert (length h1 = length h) as Hlen1 by apply length_insert.
  exists h1, (<[dest := CObj (props_set name (VRef (length h1)) pd1)]>
               (h1 ++ [CArr (es ++ es) []])).
  split; [by apply (step_array_replace strict h src dest name csrc pd ls es ps)|].
  split.
  { apply (step_array_concat strict h1 src dest name csrc pd1 ls es ps
             Hsrc1 Hdest1 Hs Hls1 ls es ps); [|done|done].
    apply props_get_set_eq. }
  unfold read. rewrite Hdest1. simpl.
  rewrite list_lookup_insert_eq by (rewrite length_app; lia). simpl.
  rewrite !props_get_set_eq. simpl. rewrite Hlen1.
  split; [unfold pd1; by rewrite props_get_set_eq|]. split; [done|].
  rewrite !list_lookup_insert_ne by lia.
  rewrite lookup_app_r by lia. rewrite Hlen1, Nat.sub_diag.
  split; [done|]. by rewrite lookup_app_l by lia.
Qed.

Lemma array_again_witness :
  ∃ h1 h2,
    mix_key true (VRef 0) (VRef 2) "a" replace_store = Done tt h1 ∧
    mix_key true (VRef 0) (VRef 2) "a" h1 = Done tt h2 ∧
    read h1 2 "a" = VRef 1 ∧
    read h2 2 "a" = VRef 3 ∧
    h2 !! 3 = Some (CArr ([Some (VNum 3)] ++ [Some (VNum 3)]) []) ∧
    h2 !! 1 = Some (CArr [Some (VNum 3)] []).
Proof.
  apply (array_again true replace_store 0 2 "a" (CObj [("a", VRef 1)])
           [("a", VStr "x")] 1 [Some (VNum 3)] []); try reflexivity.
  left. discriminate.
Defined.

End MixWhole.

(** ** The orchestrator: what a pass needs to succeed *)

Module DetectPass.
Import JS Mix Detect DetectSpec DetectFacts.

Lemma mix_no_result strict v dest h :
  v = VUndef ∨ v = VNull → mix strict v dest h = Throws TypeError h.
Proof. by intros [-> | ->]. Qed.

(** Six detectors that are all different are all the detectors. *)
Lemma detectors_all (l : list detector) :
  NoDup l → 6 ≤ length l → ∀ d, d ∈ l.
Proof.
  intros Hnd Hlen d.
  assert (l ⊆+ detectors) as Hsub.
  { apply NoDup_submseteq; [done|]. intros x _. apply detector_in. }
  apply submseteq_length_Permutation in Hsub; [|done].
  rewrite Hsub. apply detector_in.
Qed.

Lemma handed_in_mono d l1 l2 : handed_in d l1 → handed_in d (l1 ++ l2).
Proof.
  intros (c & Hc & ?). exists c. split; [|done]. apply elem_of_app. by left.
Qed.

Section Run.

Variable strict : bool.

Lemma run_pass_trace sched p st :
  ∃ T, st_trace (run_pass strict sched (p, st)).2 = st_trace st ++ T.
Proof.
  destruct (run_pass_shape strict sched p st) as (_ & T & HT & _).
  by exists T.
Qed.

(** Once [final] has been called, the caller hears nothing more. *)
Lemma run_pass_after sched p st T :
  p_final p = true →
  st_trace (run_pass strict sched (p, st)).2 = st_trace st ++ T →
  callbacks T = [] ∧ assignments T = [] ∧
  st_cache (run_pass strict sched (p, st)).2 = st_cache st.
Proof.
  intros Hf HT.
  destruct (run_pass_shape strict sched p st)
    as (_ & T' & HT' & [(Hq & Hc & _)|[(? & _)|(? & _)]]); try congruence.
  assert (T = T') as -> by (apply (app_inv_head (st_trace st)); congruence).
  by rewrite callbacks_uncaught, assignments_uncaught.
Qed.

(** What the caller is called back with: an error that a detector
    reported, and no report; or no error and the report the pass was
    started with, once every detector has handed in. *)
Lemma run_pass_callback sched : ∀ seen p st T e i,
  p_final p = false → NoDup (p_called p) →
  p_running p + length (p_called p) = 6 →
  (∀ d, d ∈ p_called p → handed_in d seen) →
  st_trace (run_pass strict sched (p, st)).2 = st_trace st ++ T →
  (e, i) ∈ callbacks T →
  (truthy e = true ∧ i = VUndef ∧ ∃ c, c ∈ sched ∧ c_err c = e) ∨
  (e = VNull ∧ i = p_results p ∧ ∀ d, handed_in d (seen ++ sched)).
Proof.
  induction sched as [|c sched IH];
    intros seen p st T e i Hf Hnd Hrun Hseen HT Hcb.
  { simpl in HT. rewrite <- (app_nil_r (st_trace st)) in HT at 1.
    apply app_inv_head in HT as <-. by apply not_elem_of_nil in Hcb. }
  rewrite run_pass_cons in HT.
  assert (∀ p1 st1 T0,
            st_trace st1 = st_trace st ++ T0 → callbacks T0 = [] →
            p_final p1 = false → NoDup (p_called p1) →
            p_running p1 + length (p_called p1) = 6 →
            (∀ d, d ∈ p_called p1 → handed_in d (seen ++ [c])) →
            p_results p1 = p_results p →
            on_completion strict c (p, st) = (p1, st1) →
            (truthy e = true ∧ i = VUndef ∧
             ∃ c', c' ∈ c :: sched ∧ c_err c' = e) ∨
            (e = VNull ∧ i = p_results p ∧
             ∀ d, handed_in d (seen ++ c :: sched))) as Hcont.
  { intros p1 st1 T0 HT0 Hcb0 Hf1 Hnd1 Hrun1 Hseen1 Hres1 Hoc.
    rewrite Hoc in HT.
    destruct (run_pass_trace sched p1 st1) as [T1 HT1].
    assert (T = T0 ++ T1) as ->.
    { apply (app_inv_head (st_trace st)).
      by rewrite <- HT, HT1, HT0, app_assoc. }
    rewrite callbacks_app, Hcb0 in Hcb. simpl in Hcb.
    destruct (IH (seen ++ [c]) p1 st1 T1 e i Hf1 Hnd1 Hrun1 Hseen1 HT1 Hcb)
      as [(? & ? & c' & ? & ?)|(? & ? & Hall)].
    - left. do 2 (split; [done|]). exists c'. split; [by right|done].
    - right. split; [done|]. split; [congruence|].
      intros d. rewrite cons_middle, app_assoc. apply Hall. }
  assert (∀ d st', on_completion strict c (p, st)
                   = (p, log [Uncaught d] st') →
                   st_trace st' = st_trace st →
                   (truthy e = true ∧ i = VUndef ∧
                    ∃ c', c' ∈ c :: sched ∧ c_err c' = e) ∨
                   (e = VNull ∧ i = p_results p ∧
                    ∀ d, handed_in d (seen ++ c :: sched)))
    as Hunc.
  { intros d st' Hoc Hst'.
    apply (Hcont p (log [Uncaught d] st') [Uncaught d]); try done.
    - simpl. by rewrite Hst'.
    - intros d' Hd'. by apply handed_in_mono, Hseen. }
  destruct (on_completion strict c (p, st)) as [p1 st1] eqn:Hoc.
  pose proof Hoc as Hoc'. unfold on_completion, done in Hoc'.
  destruct (truthy (c_err c)) eqn:He.
  - destruct (bool_decide (c_from c ∈ p_called p)) eqn:Hcalled.
    { injection Hoc' as <- <-. by eapply Hunc. }
    simpl in Hoc'. rewrite Hf in Hoc'. simpl in Hoc'.
    injection Hoc' as <- <-. unfold final in HT. rewrite He in HT.
    match type of HT with
    | st_trace (run_pass _ _ (?p2, ?st2)).2 = _ =>
        destruct (run_pass_trace sched p2 st2) as [T1 HT1];
        destruct (run_pass_after sched p2 st2 T1 eq_refl HT1) as (Hcb1 & _)
    end.
    assert (T = error_block (c_err c) ++ T1) as ->.
    { apply (app_inv_head (st_trace st)).
      rewrite <- HT, HT1. simpl. by rewrite <- app_assoc. }
    rewrite callbacks_app, Hcb1 in Hcb. simpl in Hcb.
    apply list_elem_of_singleton in Hcb. injection Hcb as -> ->.
    left. do 2 (split; [done|]). exists c. split; [by left|done].
  - destruct (mix strict (c_result c) (p_results p) (st_heap st))
      as [[] h|e' h] eqn:Hmix.
    2:{ injection Hoc' as <- <-. by eapply Hunc. }
    destruct (bool_decide (c_from c ∈ p_called p)) eqn:Hcalled.
    { injection Hoc' as <- <-. by eapply Hunc. }
    apply bool_decide_eq_false in Hcalled.
    assert (handed_in (c_from c) (seen ++ [c])) as Hc.
    { exists c. split; [apply elem_of_app; right; by left|].
      do 2 (split; [done|]).
      split; intros Hr; rewrite Hr in Hmix; discriminate. }
    simpl in Hoc'. rewrite Hf in Hoc'. simpl in Hoc'.
    destruct (bool_decide (pred (p_running p) = 0)) eqn:Hlast;
      simpl in Hoc'; injection Hoc' as <- <-.
    + apply bool_decide_eq_true in Hlast.
      unfold final in HT. rewrite He in HT.
      match type of HT with
      | st_trace (run_pass _ _ (?p2, ?st2)).2 = _ =>
          destruct (run_pass_trace sched p2 st2) as [T1 HT1];
          destruct (run_pass_after sched p2 st2 T1 eq_refl HT1) as (Hcb1 & _)
      end.
      assert (T = success_block (p_results p) ++ T1) as ->.
      { apply (app_inv_head (st_trace st)).
        rewrite <- HT, HT1. simpl. by rewrite <- app_assoc. }
      rewrite callbacks_app, Hcb1 in Hcb. simpl in Hcb.
      apply list_elem_of_singleton in Hcb. injection Hcb as -> ->.
      right. do 2 (split; [done|]). intros d.
      assert (d ∈ c_from c :: p_called p) as Hd.
      { apply detectors_all; [by apply NoDup_cons|]. simpl. lia. }
      rewrite cons_middle, app_assoc. apply handed_in_mono.
      apply elem_of_cons in Hd as [->|Hd]; [done|].
      by apply handed_in_mono, Hseen.
    + apply bool_decide_eq_false in Hlast.
      apply (Hcont (Pass (p_results p) (c_from c :: p_called p)
                      (pred (p_running p)) false)
               (State h (st_cache st) (st_trace st)) []); try done.
      * simpl. by rewrite app_nil_r.
      * by apply NoDup_cons.
      * simpl. lia.
      * simpl. intros d [->|Hd]%elem_of_cons; [done|].
        by apply handed_in_mono, Hseen.
Qed.

(** With every call back free of errors and of exceptions, the last of
    as many as are running hands the report over. *)
Lemma run_pass_complete sched : ∀ p st T,
  p_final p = false → sched ≠ [] → length sched = p_running p →
  Forall (λ c, truthy (c_err c) = false) sched →
  st_trace (run_pass strict sched (p, st)).2 = st_trace st ++ T →
  Forall (λ e, ¬ uncaught e) T →
  T = success_block (p_results p) ∧
  st_cache (run_pass strict sched (p, st)).2 = p_results p.
Proof.
  induction sched as [|c sched IH]; intros p st T Hf Hne Hlen Herr HT Hclean;
    [done|].
  apply Forall_cons in Herr as [He Herr]. rewrite run_pass_cons in *.
  assert (∀ d st', on_completion strict c (p, st)
                   = (p, log [Uncaught d] st') →
                   st_trace st' = st_trace st → False) as Hunc.
  { intros d st' Hoc Hst'. rewrite Hoc in HT.
    destruct (run_pass_trace sched p (log [Uncaught d] st')) as [T1 HT1].
    assert (T = [Uncaught d] ++ T1) as ->.
    { apply (app_inv_head (st_trace st)).
      rewrite <- HT, HT1. simpl. by rewrite Hst', <- app_assoc. }
    apply Forall_cons in Hclean as [Hbad _]. by apply Hbad. }
  destruct (on_completion strict c (p, st)) as [p1 st1] eqn:Hoc.
  pose proof Hoc as Hoc'. unfold on_completion, done in Hoc'.
  rewrite He in Hoc'.
  destruct (mix strict (c_result c) (p_results p) (st_heap st))
    as [[] h|e' h] eqn:Hmix.
  2:{ injection Hoc' as <- <-. by destruct (Hunc _ _ eq_refl). }
  destruct (bool_decide (c_from c ∈ p_called p)) eqn:Hcalled.
  { injection Hoc' as <- <-. by destruct (Hunc _ _ eq_refl). }
  simpl in Hoc'. rewrite Hf in Hoc'. simpl in Hoc', Hlen.
  destruct sched as [|c' sched']; simpl in Hlen.
  - rewrite bool_decide_eq_true_2 in Hoc' by lia. simpl in Hoc'.
    injection Hoc' as <- <-. simpl in *. unfold final in *. rewrite He in *.
    simpl in *. split; [|done].
    apply (app_inv_head (st_trace st)). by rewrite <- HT.
  - simpl in Hlen. rewrite bool_decide_eq_false_2 in Hoc' by lia.
    simpl in Hoc'. injection Hoc' as <- <-.
    apply (IH (Pass (p_results p) (c_from c :: p_called p)
                 (pred (p_running p)) false)
             (State h (st_cache st) (st_trace st)) T); try done.
    simpl. lia.
Qed.

End Run.

Lemma nodup_from (l : list completion) c c' :
  NoDup (c_from <$> l) → c ∈ l → c' ∈ l → c_from c = c_from c' → c = c'.
Proof.
  induction l as [|a l IH]; intros Hnd Hc Hc' Heq.
  { by apply not_elem_of_nil in Hc. }
  rewrite fmap_cons in Hnd. apply NoDup_cons in Hnd as [Ha Hnd].
  apply elem_of_cons in Hc as [->|Hc]; apply elem_of_cons in Hc' as [->|Hc'];
    try done.
  - destruct Ha. rewrite Heq. by apply list_elem_of_fmap_2.
  - destruct Ha. rewrite <- Heq. by apply list_elem_of_fmap_2.
  - by apply IH.
Qed.

(** An uncached call is a pass over a new report. *)
Lemma detect_pass strict options sched st :
  cached options st = false →
  ∃ h T,
    detect strict options sched st
    = (run_pass strict sched
         (Pass (new_report (st_heap st)) [] 6 false,
          log ((λ d, Invoke d options) <$> detectors)
            (State h (st_cache st) (st_trace st)))).2 ∧
    st_trace (detect strict options sched st)
    = (st_trace st ++ ((λ d, Invoke d options) <$> detectors)) ++ T ∧
    added st (detect strict options sched st)
    = ((λ d, Invoke d options) <$> detectors) ++ T.
Proof.
  intros Hc. unfold detect, magik. rewrite Hc.
  unfold new_results, bind, alloc, new_report. simpl.
  rewrite length_app. simpl. rewrite Nat.add_1_r.
  eexists.
  match goal with
  | |- ∃ T, (run_pass _ _ (?p, ?st0)).2 = _ ∧ _ =>
      destruct (run_pass_trace strict sched p st0) as [T HT]
  end.
  exists T. split; [done|]. split; [exact HT|].
  apply added_app. rewrite HT. simpl. by rewrite <- app_assoc.
Qed.

(** The three ways an uncached call can go. *)
Lemma detect_shape strict options sched st :
  cached options st = false →
  ∃ T,
    added st (detect strict options sched st)
    = ((λ d, Invoke d options) <$> detectors) ++ T ∧
    ((Forall uncaught T ∧
      st_cache (detect strict options sched st) = st_cache st) ∨
     (∃ U1 U2 e,
        Forall uncaught U1 ∧ Forall uncaught U2 ∧ truthy e = true ∧
        st_cache (detect strict options sched st) = st_cache st ∧
        T = U1 ++ error_block e ++ U2) ∨
     (∃ U1 U2,
        Forall uncaught U1 ∧ Forall uncaught U2 ∧
        st_cache (detect strict options sched st)
        = new_report (st_heap st) ∧
        T = U1 ++ success_block (new_report (st_heap st)) ++ U2)).
Proof.
  intros Hc.
  destruct (detect_pass strict options sched st Hc) as (h & T & Hd & Htr & Ha).
  exists T. split; [done|]. rewrite Hd in *.
  match goal with
  | |- context [run_pass _ _ (?p, ?st0)] =>
      destruct (run_pass_shape strict sched p st0)
        as (_ & T' & HT' & Hcase)
  end.
  assert (T = T') as ->.
  { apply (app_inv_head
             (st_trace st ++ ((λ d, Invoke d options) <$> detectors))).
    rewrite <- Htr. exact HT'. }
  destruct Hcase as [(? & ? & _)|[(_ & U1 & U2 & e & ? & ? & ? & ? & ->)
                                 |(_ & U1 & U2 & ? & ? & ? & ->)]].
  - by left.
  - right; left. by exists U1, U2, e.
  - right; right. by exists U1, U2.
Qed.

(** What the callback of an uncached call is called with. *)
Lemma detect_callback strict options sched st e i :
  cached options st = false →
  (e, i) ∈ callbacks (added st (detect strict options sched st)) →
  (truthy e = true ∧ i = VUndef ∧ ∃ c, c ∈ sched ∧ c_err c = e) ∨
  (e = VNull ∧ i = new_report (st_heap st) ∧ ∀ d, handed_in d sched).
Proof.
  intros Hc Hcb.
  destruct (detect_pass strict options sched st Hc) as (h & T & Hd & Htr & Ha).
  rewrite Ha, callbacks_app, callbacks_invoke in Hcb. simpl in Hcb.
  rewrite Hd in Htr.
  apply (run_pass_callback strict sched []
           (Pass (new_report (st_heap st)) [] 6 false)
           (log ((λ d, Invoke d options) <$> detectors)
              (State h (st_cache st) (st_trace st))) T e i
           eq_refl NoDup_nil_2 eq_refl); [|exact Htr|exact Hcb].
  by intros d ?%not_elem_of_nil.
Qed.

(** X5: whatever the detectors do, and in whatever order, a call of
    [detect] calls the caller's callback once at most: not at all, with
    [cache] left as it was; or with an error and nothing else, with
    [cache] left as it was; or with no error and a report, which is then
    what [cache] holds, assigned by this call unless it was the cached
    one. *)
Theorem callback_once strict options sched st :
  (callbacks (added st (detect strict options sched st)) = [] ∧
   assignments (added st (detect strict options sched st)) = [] ∧
   st_cache (detect strict options sched st) = st_cache st) ∨
  (∃ e, truthy e = true ∧
     callbacks (added st (detect strict options sched st)) = [(e, VUndef)] ∧
     assignments (added st (detect strict options sched st)) = [] ∧
     st_cache (detect strict options sched st) = st_cache st) ∨
  (∃ r, truthy r = true ∧
     callbacks (added st (detect strict options sched st)) = [(VNull, r)] ∧
     assignments (added st (detect strict options sched st))
     = (if cached options st then [] else [r]) ∧
     st_cache (detect strict options sched st) = r).
Proof.
  destruct (cached options st) eqn:Hc.
  - right; right. exists (st_cache st).
    unfold cached in Hc. apply andb_true_iff in Hc as [Hc Hb].
    split; [done|]. unfold detect, magik, cached. rewrite Hc, Hb. simpl.
    unfold added. simpl. by rewrite drop_app_length.
  - destruct (detect_shape strict options sched st Hc) as (T & -> & Hcase).
    rewrite !callbacks_app, !assignments_app, callbacks_invoke,
      assignments_invoke. simpl.
    destruct Hcase as [(Hq & Hcache)|[(U1 & U2 & e & Hq1 & Hq2 & He & Hcache & ->)
                                     |(U1 & U2 & Hq1 & Hq2 & Hcache & ->)]].
    + left. by rewrite callbacks_uncaught, assignments_uncaught.
    + right; left. exists e. split; [done|].
      rewrite !callbacks_app, !assignments_app, (callbacks_uncaught U1),
        (callbacks_uncaught U2), (assignments_uncaught U1),
        (assignments_uncaught U2) by done.
      done.
    + right; right. exists (new_report (st_heap st)). split; [done|].
      rewrite !callbacks_app, !assignments_app, (callbacks_uncaught U1),
        (callbacks_uncaught U2), (assignments_uncaught U1),
        (assignments_uncaught U2) by done.
      done.
Qed.

(** X6: when an uncached call hands a report to the callback, the report
    is the object that call created, and each of the six detectors has
    called back without an error and with a result that is neither
    [undefined] nor [null]. *)
Theorem success_needs_all strict options sched st r :
  cached options st = false →
  (VNull, r) ∈ callbacks (added st (detect strict options sched st)) →
  r = new_report (st_heap st) ∧ ∀ d, handed_in d sched.
Proof.
  intros Hc Hcb.
  by destruct (detect_callback strict options sched st VNull r Hc Hcb)
    as [(? & _)|(_ & ? & ?)].
Qed.

Lemma success_needs_all_witness :
  VRef 6 = new_report store1 ∧ ∀ d, handed_in d passing_schedule.
Proof.
  apply (success_needs_all true VUndef passing_schedule start1 (VRef 6)).
  - reflexivity.
  - vm_compute. constructor.
Defined.

(** X7: a detector that calls back with neither an error nor a result
    leaves the caller waiting: when no detector reports an error and each
    calls back once at most, the callback is never called and [cache]
    stays as it was. *)
Theorem empty_handed strict options sched st c :
  cached options st = false →
  NoDup (c_from <$> sched) →
  Forall (λ c', truthy (c_err c') = false) sched →
  c ∈ sched → c_result c = VUndef ∨ c_result c = VNull →
  callbacks (added st (detect strict options sched st)) = [] ∧
  assignments (added st (detect strict options sched st)) = [] ∧
  st_cache (detect strict options sched st) = st_cache st.
Proof.
  intros Hc Hnd Herr Hin Hres.
  assert (callbacks (added st (detect strict options sched st)) = []) as Hno.
  { destruct (callbacks _) as [|[e i] l] eqn:Hcb; [done|]. exfalso.
    destruct (detect_callback strict options sched st e i Hc)
      as [(He & _ & c' & Hc' & <-)|(_ & _ & Hall)]; [rewrite Hcb; by left| |].
    - rewrite Forall_forall in Herr. by rewrite (Herr c' Hc') in He.
    - destruct (Hall (c_from c)) as (c' & Hc' & Hfrom & _ & Hu & Hn).
      assert (c' = c) as -> by (by eapply nodup_from).
      by destruct Hres. }
  split; [done|].
  destruct (detect_shape strict options sched st Hc) as (T & Ha & Hcase).
  rewrite Ha in *.
  rewrite callbacks_app, callbacks_invoke in Hno. simpl in Hno.
  rewrite assignments_app, assignments_invoke. simpl.
  destruct Hcase as [(Hq & Hcache)|[(U1 & U2 & e & Hq1 & Hq2 & He & Hcache & ->)
                                   |(U1 & U2 & Hq1 & Hq2 & Hcache & ->)]].
  - by rewrite assignments_uncaught.
  - rewrite !callbacks_app, (callbacks_uncaught U1) in Hno by done.
    discriminate.
  - rewrite !callbacks_app, (callbacks_uncaught U1) in Hno by done.
    discriminate.
Qed.

Lemma empty_handed_witness :
  callbacks (added start1 (detect true VUndef empty_handed_schedule start1))
  = [] ∧
  assignments (added start1 (detect true VUndef empty_handed_schedule start1))
  = [] ∧
  st_cache (detect true VUndef empty_handed_schedule start1) = VUndef.
Proof.
  apply (empty_handed true VUndef empty_handed_schedule start1
           (Completion Certificates VNull VUndef)).
  - reflexivity.
  - apply (bool_decide_unpack _). vm_compute. reflexivity.
  - repeat constructor.
  - apply list_elem_of_further, list_elem_of_here.
  - by left.
Defined.



End DetectPass.

(** ** The resolver: edges of the matching *)

Module CombosEdges.
Import JS Combos CombosSpec CombosFacts.

Lemma fmap_bind_comm {A B C} (f : B → C) (g : A → list B) (l : list A) :
  f <$> (l ≫= g) = l ≫= (λ x, f <$> g x).
Proof.
  induction l as [|x l IH]; [done|].
  by rewrite !bind_cons, fmap_app, IH.
Qed.

Lemma substring_all (s : string) : ∀ n,
  String.length s ≤ n → String.substring 0 n s = s.
Proof.
  induction s as [|a s IH]; intros [|n] Hn; simpl in *; try done; try lia.
  rewrite IH; [done|lia].
Qed.

Lemma substring_app (b r : string) :
  String.substring 0 (String.length b) (b +:+ r) = b.
Proof.
  induction b as [|a b IH]; simpl.
  - by destruct r.
  - by rewrite IH.
Qed.

(** The inner loops for one profile and one device, over any
    certificates. *)
Lemma flatten_certs_bind (ks : keychains) :
  flatten_certs ks = (kc ← ks; ty ← kc.2; ty.2).
Proof.
  unfold flatten_certs.
  rewrite (foldl_push _ (λ kc : string * list (string * list cert),
                           ty ← kc.2; ty.2)); [done|].
  intros acc kc. apply foldl_push. done.
Qed.

Lemma elem_of_flatten_certs (ks : keychains) c :
  c ∈ flatten_certs ks ↔ ∃ kc ty, kc ∈ ks ∧ ty ∈ kc.2 ∧ c ∈ ty.2.
Proof.
  rewrite flatten_certs_bind, list_elem_of_bind. split.
  - intros (kc & Hc & Hkc). apply list_elem_of_bind in Hc as (ty & Hc & Hty).
    by exists kc, ty.
  - intros (kc & ty & Hkc & Hty & Hc). exists kc. split; [|done].
    apply list_elem_of_bind. by exists ty.
Qed.

Lemma flatten_certs_nil (ks : keychains) :
  flatten_certs ks = [] ↔ ∀ kc ty, kc ∈ ks → ty ∈ kc.2 → ty.2 = [].
Proof.
  split.
  - intros Hnil kc ty Hkc Hty. destruct (ty.2) as [|c l] eqn:Hl; [done|].
    assert (c ∈ flatten_certs ks) as Hin.
    { apply elem_of_flatten_certs. exists kc, ty. rewrite Hl.
      split; [done|]. split; [done|]. by left. }
    rewrite Hnil in Hin. by apply not_elem_of_nil in Hin.
  - intros Hall. destruct (flatten_certs ks) as [|c l] eqn:Hl; [done|].
    assert (c ∈ flatten_certs ks) as Hin by (rewrite Hl; by left).
    apply elem_of_flatten_certs in Hin as (kc & ty & Hkc & Hty & Hc).
    rewrite (Hall kc ty Hkc Hty) in Hc. by apply not_elem_of_nil in Hc.
Qed.

(** X9: the certificates the resolver works with are those of every
    keychain and every type, keychain after keychain and type after type
    in the order the keys are listed, each list in its own order; and,
    with a device connected, the resolver answers "No iOS certificates"
    exactly when every such list is empty. *)
Theorem flatten_certs_spec :
  (∀ ks, flatten_certs ks = (kc ← ks; ty ← kc.2; ty.2)) ∧
  (∀ ks c,
     c ∈ flatten_certs ks ↔ ∃ kc ty, kc ∈ ks ∧ ty ∈ kc.2 ∧ c ∈ ty.2) ∧
  (∀ e h opts cb,
     device_detect e ≠ [] →
     (r_result (findValidDeviceCertProfileCombos e h opts cb)
      = Failure "No iOS certificates" ↔
      ∀ kc ty, kc ∈ certs_detect e → ty ∈ kc.2 → ty.2 = [])).
Proof.
  split; [apply flatten_certs_bind|]. split; [apply elem_of_flatten_certs|].
  intros e h opts cb Hd. rewrite <- flatten_certs_nil.
  unfold findValidDeviceCertProfileCombos.
  destruct (normalize opts cb) as [o k].
  rewrite (bool_decide_eq_false_2 (length (device_detect e) = 0))
    by (by rewrite length_zero_iff_nil).
  case_bool_decide as Hc; rewrite length_zero_iff_nil in Hc.
  - done.
  - case_bool_decide; simpl; split; intros; done.
Qed.

(** X10: a certificate whose body, the header line taken off, has sixty
    characters at most is matched on its whole body; so one whose PEM text
    is empty or the header line alone matches every fingerprint, and gives
    a combo for each fingerprint of a profile that lists the device. *)
Theorem short_body_matches c :
  String.length (strip_header (pem c)) ≤ 60 →
  cert_prefix c = strip_header (pem c) ∧
  (∀ pcert,
     starts_with pcert (cert_prefix c) = true ↔
     ∃ rest, pcert = (strip_header (pem c) +:+ rest)%string) ∧
  (strip_header (pem c) = "" →
   ∀ p d, authorizes p d = true →
     match_combos [p] [d] [c] = (λ _, combo p c d) <$> certs p).
Proof.
  intros Hlen.
  assert (cert_prefix c = strip_header (pem c)) as Hp
    by (by apply substring_all).
  split; [done|]. split.
  - intros pcert. rewrite Hp. apply starts_with_spec.
  - intros Hnil p d Ha. rewrite match_combos_in_order.
    unfold combos_in_order, triple_combos. simpl. rewrite Ha, Hp, Hnil. simpl.
    rewrite !app_nil_r.
    induction (certs p) as [|pcert l IH]; [done|].
    rewrite bind_cons, IH, fmap_cons.
    assert (starts_with pcert "" = true) as ->; [|done].
    apply starts_with_spec. by exists pcert.
Qed.

Lemma short_body_matches_witness :
  cert_prefix c_blank = strip_header (pem c_blank) ∧
  (∀ pcert,
     starts_with pcert (cert_prefix c_blank) = true ↔
     ∃ rest, pcert = (strip_header (pem c_blank) +:+ rest)%string) ∧
  (strip_header (pem c_blank) = "" →
   ∀ p d, authorizes p d = true →
     match_combos [p] [d] [c_blank] = (λ _, combo p c_blank d) <$> certs p).
Proof.
  apply (short_body_matches c_blank). vm_compute. lia.
Defined.

Lemma cert_prefix_body c b r :
  String.length b = 60 → strip_header (pem c) = (b +:+ r)%string →
  cert_prefix c = b.
Proof.
  intros Hlen Hb. unfold cert_prefix. rewrite Hb, <- Hlen.
  apply substring_app.
Qed.

(** X11: the matching looks at a certificate through the first sixty
    characters of its body only: two certificates whose bodies start with
    the same sixty characters give the same combos, fingerprint for
    fingerprint, up to the certificate's name. *)
Theorem same_prefix_same_combos c c' b r r' profiles ds :
  String.length b = 60 →
  strip_header (pem c) = (b +:+ r)%string →
  strip_header (pem c') = (b +:+ r')%string →
  match_combos profiles ds [c']
  = props_set "certName" (VStr (name c')) <$> match_combos profiles ds [c].
Proof.
  intros Hlen Hc Hc'. rewrite !match_combos_in_order.
  unfold combos_in_order, triple_combos.
  rewrite fmap_bind_comm. apply list_bind_ext; [|done]. intros p.
  rewrite fmap_bind_comm. apply list_bind_ext; [|done]. intros d.
  destruct (authorizes p d); [|done].
  rewrite !bind_singleton.
  rewrite (cert_prefix_body c b r), (cert_prefix_body c' b r') by done.
  induction (certs p) as [|pcert l IH]; [done|].
  rewrite !bind_cons, fmap_app, IH. by destruct (starts_with pcert b).
Qed.

Lemma same_prefix_same_combos_witness :
  match_combos [p1; p2] [d1] [c1_twin]
  = props_set "certName" (VStr "Twin") <$> match_combos [p1; p2] [d1] [c1].
Proof.
  apply (same_prefix_same_combos c1 c1_twin body60 "89+/MIIC" "00/+DIFFERENT"
           [p1; p2] [d1]); reflexivity.
Defined.

(** X12: profiles are found, but none lists a connected device, be it
    that a profile comes without a list of devices: the resolver reports
    no error and hands over an empty list of combos. *)
Theorem no_match_is_success e h opts cb :
  device_detect e ≠ [] → flatten_certs (certs_detect e) ≠ [] →
  found e h opts cb ≠ [] →
  (∀ p d, p ∈ found e h opts cb → d ∈ device_detect e →
     devices p = None ∨ ∃ l, devices p = Some l ∧ udid d ∉ l) →
  r_result (findValidDeviceCertProfileCombos e h opts cb) = Success [].
Proof.
  intros Hd Hc Hp Hnone. rewrite run_success by done. f_equal.
  destruct (match_combos _ _ _) as [|x l] eqn:Hm; [done|]. exfalso.
  assert (x ∈ match_combos (found e h opts cb) (device_detect e)
                (flatten_certs (certs_detect e))) as Hx
    by (rewrite Hm; by left).
  rewrite match_combos_in_order in Hx.
  apply elem_of_combos_in_order in Hx as (p & d & c & ? & ? & ? & Ha & _).
  apply authorizes_spec in Ha as (l' & Hl' & Hin).
  destruct (Hnone p d) as [?|(l0 & ? & ?)]; try done; congruence.
Qed.

Lemma no_match_is_success_witness :
  r_result (findValidDeviceCertProfileCombos env_open [] (AData VUndef)
              (AFunction 0)) = Success [].
Proof.
  apply (no_match_is_success env_open [] (AData VUndef) (AFunction 0));
    try discriminate.
  intros p d Hp _. left.
  apply list_elem_of_singleton in Hp. by rewrite Hp.
Defined.

(** X13: each profile, and for a profile each device, gives its combos
    whatever the others are: the combos of two lists of profiles one after
    the other are those of the first followed by those of the second, and
    so for the devices of one profile. *)
Theorem combos_compose :
  (∀ ps1 ps2 ds cs,
     match_combos (ps1 ++ ps2) ds cs
     = match_combos ps1 ds cs ++ match_combos ps2 ds cs) ∧
  (∀ p ds1 ds2 cs,
     match_combos [p] (ds1 ++ ds2) cs
     = match_combos [p] ds1 cs ++ match_combos [p] ds2 cs).
Proof.
  split.
  - intros ps1 ps2 ds cs. rewrite !match_combos_in_order.
    apply bind_app.
  - intros p ds1 ds2 cs. rewrite !match_combos_in_order.
    unfold combos_in_order. rewrite !bind_singleton. apply bind_app.
Qed.

End CombosEdges.

(** ** The Android detection: how the promise settles *)

Module AndroidFacts.
Import JS Android.

Lemma android_detector_in (d : detector) : d ∈ detectors.
Proof. destruct d; unfold detectors; repeat constructor. Qed.

Lemma five_detectors (l : list detector) :
  NoDup l → 5 ≤ length l → ∀ d, d ∈ l.
Proof.
  intros Hnd Hlen d.
  assert (l ⊆+ detectors) as Hsub.
  { apply NoDup_submseteq; [done|]. intros x _. apply android_detector_in. }
  apply submseteq_length_Permutation in Hsub; [|done].
  rewrite Hsub. apply android_detector_in.
Qed.

Lemma index_inj d d' : index d = index d' → d = d'.
Proof. by destruct d, d'. Qed.

Lemma index_bound d : index d < 5.
Proof. destruct d; simpl; lia. Qed.

Lemma first_of_app l1 l2 d :
  first_of (l1 ++ l2) d
  = match first_of l1 d with Some s => Some s | None => first_of l2 d end.
Proof.
  induction l1 as [|[d' s] l1 IH]; [done|].
  simpl. by case_decide.
Qed.

Lemma first_of_snoc seen d0 s0 d :
  first_of (seen ++ [(d0, s0)]) d
  = match first_of seen d with
    | Some s => Some s
    | None => if decide (d0 = d) then Some s0 else None
    end.
Proof. by rewrite first_of_app. Qed.

Lemma gathered_start :
  gathered (Gathering (replicate (length detectors) None) []
              (length detectors) Pending) [].
Proof.
  split; [constructor|]. split; [done|]. split.
  - intros d. split; [by intros ?%not_elem_of_nil|by intros [? ?]].
  - simpl. split; [done|]. split; [lia|]. by intros d ?%not_elem_of_nil.
Qed.

(** One settlement keeps what holds of [Promise.all]. *)
Lemma gathered_step g seen ev :
  gathered g seen → gathered (on_settle g ev) (seen ++ [ev]).
Proof.
  destruct ev as [d0 s0]. intros (Hnd & Hlen & Hin & Hst).
  unfold on_settle. simpl. case_bool_decide as Hd0.
  - (* the promise of [d0] had settled *)
    assert (∀ d, first_of (seen ++ [(d0, s0)]) d = first_of seen d) as Hsame.
    { intros d. rewrite first_of_snoc.
      destruct (first_of seen d) eqn:Hf; [done|]. case_decide as Hd; [|done].
      subst d. apply Hin in Hd0 as [? ?]. congruence. }
    split; [done|]. split; [done|]. split.
    { intros d. by rewrite Hsame. }
    destruct (g_all g) as [|vs|r].
    + destruct Hst as (? & ? & Hv). do 2 (split; [done|]).
      intros d Hd. rewrite Hsame. by apply Hv.
    + intros d. rewrite Hsame. apply Hst.
    + destruct Hst as (pre & d & e & post & -> & ? & ? & ?).
      exists pre, d, e, (post ++ [(d0, s0)]).
      split; [by rewrite <- app_assoc|done].
  - (* it settles now *)
    assert (first_of seen d0 = None) as Hnew.
    { destruct (first_of seen d0) eqn:Hf; [|done].
      destruct Hd0. apply Hin. by eexists. }
    assert (∀ d, first_of (seen ++ [(d0, s0)]) d
                 = if decide (d0 = d) then Some s0 else first_of seen d)
      as Hfirst.
    { intros d. rewrite first_of_snoc. case_decide as Hd.
      - subst d. by rewrite Hnew.
      - by destruct (first_of seen d). }
    assert (∀ d, d ∈ d0 :: g_settled g
                 ↔ is_Some (first_of (seen ++ [(d0, s0)]) d)) as Hin'.
    { intros d. rewrite Hfirst, elem_of_cons. case_decide as Hd.
      - split; [by eexists|by left].
      - rewrite <- Hin. split; [by intros [?|?]|by right]. }
    assert (∀ pre d e post,
              seen = pre ++ (d, Rejected e) :: post →
              seen ++ [(d0, s0)]
              = pre ++ (d, Rejected e) :: (post ++ [(d0, s0)])) as Hext.
    { intros pre d e post ->. by rewrite <- app_assoc. }
    destruct s0 as [v|e]; unfold gathered; simpl.
    + (* with a value *)
      split; [by apply NoDup_cons|]. split; [by rewrite length_insert|].
      split; [done|].
      destruct (g_all g) as [|vs|r] eqn:Hall.
      * destruct Hst as (Hrem & Hpos & Hv).
        assert (∀ d, d ∈ d0 :: g_settled g →
                  ∃ v', first_of (seen ++ [(d0, Fulfilled v)]) d
                        = Some (Fulfilled v') ∧
                    <[index d0 := Some v]> (g_values g) !! index d
                    = Some (Some v')) as Hv'.
        { intros d Hd. rewrite Hfirst. case_decide as Hdd.
          - subst d. exists v. split; [done|].
            apply list_lookup_insert_eq. rewrite Hlen. apply index_bound.
          - apply elem_of_cons in Hd as [?|Hd]; [done|].
            destruct (Hv d Hd) as (v' & ? & ?). exists v'. split; [done|].
            rewrite list_lookup_insert_ne; [done|].
            intros ?%index_inj. done. }
        case_bool_decide as Hlast; simpl.
        -- intros d. apply Hv'.
           apply five_detectors; [by apply NoDup_cons|]. simpl. lia.
        -- split; [simpl; lia|]. split; [lia|]. done.
      * case_bool_decide; simpl; intros d; rewrite Hfirst;
          case_decide as Hdd; try apply Hst.
        all: subst d; destruct (Hst d0) as (? & ? & _); congruence.
      * case_bool_decide; simpl;
          destruct Hst as (pre & d & e & post & Hseen & ? & ? & ?);
          exists pre, d, e, (post ++ [(d0, Fulfilled v)]);
          (split; [by apply Hext|done]).
    + (* with a rejection *)
      split; [by apply NoDup_cons|]. split; [done|]. split; [done|].
      destruct (g_all g) as [|vs|r] eqn:Hall; simpl.
      * destruct Hst as (Hrem & Hpos & Hv).
        exists seen, d0, e, []. do 3 (split; [done|]).
        intros d' s Hs. destruct (Hv d') as (v' & Hf & _).
        { apply Hin. by eexists. }
        exists v'. congruence.
      * destruct (Hst d0) as (? & ? & _). congruence.
      * destruct Hst as (pre & d & e' & post & Hseen & ? & ? & ?).
        exists pre, d, e', (post ++ [(d0, Rejected e)]).
        split; [by apply Hext|done].
Qed.

Lemma gathered_run sched : ∀ g seen,
  gathered g seen → gathered (foldl on_settle g sched) (seen ++ sched).
Proof.
  induction sched as [|ev sched IH]; intros g seen Hg; simpl.
  - by rewrite app_nil_r.
  - rewrite cons_middle, app_assoc. by apply IH, gathered_step.
Qed.

Lemma promise_all_gathered sched :
  ∃ g, promise_all sched = g_all g ∧ gathered g sched.
Proof.
  eexists. split; [done|].
  apply (gathered_run sched _ []), gathered_start.
Qed.

(** Once [Promise.all] has settled, later settlements change nothing. *)
Lemma settled_stays post : ∀ g,
  g_all g ≠ Pending → g_all (foldl on_settle g post) = g_all g.
Proof.
  induction post as [|ev post IH]; intros g Hg; [done|].
  simpl. assert (g_all (on_settle g ev) = g_all g) as Hstep.
  { unfold on_settle. case_bool_decide; [done|].
    destruct (ev.2); simpl; try case_bool_decide;
      by destruct (g_all g). }
  rewrite IH; [done|]. by rewrite Hstep.
Qed.

(** The promise of [detect] is that of [Promise.all], seen through the
    callback. *)
Lemma detect_promise w arg sched h :
  ∃ h1,
    r_promise (detect w arg sched h)
    = and_then (promise_all sched) (result_of w (r_opts (detect w arg sched h)))
        h1 ∧
    (arg = VUndef →
     get_prop (r_opts (detect w arg sched h)) "androidHomePath" h1
     = Done VUndef h1) ∧
    (arg ≠ VUndef → r_opts (detect w arg sched h) = arg ∧ h1 = h).
Proof.
  unfold detect. destruct arg; simpl; eexists; (split; [done|]); split;
    try done.
  intros _. unfold get_prop.
  rewrite lookup_app_r by done. by rewrite Nat.sub_diag.
Qed.

Lemma element_field w opts vs h r d v :
  result_of w opts vs h = Done r h → vs !! index d = Some (Some v) →
  props_get (field d) r = Some v.
Proof.
  unfold result_of, bind, ret.
  destruct (get_prop opts "androidHomePath" h) as [path h'|e h']; [|done].
  intros [= <- _] Hv. unfold element.
  destruct d; simpl in *; by rewrite Hv.
Qed.

Lemma result_of_heap w opts vs h r h' :
  result_of w opts vs h = Done r h' → h' = h.
Proof.
  unfold result_of, bind, ret, get_prop.
  destruct opts; try done; by intros [= _ <-].
Qed.

(** X14: when the promise of the Android [detect] resolves, every
    detector has fulfilled, and the result binds the value of each to its
    own key, whatever the order they settled in; [home] is the expanded
    [opts.androidHomePath] when that is truthy, else the expanded
    [ANDROID_HOME] when that is truthy, else the expanded default; and the
    argument was not [null]. *)
Theorem resolved_by_place w arg sched h r :
  r_promise (detect w arg sched h) = Resolved r →
  (∀ d, ∃ v, first_of sched d = Some (Fulfilled v) ∧
     props_get (field d) r = Some v) ∧
  arg ≠ VNull ∧
  ∃ path,
    props_get "home" r
    = Some (expand_path w
              (if truthy path then path
               else if truthy (android_home w) then android_home w
               else VStr "~/.android")) ∧
    (arg = VUndef → path = VUndef) ∧
    (∀ l c, arg = VRef l → h !! l = Some c →
       path = cell_get c "androidHomePath").
Proof.
  intros Hr. destruct (detect_promise w arg sched h) as (h1 & Hp & Hu & Hn).
  rewrite Hp in Hr. clear Hp.
  destruct (promise_all_gathered sched) as (g & Hall & (_ & _ & _ & Hg)).
  rewrite Hall in Hr.
  destruct (g_all g) as [|vs|?]; simpl in Hr; try done.
  destruct (result_of w _ vs h1) as [r' h'|e h'] eqn:Hres; [|done].
  injection Hr as ->.
  pose proof (result_of_heap _ _ _ _ _ _ Hres) as ->.
  split.
  { intros d. destruct (Hg d) as (v & Hf & Hv). exists v. split; [done|].
    by eapply element_field. }
  unfold result_of, bind, ret in Hres.
  destruct (get_prop _ "androidHomePath" h1) as [path h'|e h'] eqn:Hget;
    [|done].
  injection Hres as <-.
  split.
  { intros ->. destruct (Hn ltac:(done)) as [Ho _]. by rewrite Ho in Hget. }
  exists path. split; [|split].
  - simpl. unfold or_else.
    destruct (truthy path) eqn:Hpath; simpl; by rewrite ?Hpath.
  - intros Ha. specialize (Hu Ha). congruence.
  - intros l c -> Hl. destruct (Hn ltac:(done)) as [Ho ->].
    rewrite Ho in Hget. unfold get_prop in Hget. rewrite Hl in Hget.
    simpl in Hget. congruence.
Qed.

Lemma resolved_by_place_witness :
  (∀ d, ∃ v, first_of fulfilling_schedule d = Some (Fulfilled v) ∧
     props_get (field d)
       [("home", VStr "/opt/android"); ("sdk", VNum 1); ("ndk", VNum 2);
        ("genymotion", VNum 3); ("devices", VNum 4); ("emulators", VNum 5)]
     = Some v) ∧
  VUndef ≠ VNull ∧
  ∃ path,
    props_get "home"
      [("home", VStr "/opt/android"); ("sdk", VNum 1); ("ndk", VNum 2);
       ("genymotion", VNum 3); ("devices", VNum 4); ("emulators", VNum 5)]
    = Some (expand_path world1
              (if truthy path then path
               else if truthy (android_home world1) then android_home world1
               else VStr "~/.android")) ∧
    (VUndef = VUndef → path = VUndef) ∧
    (∀ l c, VUndef = VRef l → ([] : heap) !! l = Some c →
       path = cell_get c "androidHomePath").
Proof.
  apply (resolved_by_place world1 VUndef fulfilling_schedule []).
  reflexivity.
Defined.

(** X15: the promise of the Android [detect] rejects with what the first
    detector to reject rejected with, whatever settles afterwards: no
    result is built from the values of the others. *)
Theorem first_rejection_wins w arg pre d e post h :
  first_of pre d = None →
  (∀ d' s, first_of pre d' = Some s → ∃ v, s = Fulfilled v) →
  r_promise (detect w arg (pre ++ (d, Rejected e) :: post) h)
  = Failed (Reason e).
Proof.
  intros Hd Hpre.
  destruct (detect_promise w arg (pre ++ (d, Rejected e) :: post) h)
    as (h1 & -> & _).
  assert (promise_all (pre ++ (d, Rejected e) :: post) = Failed (Reason e))
    as ->; [|done].
  unfold promise_all. rewrite foldl_app.
  pose proof (gathered_run pre _ [] gathered_start) as Hg. simpl in Hg.
  set (g := foldl on_settle _ pre) in *.
  destruct Hg as (_ & _ & Hin & Hst).
  assert (d ∉ g_settled g) as Hnot.
  { intros Hs. apply Hin in Hs as [? ?]. congruence. }
  assert (g_all g = Pending) as Hpend.
  { destruct (g_all g) as [|vs|r]; [done|exfalso..].
    - destruct (Hst d) as (? & ? & _). congruence.
    - destruct Hst as (pre' & d' & e' & post' & -> & _ & Hd' & _).
      destruct (Hpre d' (Rejected e')) as [? ?]; [|done].
      rewrite first_of_app, Hd'. simpl. by rewrite decide_True. }
  simpl. rewrite settled_stays.
  - unfold on_settle. simpl. rewrite bool_decide_eq_false_2 by done.
    simpl. by rewrite Hpend.
  - unfold on_settle. simpl. rewrite bool_decide_eq_false_2 by done.
    simpl. by rewrite Hpend.
Qed.

Lemma first_rejection_wins_witness :
  r_promise (detect world1 VUndef rejecting_schedule [])
  = Failed (Reason (VStr "no ndk")).
Proof.
  apply (first_rejection_wins world1 VUndef [(Device, Fulfilled (VNum 1))]
           NDK (VStr "no ndk")
           [(SDK, Fulfilled (VNum 2)); (Emulator, Rejected (VStr "no avd"))]
           []).
  - reflexivity.
  - intros d' s. simpl. case_decide; [|done]. intros [= <-]. by eexists.
Defined.

Lemma all_settled (l : list detector) :
  NoDup l → (∀ d, d ∈ l) → length l = 5.
Proof.
  intros Hnd Hall. apply Nat.le_antisymm.
  - change 5 with (length detectors).
    apply submseteq_length, NoDup_submseteq; [done|].
    intros d _. apply android_detector_in.
  - change 5 with (length detectors).
    apply submseteq_length, NoDup_submseteq.
    + apply (bool_decide_unpack _). vm_compute. reflexivity.
    + intros d _. apply Hall.
Qed.

(** X16: when all five detectors have fulfilled, in whatever order, the
    promise of the Android [detect] has settled: it has resolved, unless
    the argument was [null], which the default does not replace and whose
    [androidHomePath] cannot be read, so that it has rejected with a
    [TypeError]. *)
Theorem all_fulfilled_settles w arg sched h :
  (∀ d, ∃ v, first_of sched d = Some (Fulfilled v)) →
  if decide (arg = VNull)
  then r_promise (detect w arg sched h) = Failed (Thrown TypeError)
  else ∃ r, r_promise (detect w arg sched h) = Resolved r.
Proof.
  intros Hall. destruct (detect_promise w arg sched h) as (h1 & -> & Hu & Hn).
  destruct (promise_all_gathered sched) as (g & -> & (Hnd & _ & Hin & Hg)).
  assert (length (g_settled g) = 5) as Hlen.
  { apply all_settled; [done|]. intros d. apply Hin.
    destruct (Hall d) as [v ->]. by eexists. }
  destruct (g_all g) as [|vs|r].
  - lia.
  - simpl. case_decide as Harg.
    + subst arg. destruct (Hn ltac:(done)) as [-> _]. done.
    + destruct (decide (arg = VUndef)) as [Hund|Hund].
      * unfold result_of, bind. rewrite (Hu Hund). by eexists.
      * destruct (Hn Hund) as [-> ->]. unfold result_of, bind, get_prop.
        destruct arg; try done; by eexists.
  - destruct Hg as (pre & d & e & post & -> & _ & Hd & _).
    destruct (Hall d) as [v Hv].
    rewrite first_of_app, Hd in Hv. simpl in Hv.
    by rewrite decide_True in Hv.
Qed.

Lemma all_fulfilled_settles_witness :
  if decide (VUndef = VNull)
  then r_promise (detect world1 VUndef fulfilling_schedule [])
       = Failed (Thrown TypeError)
  else ∃ r, r_promise (detect world1 VUndef fulfilling_schedule [])
            = Resolved r.
Proof.
  apply (all_fulfilled_settles world1 VUndef fulfilling_schedule []).
  intros []; by eexists.
Defined.

(** X17: as long as a detector has not settled and none has rejected, the
    promise of the Android [detect] is pending: no result is handed over
    before the slowest detector has fulfilled. *)
Theorem pending_until_all w arg sched h d :
  first_of sched d = None →
  (∀ d' s, first_of sched d' = Some s → ∃ v, s = Fulfilled v) →
  r_promise (detect w arg sched h) = Pending.
Proof.
  intros Hd Hful. destruct (detect_promise w arg sched h) as (h1 & -> & _).
  destruct (promise_all_gathered sched) as (g & -> & (_ & _ & _ & Hg)).
  destruct (g_all g) as [|vs|r]; [done|exfalso..].
  - destruct (Hg d) as (? & ? & _). congruence.
  - destruct Hg as (pre & d' & e & post & -> & _ & Hd' & _).
    destruct (Hful d' (Rejected e)) as [? ?]; [|done].
    rewrite first_of_app, Hd'. simpl. by rewrite decide_True.
Qed.

Lemma pending_until_all_witness :
  r_promise (detect world1 VUndef
               [(Device, Fulfilled (VNum 1)); (SDK, Fulfilled (VNum 2))] [])
  = Pending.
Proof.
  apply (pending_until_all world1 VUndef
           [(Device, Fulfilled (VNum 1)); (SDK, Fulfilled (VNum 2))] [] NDK).
  - reflexivity.
  - intros d' s. simpl. repeat case_decide; try done;
      intros [= <-]; by eexists.
Defined.

End AndroidFacts.

(** ** Nothing is taken out of the store *)

Module Keeps.
Import JS Mix MixSpec Detect DetectSpec JSFacts DetectFacts.

Lemma keeps_refl c : keeps c c.
Proof. destruct c as [ps|es ps]; simpl; [by exists ps|done]. Qed.

Lemma keeps_trans c1 c2 c3 : keeps c1 c2 → keeps c2 c3 → keeps c1 c3.
Proof.
  destruct c1 as [ps1|es1 ps1]; simpl.
  - intros (ps2 & -> & H12) (ps3 & -> & H23). exists ps3. split; [done|].
    intros k Hk. by apply H23, H12.
  - destruct c2; simpl; [done|]. by intros _ ?.
Qed.

Lemma grows_refl h : grows h h.
Proof. intros l c Hl. exists c. split; [done|apply keeps_refl]. Qed.

Lemma grows_trans h1 h2 h3 : grows h1 h2 → grows h2 h3 → grows h1 h3.
Proof.
  intros H12 H23 l c1 Hl. destruct (H12 l c1 Hl) as (c2 & Hl2 & Hk12).
  destruct (H23 l c2 Hl2) as (c3 & Hl3 & Hk23). exists c3.
  split; [done|]. by eapply keeps_trans.
Qed.

Lemma grows_app h l : grows h (h ++ l).
Proof.
  intros i c Hi. exists c. split; [|apply keeps_refl].
  by apply lookup_app_l_Some.
Qed.

Lemma cell_set_keeps c k v c' : cell_set c k v = inr c' → keeps c c'.
Proof.
  destruct c as [ps|es ps]; simpl.
  - intros [= <-]. eexists. split; [done|]. intros k' Hk'.
    destruct (decide (k' = k)) as [->|Hne].
    + rewrite props_get_set_eq. by eexists.
    + by rewrite props_get_set_ne.
  - destruct (array_index k); [by intros [= <-]|].
    case_decide; [|by intros [= <-]].
    destruct (to_length v); [by intros [= <-]|done].
Qed.

Lemma grows_insert h l c c' :
  h !! l = Some c → keeps c c' → grows h (<[l := c']> h).
Proof.
  intros Hl Hk i ci Hi. destruct (decide (i = l)) as [->|Hne].
  - exists c'. split; [apply list_lookup_insert_eq; by eapply lookup_lt_Some|].
    congruence.
  - exists ci. split; [by rewrite list_lookup_insert_ne|apply keeps_refl].
Qed.

Lemma steady_ret {A} (a : A) : steady (ret a).
Proof. intros h. apply grows_refl. Qed.

Lemma steady_bind {A B} (m : M A) (k : A → M B) :
  steady m → (∀ a, steady (k a)) → steady (bind m k).
Proof.
  intros Hm Hk h. unfold bind. specialize (Hm h).
  destruct (m h) as [a h'|e h']; [|done].
  eapply grows_trans; [exact Hm|apply Hk].
Qed.

Lemma steady_for_each {A} (l : list A) (f : A → M unit) :
  (∀ x, steady (f x)) → steady (for_each l f).
Proof.
  intros Hf. induction l as [|x l IH]; [apply steady_ret|].
  simpl. apply steady_bind; [apply Hf|done].
Qed.

Lemma steady_get o k : steady (get_prop o k).
Proof. intros h. destruct o; apply grows_refl. Qed.

Lemma steady_keys o : steady (object_keys o).
Proof. intros h. destruct o; apply grows_refl. Qed.

Lemma steady_alloc c : steady (alloc c).
Proof. intros h. apply grows_app. Qed.

Lemma steady_concat a b : steady (concat a b).
Proof.
  intros h.
  destruct (concat_cases a b h) as [(l & ea & pa & _ & _ & _ & ->)| ->].
  - apply grows_app.
  - apply grows_refl.
Qed.

Lemma steady_set strict o k v : steady (set_prop strict o k v).
Proof.
  intros h. unfold set_prop.
  destruct o as [| | | | |l]; try destruct strict; try apply grows_refl.
  all: destruct (h !! l) as [c|] eqn:Hl; [|apply grows_refl].
  all: destruct (cell_set c k v) as [e|c'] eqn:Hc; [apply grows_refl|].
  all: simpl; eapply grows_insert; [done|]; by eapply cell_set_keeps.
Qed.

Lemma mix_key_steady strict src dest name :
  steady (mix_key strict src dest name).
Proof.
  unfold mix_key. apply steady_bind; [apply steady_get|]. intros s h.
  destruct (is_array h s).
  - apply steady_bind; [apply steady_get|]. intros d h1.
    destruct (is_array h1 d).
    + apply steady_bind; [apply steady_get|]. intros d1.
      apply steady_bind; [apply steady_get|]. intros s1.
      apply steady_bind; [apply steady_concat|]. intros c.
      apply steady_set.
    + apply steady_bind; [apply steady_get|]. intros s1. apply steady_set.
  - destruct (is_object s).
    + apply steady_bind; [apply steady_get|]. intros d.
      apply steady_bind.
      { destruct (truthy d); [apply steady_ret|].
        apply steady_bind; [apply steady_alloc|]. intros o. apply steady_set. }
      intros _. apply steady_bind; [apply steady_get|]. intros s1.
      apply steady_bind; [apply steady_keys|]. intros keys.
      apply steady_for_each. intros key.
      apply steady_bind; [apply steady_get|]. intros d1.
      apply steady_bind; [apply steady_get|]. intros s2.
      apply steady_bind; [apply steady_get|]. intros v. apply steady_set.
    + apply steady_bind; [apply steady_get|]. intros s1. apply steady_set.
Qed.

Lemma mix_steady strict src dest : steady (mix strict src dest).
Proof.
  unfold mix. apply steady_bind; [apply steady_keys|]. intros names.
  apply steady_for_each. intros name. apply mix_key_steady.
Qed.

Lemma grows_length h h' : grows h h' → length h ≤ length h'.
Proof.
  intros Hg. destruct h as [|c h] using rev_ind; [simpl; lia|].
  destruct (Hg (length h) c) as (c' & Hl & _).
  { rewrite lookup_app_r by lia. by rewrite Nat.sub_diag. }
  apply lookup_lt_Some in Hl. rewrite length_app. simpl. lia.
Qed.

Lemma keeps_is_arr c c' : keeps c c' → is_arr c' = is_arr c.
Proof. destruct c; simpl; [by intros (? & -> & _)|done]. Qed.

(** X18: whatever its two arguments are, and whether it returns or
    throws, [mix] takes nothing out of the store: every object is still
    there, an array is still an array and a plain object a plain object,
    and a plain object has every key it had. *)
Theorem mix_keeps strict src dest h :
  grows h (final_heap (mix strict src dest h)) ∧
  length h ≤ length (final_heap (mix strict src dest h)) ∧
  ∀ l, l < length h →
    is_array (final_heap (mix strict src dest h)) (VRef l)
    = is_array h (VRef l).
Proof.
  pose proof (mix_steady strict src dest h) as Hg.
  split; [done|]. split; [by apply grows_length|].
  intros l Hl. apply lookup_lt_is_Some in Hl as [c Hc].
  destruct (Hg l c Hc) as (c' & Hc' & Hk). simpl.
  rewrite Hc, Hc'. simpl. by apply keeps_is_arr.
Qed.

Lemma done_heap d err p st : st_heap (done d err p st).2 = st_heap st.
Proof.
  unfold done, final, log. case_bool_decide; [done|].
  destruct (_ && _); [|done]. by destruct (truthy err).
Qed.

Lemma on_completion_grows strict c p st :
  grows (st_heap st) (st_heap (on_completion strict c (p, st)).2).
Proof.
  unfold on_completion.
  destruct (truthy (c_err c)); [rewrite done_heap; apply grows_refl|].
  pose proof (mix_steady strict (c_result c) (p_results p) (st_heap st))
    as Hg.
  destruct (mix strict (c_result c) (p_results p) (st_heap st))
    as [[] h|e h]; simpl in *; [|done].
  by rewrite done_heap.
Qed.

Lemma run_pass_grows strict sched : ∀ p st,
  grows (st_heap st) (st_heap (run_pass strict sched (p, st)).2).
Proof.
  induction sched as [|c sched IH]; intros p st; [apply grows_refl|].
  rewrite run_pass_cons.
  pose proof (on_completion_grows strict c p st) as Hc.
  destruct (on_completion strict c (p, st)) as [p1 st1].
  eapply grows_trans; [exact Hc|apply IH].
Qed.

(** X19: a call of [detect] takes nothing out of the store, whatever the
    detectors hand in and in whatever order; and the report an uncached
    call creates is, at every moment of the pass, a plain object with its
    [detectVersion] and [issues] keys. *)
Theorem report_keeps_shape strict options :
  (∀ sched st, grows (st_heap st) (st_heap (detect strict options sched st))) ∧
  (∀ sched st,
     cached options st = false →
     ∃ l ps,
       new_report (st_heap st) = VRef l ∧
       st_heap (detect strict options sched st) !! l = Some (CObj ps) ∧
       is_Some (props_get "detectVersion" ps) ∧
       is_Some (props_get "issues" ps)).
Proof.
  assert (∀ sched st,
            cached options st = false →
            grows ((st_heap st ++ [CArr [] []])
                     ++ [CObj [("detectVersion", VStr "4.0");
                               ("issues", VRef (length (st_heap st)))]])
              (st_heap (detect strict options sched st))) as Hrun.
  { intros sched st Hc. unfold detect, magik. rewrite Hc.
    unfold new_results, bind, alloc. simpl.
    match goal with
    | |- grows _ (st_heap (run_pass _ _ (?p, ?st0)).2) =>
        exact (run_pass_grows strict sched p st0)
    end. }
  split.
  - intros sched st. destruct (cached options st) eqn:Hc.
    + unfold detect, magik. rewrite Hc. apply grows_refl.
    + eapply grows_trans; [|by apply Hrun].
      rewrite <- app_assoc. apply grows_app.
  - intros sched st Hc. exists (S (length (st_heap st))).
    destruct (Hrun sched st Hc (S (length (st_heap st)))
                (CObj [("detectVersion", VStr "4.0");
                       ("issues", VRef (length (st_heap st)))]))
      as (c' & Hl & ps' & -> & Hk).
    { rewrite lookup_app_r by (rewrite length_app; simpl; lia).
      rewrite length_app. simpl.
      replace (S (length (st_heap st)) - (length (st_heap st) + 1)) with 0
        by lia.
      done. }
    exists ps'. split; [done|]. split; [done|].
    split; apply Hk; by eexists.
Qed.

End Keeps.
